(** * perfume-kg: the expansion sanitiser and the incremental layout

    A shallow embedding of [src/server/expand.ts] (the sanitiser applied to
    the model's JSON answer, and the handler that calls it) and of the
    helpers of [src/components/GraphView.tsx] ([computeRingPositions],
    [placeChildrenForward] and [mergeUniqueElements], in both variants of
    the file), with the properties stated for them. *)

From Stdlib Require Import ZArith NArith Ascii String List.
From Stdlib Require Reals Lra.
From Corelib Require Import PrimFloat.
From Corelib Require FloatAxioms.
From stdpp Require Import base tactics option list gmap sets pretty sorting.

#[local] Set Warnings "-clear-no-such-hyp".

Local Open Scope N_scope.
Local Open Scope list_scope.

(** ** JavaScript strings

    A JavaScript string is a sequence of UTF-16 code units; the regular
    expressions of [expand.ts] carry no [u] flag, so they read code units. *)

Definition jsstring : Type := list N.

(** An ASCII literal of the source, as code units. *)
Definition lit (s : string) : jsstring :=
  N_of_ascii <$> list_ascii_of_string s.

(** A template literal's [${i}] for a non-negative integer [i]. *)
Definition dec (i : N) : jsstring := lit (pretty i).

(** [WhiteSpace] and [LineTerminator] of ECMAScript, stripped by [trim]. *)
Definition is_space (c : N) : bool :=
  bool_decide (c ∈ [9; 10; 11; 12; 13; 32; 160; 5760; 8232; 8233; 8239; 8287; 12288; 65279])
  || ((8192 <=? c) && (c <=? 8202)).

Fixpoint trimStart (s : jsstring) : jsstring :=
  match s with
  | [] => []
  | c :: rest => if is_space c then trimStart rest else s
  end.
Definition trim (s : jsstring) : jsstring := rev (trimStart (rev (trimStart s))).

(** [/^[\x00-\u007F]+$/.test(s)]: at least one code unit, all below 128. *)
Definition looksAsciiOnly (s : jsstring) : bool :=
  match s with
  | [] => false
  | _ => forallb (λ c, c <=? 127) s
  end.

(** [/[\u3040-\u30FF\u3400-\u9FFF]/.test(s)]. *)
Definition hasJapaneseChar (s : jsstring) : bool :=
  existsb (λ c, ((12352 <=? c) && (c <=? 12543)) || ((13312 <=? c) && (c <=? 40959))) s.

(** ** Results of a call: a value, or an exception

    [OutOfFuel] is the model's own: the [while] loop of [makeUniqueId] is run
    on a fuel that [makeUniqueId_loop_fuel] shows to be enough. *)

Inductive outcome (A : Type) : Type :=
| Return (a : A)
| TypeError
| OutOfFuel.
Arguments Return {A} a.
Arguments TypeError {A}.
Arguments OutOfFuel {A}.

Definition bind {A B : Type} (m : outcome A) (k : A → outcome B) : outcome B :=
  match m with
  | Return a => k a
  | TypeError => TypeError
  | OutOfFuel => OutOfFuel
  end.

Global Instance outcome_ret : MRet outcome := @Return.
Global Instance outcome_bind : MBind outcome := λ A B k m, bind m k.

(** [xs.map(f)] and [xs.filter(p)] with a callback that may throw. *)
Fixpoint mapM {A B : Type} (f : A → outcome B) (xs : list A) : outcome (list B) :=
  match xs with
  | [] => Return []
  | x :: xs' => y ← f x; ys ← mapM f xs'; Return (y :: ys)
  end.

Fixpoint filterM {A : Type} (p : A → outcome bool) (xs : list A) : outcome (list A) :=
  match xs with
  | [] => Return []
  | x :: xs' =>
      b ← p x;
      ys ← filterM p xs';
      Return (if (b : bool) then x :: ys else ys)
  end.

(** ** JSON values, as [JSON.parse] builds them *)

#[warnings="-register-all"]
Inductive json : Type :=
| JNull
| JBool (b : bool)
| JNum (text : jsstring)   (* a number, kept as the text [String] prints for it *)
| JStr (s : jsstring)
| JArr (xs : list json)
| JObj (fields : list (jsstring * json)).

(** Own property of a parsed object; a repeated key keeps its last value. *)
Fixpoint obj_get (k : jsstring) (fields : list (jsstring * json)) : option json :=
  match fields with
  | [] => None
  | (k', v) :: rest =>
      match obj_get k rest with
      | Some v' => Some v'
      | None => if decide (k' = k) then Some v else None
      end
  end.

(** [v.k] for the keys the sanitiser reads ([nodes], [edges], [id], [label],
    [kind], [source], [target]): none of them is a member of a prototype, so
    the access is an own-property lookup on an object and [undefined] ([None])
    on any other value. The accesses on [null] are guarded in the source. *)
Definition get (v : json) (k : string) : option json :=
  match v with
  | JObj fields => obj_get (lit k) fields
  | _ => None
  end.

(** Truthiness, for [n && ...]. *)
Definition truthy (v : json) : bool :=
  match v with
  | JNull => false
  | JBool b => b
  | JNum t => negb (bool_decide (t = lit "0"))
  | JStr s => negb (bool_decide (s = []))
  | JArr _ | JObj _ => true
  end.

(** [x ?? d] and [x != null] on a possibly undefined value. *)
Definition nullish (v : option json) : bool :=
  match v with
  | None | Some JNull => true
  | _ => false
  end.

Definition coalesce (v d : option json) : option json :=
  if nullish v then d else v.

(** [String(v)]. An array prints its elements joined by commas, [null] as
    the empty string. A plain object prints as [[object Object]], unless it
    owns a [toString] key: the parsed value under it is not callable,
    [Object.prototype.valueOf] returns the object itself, and the conversion
    ends in a [TypeError]. *)
Fixpoint join (sep : jsstring) (parts : list jsstring) : jsstring :=
  match parts with
  | [] => []
  | [p] => p
  | p :: rest => p ++ sep ++ join sep rest
  end.

Fixpoint toStr (v : json) : outcome jsstring :=
  match v with
  | JNull => Return (lit "null")
  | JBool true => Return (lit "true")
  | JBool false => Return (lit "false")
  | JNum t => Return t
  | JStr s => Return s
  | JArr xs =>
      parts ←
        (fix elems (xs : list json) : outcome (list jsstring) :=
           match xs with
           | [] => Return []
           | x :: rest =>
               p ← match x with JNull => Return [] | _ => toStr x end;
               ps ← elems rest;
               Return (p :: ps)
           end) xs;
      Return (join (lit ",") parts)
  | JObj fields =>
      match obj_get (lit "toString") fields with
      | Some _ => TypeError
      | None => Return (lit "[object Object]")
      end
  end.

Definition String_ (v : option json) : outcome jsstring :=
  match v with
  | None => Return (lit "undefined")
  | Some v => toStr v
  end.

(** A payload is plain when none of its objects owns a [toString] key, so
    that [String] converts every value in it. *)
Fixpoint plain (v : json) : bool :=
  match v with
  | JArr xs => forallb plain xs
  | JObj fields =>
      negb (bool_decide (is_Some (obj_get (lit "toString") fields)))
      && forallb (λ kv, plain kv.2) fields
  | _ => true
  end.

(** [v] is absent, [null] or an array. *)
Definition arrayish (v : option json) : bool :=
  match coalesce v (Some (JArr [])) with
  | Some (JArr _) => true
  | _ => false
  end.

(** The payloads the sanitiser copes with. *)
Definition wellShaped (raw : json) : bool :=
  plain raw && arrayish (get raw "nodes") && arrayish (get raw "edges").

Section json_induction.
Variable P : json → Prop.
Hypothesis Hnull : P JNull.
Hypothesis Hbool : ∀ b, P (JBool b).
Hypothesis Hnum : ∀ t, P (JNum t).
Hypothesis Hstr : ∀ s, P (JStr s).
Hypothesis Harr : ∀ xs, Forall P xs → P (JArr xs).
Hypothesis Hobj : ∀ fields, Forall (λ kv, P kv.2) fields → P (JObj fields).

(** Induction on a JSON value, with the hypothesis for every element of an
    array and every value of an object. *)
Fixpoint json_nested_ind (v : json) : P v :=
  match v with
  | JNull => Hnull
  | JBool b => Hbool b
  | JNum t => Hnum t
  | JStr s => Hstr s
  | JArr xs =>
      Harr xs ((fix elems (xs : list json) : Forall P xs :=
                  match xs with
                  | [] => Forall_nil_2 P
                  | x :: rest => Forall_cons_2 P x rest (json_nested_ind x) (elems rest)
                  end) xs)
  | JObj fields =>
      Hobj fields ((fix values (fs : list (jsstring * json)) : Forall (λ kv, P kv.2) fs :=
                      match fs with
                      | [] => Forall_nil_2 _
                      | kv :: rest =>
                          Forall_cons_2 (λ kv, P kv.2) kv rest (json_nested_ind kv.2) (values rest)
                      end) fields)
  end.
End json_induction.

(** ** [src/server/expand.ts] *)

Module Expand.

(** A JavaScript number is an IEEE 754 double: a primitive float, with the
    runtime's own [+]. Equality of two of them is decided by comparing
    their bits (every NaN is the one NaN). *)
Global Instance float_eq_dec : EqDecision float.
Proof.
  intros x y. destruct (Leibniz.eqb x y) eqn:E.
  - left. by apply FloatAxioms.Leibniz.eqb_spec.
  - right. intros Heq. apply FloatAxioms.Leibniz.eqb_spec in Heq. congruence.
Defined.

(** [type Node = { id; label; kind; depth }], the depth a [number]. *)
Record Node : Type := mkNode {
  n_id : jsstring;
  n_label : jsstring;
  n_kind : jsstring;
  n_depth : float;
}.

(** The value of an edge's [label]: a string, or a member inherited from
    [Object.prototype] that a lookup [m[targetKind]] in an object literal
    returns for a kind such as [constructor]. *)
Inductive jslabel : Type :=
| Text (s : jsstring)
| ProtoMember (name : jsstring).

(** [type Edge = { id; source; target; label }]. *)
Record Edge : Type := mkEdge {
  e_id : jsstring;
  e_source : jsstring;
  e_target : jsstring;
  e_label : jslabel;
}.

(** [type ExpandResponse = { nodes; edges }]. *)
Record ExpandResponse : Type := mkResponse {
  nodes : list Node;
  edges : list Edge;
}.

Global Instance Node_eq_dec : EqDecision Node.
Proof. solve_decision. Defined.
Global Instance jslabel_eq_dec : EqDecision jslabel.
Proof. solve_decision. Defined.
Global Instance Edge_eq_dec : EqDecision Edge.
Proof. solve_decision. Defined.

Inductive domain : Type := perfume | wine | unknown.

Definition has (set : gset jsstring) (k : string) : bool :=
  bool_decide (lit k ∈ set).

Definition inferDomainFromAllowedKinds (allowedKinds : list jsstring) : domain :=
  let set : gset jsstring := list_to_set allowedKinds in
  if has set "producer" || has set "grape" || has set "appellation" then wine
  else if has set "brand" || has set "note" || has set "perfumer" then perfume
  else unknown.

(** The names every object literal inherits from [Object.prototype]. *)
Definition objectPrototypeKeys : list jsstring :=
  lit <$> ["constructor"; "__proto__"; "hasOwnProperty"; "isPrototypeOf";
           "propertyIsEnumerable"; "toLocaleString"; "toString"; "valueOf";
           "__defineGetter__"; "__defineSetter__"; "__lookupGetter__";
           "__lookupSetter__"]%string.

(** [m[k]] on an object literal [m : Record<string, string>]. *)
Fixpoint record_get (m : list (string * jsstring)) (k : jsstring) : option jslabel :=
  match m with
  | [] => if bool_decide (k ∈ objectPrototypeKeys) then Some (ProtoMember k) else None
  | (k', v) :: rest => if decide (lit k' = k) then Some (Text v) else record_get rest k
  end.

Definition kanren : jsstring := [38306; 36899].          (* the generic relation label *)

Definition perfumeLabels : list (string * jsstring) :=
  [ ("brand", [12502; 12521; 12531; 12489]);
    ("perfume", [39321; 27700]);
    ("note", [12494; 12540; 12488]);
    ("accord", [12450; 12467; 12540; 12489]);
    ("perfumer", [35519; 39321; 24107]);
    ("style", [12473; 12479; 12452; 12523]);
    ("category", [12459; 12486; 12468; 12522]);
    ("root", kanren) ]%string.

Definition wineLabels : list (string * jsstring) :=
  [ ("producer", [29983; 29987; 32773]);
    ("wine", [12527; 12452; 12531]);
    ("region", [22320; 22495]);
    ("appellation", [21628; 31216]);
    ("grape", [21697; 31278]);
    ("vintage", [12532; 12451; 12531; 12486; 12540; 12472]);
    ("style", [12473; 12479; 12452; 12523]);
    ("root", kanren) ]%string.

Definition edgeLabelJa (d : domain) (targetKind : jsstring) : jslabel :=
  match d with
  | perfume => default (Text kanren) (record_get perfumeLabels targetKind)
  | wine => default (Text kanren) (record_get wineLabels targetKind)
  | unknown => Text kanren
  end.

Definition includes (xs : list string) (k : jsstring) : bool :=
  bool_decide (k ∈ lit <$> xs).

Definition shouldRequireJapaneseLabel (d : domain) (kind : jsstring) : bool :=
  match d with
  | perfume => negb (includes ["brand"; "perfume"; "perfumer"]%string kind)
  | wine => negb (includes ["producer"; "wine"; "grape"; "vintage"; "appellation"]%string kind)
  | unknown => false
  end.

(** The [i]-th candidate of [makeUniqueId]: [`${base}__${i}`]. *)
Definition suffixed (base : jsstring) (i : N) : jsstring := base ++ lit "__" ++ dec i.

(** [while (used.has(id)) id = `${base}__${i++}`], one test of the loop
    condition per unit of fuel. *)
Fixpoint makeUniqueId_loop (fuel : nat) (base : jsstring) (used : gset jsstring)
    (id : jsstring) (i : N) : outcome jsstring :=
  match fuel with
  | O => OutOfFuel
  | S fuel' =>
      if decide (id ∈ used)
      then makeUniqueId_loop fuel' base used (suffixed base i) (N.succ i)
      else Return id
  end.

(** [makeUniqueId(base, used)]: the fresh id and the set after [used.add(id)]. *)
Definition makeUniqueId (base : jsstring) (used : gset jsstring)
    : outcome (jsstring * gset jsstring) :=
  id ← makeUniqueId_loop (S (size used)) base used base 1;
  Return (id, {[id]} ∪ used).

(** [(v ?? []).filter(...)]: the receiver has to be an array. *)
Definition arrayOrEmpty (v : option json) : outcome (list json) :=
  match coalesce v (Some (JArr [])) with
  | Some (JArr xs) => Return xs
  | _ => TypeError
  end.

Section sanitize.
Variables (focusId : jsstring) (focusDepth : float).
Variables (existingElementIds allowedKinds : list jsstring).

Definition allowed : gset jsstring := list_to_set allowedKinds.
Definition domainGuess : domain := inferDomainFromAllowedKinds allowedKinds.

(** [n && typeof n.id === "string"]. *)
Definition hasStringId (n : json) : bool :=
  truthy n && match get n "id" with Some (JStr _) => true | _ => false end.

(** The first [.map] of the node pipeline. *)
Definition normalizeNode (n : json) : outcome Node :=
  id ← String_ (get n "id");
  label ← String_ (coalesce (get n "label") (get n "id"));
  k ← String_ (get n "kind");
  let kind := if bool_decide (k ∈ allowed) then k
              else default (lit "node") (last allowedKinds) in
  Return (mkNode (trim id) (trim label) kind (focusDepth + 1)).

(** [.map((n) => ({ ...n, id: makeUniqueId(n.id, usedNodeIds) }))]. *)
Fixpoint uniquifyNodes (ns : list Node) (used : gset jsstring)
    : outcome (list Node * gset jsstring) :=
  match ns with
  | [] => Return ([], used)
  | n :: rest =>
      r ← makeUniqueId (n_id n) used;
      rs ← uniquifyNodes rest r.2;
      Return (mkNode r.1 (n_label n) (n_kind n) (n_depth n) :: rs.1, rs.2)
  end.

(** The last [.filter] of the node pipeline. *)
Definition passesLanguagePolicy (n : Node) : bool :=
  if negb (shouldRequireJapaneseLabel domainGuess (n_kind n)) then true
  else if hasJapaneseChar (n_label n) then true
  else if looksAsciiOnly (n_label n) then false
  else true.

(** [if (nodes.length > 3) nodes = nodes.slice(0, 3)]. *)
Definition capNodes (ns : list Node) : list Node :=
  if (3 <? length ns)%nat then take 3 ns else ns.

(** The candidates after extraction, normalisation and id resolution
    (the pipeline up to and including the second [.map]). *)
Definition resolvedNodes (raw : json) : outcome (list Node) :=
  arr ← arrayOrEmpty (get raw "nodes");
  normalized ← mapM normalizeNode (filter (λ n, hasStringId n = true) arr);
  rs ← uniquifyNodes (filter (λ n, n_id n ≠ []) normalized) (list_to_set existingElementIds);
  Return rs.1.

Definition sanitizedNodes (raw : json) : outcome (list Node) :=
  resolved ← resolvedNodes raw;
  Return (capNodes (filter (λ n, passesLanguagePolicy n = true) resolved)).

(** [e && e.source != null && e.target != null]. *)
Definition hasEndpoints (e : json) : bool :=
  truthy e && negb (nullish (get e "source")) && negb (nullish (get e "target")).

(** The [.map((e, i) => ...)] of the edge pipeline, from index [i] on. *)
Fixpoint mapEdges (ns : list Node) (es : list json) (i : N) (used : gset jsstring)
    : outcome (list Edge * gset jsstring) :=
  match es with
  | [] => Return ([], used)
  | e :: rest =>
      target ← String_ (get e "target");
      base ← String_ (coalesce (get e "id")
                (Some (JStr (focusId ++ lit "--" ++ target ++ lit "--" ++ dec i))));
      r ← makeUniqueId base used;
      label ← String_ (coalesce (get e "label") (Some (JStr kanren)));
      let label' :=
        if negb (hasJapaneseChar label) && looksAsciiOnly label
        then
          let targetKind :=
            match find (λ n, bool_decide (n_id n = target)) ns with
            | Some n => n_kind n
            | None => []
            end in
          edgeLabelJa domainGuess targetKind
        else Text label in
      rs ← mapEdges ns rest (N.succ i) r.2;
      Return (mkEdge r.1 focusId target label' :: rs.1, rs.2)
  end.

(** [edgesFromModel], with the set [usedEdgeIds] it leaves behind. *)
Definition edgesFromModel (ns : list Node) (raw : json)
    : outcome (list Edge * gset jsstring) :=
  let newNodeIds : gset jsstring := list_to_set (n_id <$> ns) in
  arr ← arrayOrEmpty (get raw "edges");
  fromFocus ← filterM (λ e, s ← String_ (get e "source"); Return (bool_decide (s = focusId)))
                      (filter (λ e, hasEndpoints e = true) arr);
  toNew ← filterM (λ e, t ← String_ (get e "target"); Return (bool_decide (t ∈ newNodeIds)))
                  fromFocus;
  mapEdges ns toNew 0 (list_to_set existingElementIds).

(** [for (const n of nodes) { if (edgeTargets.has(n.id)) continue; supplemented.push(...) }]. *)
Fixpoint supplement (edgeTargets : gset jsstring) (ns : list Node) (used : gset jsstring)
    : outcome (list Edge * gset jsstring) :=
  match ns with
  | [] => Return ([], used)
  | n :: rest =>
      if decide (n_id n ∈ edgeTargets) then supplement edgeTargets rest used
      else
        r ← makeUniqueId (focusId ++ lit "--" ++ n_id n ++ lit "--auto") used;
        rs ← supplement edgeTargets rest r.2;
        Return (mkEdge r.1 focusId (n_id n) (edgeLabelJa domainGuess (n_kind n)) :: rs.1, rs.2)
  end.

(** [if (nodes.length > 0 && edges.length === 0) edges.push(...)]. *)
Definition forceEdge (ns : list Node) (es : list Edge) (used : gset jsstring)
    : outcome (list Edge) :=
  match ns, es with
  | first :: _, [] =>
      r ← makeUniqueId (focusId ++ lit "--" ++ n_id first ++ lit "--forced") used;
      Return (es ++ [mkEdge r.1 focusId (n_id first) (edgeLabelJa domainGuess (n_kind first))])
  | _, _ => Return es
  end.

Definition sanitizeExpandResult (raw : json) : outcome ExpandResponse :=
  ns ← sanitizedNodes raw;
  model ← edgesFromModel ns raw;
  let edgeTargets : gset jsstring := list_to_set (e_target <$> model.1) in
  suppl ← supplement edgeTargets ns model.2;
  es ← forceEdge ns (model.1 ++ suppl.1) suppl.2;
  Return (mkResponse ns es).
End sanitize.

End Expand.

(** ** Vocabulary for the sanitiser's properties *)

Section sanitizer_vocabulary.
Import Expand.

(** The ids the loop tries, in order: [base], [base__1], [base__2], ... *)
Definition candidate (base : jsstring) (k : N) : jsstring :=
  if decide (k = 0) then base else suffixed base k.

(** [fresh_ids used ids used']: a pass that starts with the set [used] hands
    out the ids [ids], one [makeUniqueId] after the other, and leaves
    [used']. *)
Definition fresh_ids (used : gset jsstring) (ids : list jsstring) (used' : gset jsstring) : Prop :=
  NoDup ids ∧ (∀ x, x ∈ ids → x ∉ used) ∧ used' = list_to_set ids ∪ used.

(** The base of the id of the edge synthesised for the node [nid]. *)
Definition autoBase (focusId nid : jsstring) : jsstring :=
  focusId ++ lit "--" ++ nid ++ lit "--auto".

(** The edge the completion loop adds for the node [n]: from the focus,
    labelled by the node's kind, with an id grown from [autoBase]. *)
Definition synthesized (focusId : jsstring) (allowedKinds : list jsstring)
    (n : Node) (e : Edge) : Prop :=
  e_source e = focusId ∧ e_target e = n_id n ∧
  e_label e = edgeLabelJa (domainGuess allowedKinds) (n_kind n) ∧
  ∃ k, e_id e = candidate (autoBase focusId (n_id n)) k.

(** A call is settled when its model did not run out of fuel. *)
Definition settled {A} (m : outcome A) : Prop := m ≠ OutOfFuel.

(** A call returns when it ends with a value. *)
Definition returns {A} (m : outcome A) : Prop := ∃ a, m = Return a.

(** The kinds whose presence in [allowedKinds] selects a domain. *)
Definition markerKinds : list jsstring :=
  lit <$> ["producer"; "grape"; "appellation"; "brand"; "note"; "perfumer"]%string.

(** The node pipeline in the order the specification lists its stages: the
    cap of three (stage 3) before the language filter (stage 4). Stated from
    the specification, to be compared with [sanitizedNodes]. *)
Definition sanitizedNodes_capFirst (focusDepth : float) (existingElementIds allowedKinds : list jsstring)
    (raw : json) : outcome (list Node) :=
  resolved ← resolvedNodes focusDepth existingElementIds allowedKinds raw;
  Return (filter (λ n, passesLanguagePolicy allowedKinds n = true) (capNodes resolved)).
End sanitizer_vocabulary.

(** ** [src/components/GraphView.tsx]: the layout helpers

    The arithmetic of JavaScript numbers and the collation behind
    [localeCompare] belong to the engine that runs the code; the layout is
    stated over any interpretation of them. *)

Class JsRuntime (num : Type) : Type := {
  num_of_Z : Z → num;                 (* an integer literal, an index, a length *)
  add : num → num → num;
  sub : num → num → num;
  mul : num → num → num;
  div : num → num → num;
  neg : num → num;
  abs : num → num;                    (* [Math.abs] *)
  hypot : num → num → num;            (* [Math.hypot] *)
  cos : num → num;                    (* [Math.cos] *)
  sin : num → num;                    (* [Math.sin] *)
  PI : num;                           (* [Math.PI] *)
  ltb : num → num → bool;             (* [a < b] *)
  falsy : num → bool;                 (* [0], [-0] and [NaN], for [a || b] *)
  localeCompare : jsstring → jsstring → Z;
}.

Declare Scope js_scope.
Delimit Scope js_scope with js.
Infix "+" := add : js_scope.
Infix "-" := sub : js_scope.
Infix "*" := mul : js_scope.
Infix "/" := div : js_scope.
Notation "- x" := (neg x) : js_scope.
Notation "# z" := (num_of_Z z%Z) (at level 9, format "# z") : js_scope.

(** [xs.sort(cmp)]: the sort is stable, so for a comparator that orders its
    arguments consistently the result is the one of a stable insertion sort. *)
Fixpoint sortInsert {A} (cmp : A → A → Z) (x : A) (l : list A) : list A :=
  match l with
  | [] => [x]
  | y :: l' => if (cmp x y <=? 0)%Z then x :: l else y :: sortInsert cmp x l'
  end.

Definition sortBy {A} (cmp : A → A → Z) (l : list A) : list A :=
  foldr (sortInsert cmp) [] l.

(** What ECMAScript asks of a comparator for [sort] to be well defined, as
    far as the order of the result goes: [cmp a b < 0] exactly when
    [cmp b a > 0], and "not after" is transitive. *)
Record consistentComparator {A} (cmp : A → A → Z) : Prop := {
  cmp_flip : ∀ a b, (cmp a b < 0 ↔ 0 < cmp b a)%Z;
  cmp_trans : ∀ a b c, (cmp a b ≤ 0 → cmp b c ≤ 0 → cmp a c ≤ 0)%Z;
}.

(** The graph the layout works on: the nodes of the Cytoscape core in
    collection order, each with its id, its [depth] datum and its position,
    and the edges with their endpoints. *)
Module Cy.
Section cy.
Context {num : Type}.

Record position : Type := mkPos { pos_x : num; pos_y : num }.

Record node : Type := mkNode {
  node_id : jsstring;
  node_depth : Z;
  node_pos : position;
}.

Record edge : Type := mkEdge { edge_source : jsstring; edge_target : jsstring }.

Record core : Type := mkCore { nodes : list node; edges : list edge }.

(** [cy.getElementById(id)], for the id of a node. *)
Definition getElementById (cy : core) (id : jsstring) : option node :=
  find (λ n, bool_decide (node_id n = id)) (nodes cy).

(** [n.position(p)] for the node with the id [id]. *)
Definition setPosition (id : jsstring) (p : position) (cy : core) : core :=
  mkCore ((λ n, if decide (node_id n = id) then mkNode (node_id n) (node_depth n) p else n)
            <$> nodes cy)
         (edges cy).

(** [focus.incomers("edge")], then the source node of the first of them. *)
Definition firstParent (cy : core) (focusId : jsstring) : option node :=
  match filter (λ e, edge_target e = focusId) (edges cy) with
  | e :: _ => getElementById cy (edge_source e)
  | [] => None
  end.
End cy.
Arguments position : clear implicits.
Arguments node : clear implicits.
Arguments core : clear implicits.
End Cy.

(** The helpers as [GraphView.tsx] has them with the fan sorted by id (the
    same functions are in [src/app/page.tsx]). *)
Module Layout.
Import Cy.
Section layout.
Context {num : Type} `{JsRuntime num}.
Local Open Scope js_scope.

(** [a || b]. *)
Definition orElse (a b : num) : num := if falsy a then b else a.

(** [nodes.forEach((n, i) => n.position(...))] of one ring, from index [i] on. *)
Fixpoint placeRing (radius : num) (count : nat) (ids : list jsstring) (i : nat)
    (cy : core num) : core num :=
  match ids with
  | [] => cy
  | id :: rest =>
      let angle := (#2 * PI * #(Z.of_nat i)) / #(Z.of_nat (Nat.max count 1)) in
      let p := mkPos (#0 + radius * cos angle) (#0 + radius * sin angle) in
      placeRing radius count rest (S i) (setPosition id p cy)
  end.

(** The body of [.forEach(([depth, nodes]) => ...)] for one depth level. *)
Definition placeLevel (cy0 : core num) (cy : core num) (depth : Z) : core num :=
  let members := node_id <$> filter (λ n, node_depth n = depth) (nodes cy0) in
  if decide (depth = 0%Z)
  then foldl (λ c id, setPosition id (mkPos #0 #0) c) cy members
  else
    let radius := #170 * #depth in
    placeRing radius (length members) (sortBy localeCompare members) 0 cy.

(** [computeRingPositions(cy)]: the levels in ascending depth. *)
Definition computeRingPositions (cy : core num) : core num :=
  let depths := sortBy (λ a b : Z, (a - b)%Z) (remove_dups (node_depth <$> nodes cy)) in
  foldl (placeLevel cy) cy depths.

(** The direction of the fan: from the parent to the focus, to the right
    when there is no parent; normalised. *)
Definition forward (cy : core num) (focusId : jsstring) (fp : position num) : num * num :=
  let d :=
    match firstParent cy focusId with
    | Some parent => (pos_x fp - pos_x (node_pos parent), pos_y fp - pos_y (node_pos parent))
    | None => (#1, #0)
    end in
  let len := orElse (hypot d.1 d.2) #1 in
  (d.1 / len, d.2 / len).

(** The flag [ok] after the [forEach] of the collision check for a candidate [(x, y)]. *)
Definition ok (cy : core num) (id : jsstring) (x y : num) : bool :=
  forallb (λ n, bool_decide (node_id n = id)
                || negb (ltb (hypot (pos_x (node_pos n) - x) (pos_y (node_pos n) - y))
                             #62))
          (nodes cy).

(** [for (let k = 0; k < 8; k++) { ...; if (ok) break; x += dx * 40; y += dy * 40; }]. *)
Fixpoint pushForward (k : nat) (cy : core num) (id : jsstring) (dx dy x y : num) : position num :=
  match k with
  | O => mkPos x y
  | S k' =>
      if ok cy id x y then mkPos x y
      else pushForward k' cy id dx dy (x + dx * #40) (y + dy * #40)
  end.

(** The loop over the sorted ids, from index [i] on. The position [fp] of
    the focus is read from the graph as it stands: [focus.position()] hands
    out the node's own position object. *)
Fixpoint placeChildren (focusId : jsstring) (dx dy mid : num) (ids : list jsstring) (i : nat)
    (cy : core num) : core num :=
  match ids with
  | [] => cy
  | id :: rest =>
      match getElementById cy id, getElementById cy focusId with
      | Some _, Some focus =>
          let fp := node_pos focus in
          let px := - dy in
          let py := dx in
          let t := #(Z.of_nat i) - mid in
          let side := t * #70 in
          let fd := #200 + abs t * #28 in
          let x := pos_x fp + dx * fd + px * side in
          let y := pos_y fp + dy * fd + py * side in
          placeChildren focusId dx dy mid rest (S i)
            (setPosition id (pushForward 8 cy id dx dy x y) cy)
      | _, _ => placeChildren focusId dx dy mid rest (S i) cy
      end
  end.

(** [placeChildrenForward(cy, focusId, childIds)]. *)
Definition placeChildrenForward (cy : core num) (focusId : jsstring) (childIds : list jsstring)
    : core num :=
  match getElementById cy focusId with
  | None => cy
  | Some focus =>
      let d := forward cy focusId (node_pos focus) in
      let ids := sortBy localeCompare childIds in
      let mid := (#(Z.of_nat (length ids)) - #1) / #2 in
      placeChildren focusId d.1 d.2 mid ids 0 cy
  end.
End layout.
End Layout.

(** [mergeUniqueElements(prev, incoming)] of the same file: an element is a
    node or an edge (its data has a [source]), and an incoming element is
    appended unless an element of its sort with its id is there already. *)
Module Merge.
Section merge.
Context {D : Type}.

Record element : Type := mkElement {
  el_id : jsstring;
  el_hasSource : bool;               (* ["source" in el.data] *)
  el_data : D;                       (* the rest of [el.data] *)
}.

(** [nodeIds] and [edgeIds] after the loop over [prev]. *)
Definition idsOf (edge : bool) (els : list element) : gset jsstring :=
  list_to_set (el_id <$> filter (λ el, el_hasSource el = edge) els).

(** The loop over [incoming]: the elements pushed on [merged]. *)
Fixpoint pushed (nodeIds edgeIds : gset jsstring) (incoming : list element) : list element :=
  match incoming with
  | [] => []
  | el :: rest =>
      if el_hasSource el then
        if decide (el_id el ∈ edgeIds) then pushed nodeIds edgeIds rest
        else el :: pushed nodeIds ({[el_id el]} ∪ edgeIds) rest
      else
        if decide (el_id el ∈ nodeIds) then pushed nodeIds edgeIds rest
        else el :: pushed ({[el_id el]} ∪ nodeIds) edgeIds rest
  end.

Definition mergeUniqueElements (prev incoming : list element) : list element :=
  prev ++ pushed (idsOf false prev) (idsOf true prev) incoming.
End merge.
Arguments element : clear implicits.
End Merge.

(** [placeChildrenForward] as the variant of [GraphView.tsx] with the pending
    placeholders has it: the children are taken in the order of [childIds]. *)
Module LayoutPending.
Import Cy.
Section layout.
Context {num : Type} `{JsRuntime num}.
Local Open Scope js_scope.

Definition forward (cy : core num) (parentId : jsstring) (p : position num) : num * num :=
  match firstParent cy parentId with
  | Some from =>
      let vx := pos_x p - pos_x (node_pos from) in
      let vy := pos_y p - pos_y (node_pos from) in
      let len := Layout.orElse (hypot vx vy) #1 in
      (vx / len, vy / len)
  | None => (#1, #0)
  end.

(** [childIds.forEach((cid, i) => ...)], from index [i] on. *)
Fixpoint placeChildren (parentId : jsstring) (vx vy : num) (count : nat) (ids : list jsstring)
    (i : nat) (cy : core num) : core num :=
  match ids with
  | [] => cy
  | cid :: rest =>
      match getElementById cy cid, getElementById cy parentId with
      | Some _, Some parent =>
          let p := node_pos parent in
          let t := #(Z.of_nat i) - (#(Z.of_nat count) - #1) / #2 in
          let px := - vy in
          let py := vx in
          placeChildren parentId vx vy count rest (S i)
            (setPosition cid
               (mkPos (pos_x p + vx * #190 + px * #120 * t)
                      (pos_y p + vy * #190 + py * #120 * t))
               cy)
      | _, _ => placeChildren parentId vx vy count rest (S i) cy
      end
  end.

Definition placeChildrenForward (cy : core num) (parentId : jsstring) (childIds : list jsstring)
    : core num :=
  match getElementById cy parentId with
  | None => cy
  | Some parent =>
      let v := forward cy parentId (node_pos parent) in
      placeChildren parentId v.1 v.2 (length childIds) childIds 0 cy
  end.
End layout.
End LayoutPending.

(** ** Vocabulary for the layout's properties *)

Section layout_vocabulary.
Import Cy.
Context {num : Type}.
Implicit Types (cy : core num) (n : node num) (p : position num).

(** The ids and depths of the nodes, in order: what the layout reads of a
    graph besides the positions. *)
Definition skeleton cy : list (jsstring * Z) := (λ n, (node_id n, node_depth n)) <$> nodes cy.

(** A node after [n.position(p)] on the node with the id [id]. *)
Definition moved (id : jsstring) p n : node num :=
  if decide (node_id n = id) then mkNode (node_id n) (node_depth n) p else n.

(** A run of assignments [n.position(p)], by id. *)
Definition assign (ops : list (jsstring * position num)) cy : core num :=
  foldl (λ c op, setPosition op.1 op.2 c) cy ops.

Definition movedBy (ops : list (jsstring * position num)) n : node num :=
  foldl (λ m op, moved op.1 op.2 m) n ops.

(** [keptOutside ids n n']: the node [n'] is the node [n], moved at most, and
    not even moved when its id is not in [ids]. *)
Definition keptOutside (ids : list jsstring) n n' : Prop :=
  node_id n' = node_id n ∧ node_depth n' = node_depth n ∧ (node_id n ∉ ids → n' = n).

End layout_vocabulary.

Section ring_slots.
Import Cy.
Context {num : Type} `{JsRuntime num}.
Local Open Scope js_scope.

(** The assignments of [placeRing]. *)
Fixpoint ringSlots (radius : num) (count : nat) (ids : list jsstring) (i : nat)
    : list (jsstring * position num) :=
  match ids with
  | [] => []
  | id :: rest =>
      let angle := (#2 * PI * #(Z.of_nat i)) / #(Z.of_nat (Nat.max count 1)) in
      (id, mkPos (#0 + radius * cos angle) (#0 + radius * sin angle))
        :: ringSlots radius count rest (S i)
  end.

(** The assignments of one depth level, read off the skeleton of the graph. *)
Definition levelSlots (sk : list (jsstring * Z)) (depth : Z) : list (jsstring * position num) :=
  let members := fst <$> filter (λ m, m.2 = depth) sk in
  if decide (depth = 0%Z) then (λ id, (id, mkPos #0 #0)) <$> members
  else ringSlots (#170 * #depth) (length members) (sortBy localeCompare members) 0.

Definition allSlots (sk : list (jsstring * Z)) : list (jsstring * position num) :=
  mjoin (levelSlots sk <$> sortBy (λ a b : Z, (a - b)%Z) (remove_dups (snd <$> sk))).

End ring_slots.

(** ** Examples *)

Section examples.
Import Expand.
Local Open Scope string_scope.

Definition obj (fields : list (string * json)) : json :=
  JObj ((λ kv, (lit kv.1, kv.2)) <$> fields).
Definition str (s : string) : json := JStr (lit s).

(** The allowed kinds of the perfume domain of [src/domains/registry.ts]. *)
Definition perfumeKinds : list jsstring :=
  lit <$> ["root"; "brand"; "perfume"; "note"; "accord"; "perfumer"; "style"; "category"].

(** The scenario of the specification: two candidates with the same id. *)
Definition betsuNoRei : jsstring := [21029; 12398; 20363].
Definition scenarioKinds : list jsstring := [lit "root"; lit "concept"].
Definition scenarioPayload : json :=
  obj [("nodes", JArr [obj [("id", str "a"); ("label", str "Example"); ("kind", str "unknownkind")];
                       obj [("id", str "a"); ("label", JStr betsuNoRei); ("kind", str "concept")]]);
       ("edges", JArr [])].
Definition scenarioOutput : ExpandResponse :=
  mkResponse
    [mkNode (lit "a") (lit "Example") (lit "concept") 1;
     mkNode (lit "a__1") betsuNoRei (lit "concept") 1]
    [mkEdge (lit "root--a--auto") (lit "root") (lit "a") (Text kanren);
     mkEdge (lit "root--a__1--auto") (lit "root") (lit "a__1") (Text kanren)].

(** Four note candidates in the perfume domain, the first with an English label. *)
Definition noto : jsstring := [12494; 12540; 12488].
Definition fourNotes : json :=
  obj [("nodes", JArr [obj [("id", str "n1"); ("label", str "Citrus"); ("kind", str "note")];
                       obj [("id", str "n2"); ("label", JStr noto); ("kind", str "note")];
                       obj [("id", str "n3"); ("label", JStr noto); ("kind", str "note")];
                       obj [("id", str "n4"); ("label", JStr noto); ("kind", str "note")]])].

(** A node and an edge that the model gave the same id. *)
Definition sameIdPayload : json :=
  obj [("nodes", JArr [obj [("id", str "x"); ("label", JStr noto); ("kind", str "note")]]);
       ("edges", JArr [obj [("id", str "x"); ("source", str "perfume_root"); ("target", str "x");
                            ("label", JStr kanren)]])].

(** A payload with a padded id, an English note, an unknown kind, entries
    that are no candidates, and edges from elsewhere, with a taken id and
    with an array as target. *)
Definition kaori : jsstring := [39321; 12426].
Definition mixedPayload : json :=
  obj [("nodes", JArr [obj [("id", str " dior "); ("label", str "Dior"); ("kind", str "brand")];
                       obj [("id", str "citrus"); ("label", str "Citrus"); ("kind", str "note")];
                       obj [("id", str "x"); ("kind", str "weird"); ("label", JStr kaori)];
                       JNum (lit "5"); JNull; obj [("id", JNum (lit "7"))]; obj [("id", str "   ")]]);
       ("edges", JArr [obj [("source", str "perfume_root"); ("target", str "dior");
                            ("label", str "brand of")];
                       obj [("source", str "other"); ("target", str "x")];
                       obj [("source", str "perfume_root"); ("target", str "x");
                            ("id", str "perfume_root")];
                       obj [("source", str "perfume_root"); ("target", JArr [str "x"])];
                       str "junk"])].

(** Payloads whose [nodes] or [edges] is not an array. *)
Definition nodesNotArray : json := obj [("nodes", str "none")].
Definition edgesNotArray : json := obj [("nodes", JArr []); ("edges", obj [])].
End examples.

(** The arithmetic read over the real numbers

    For the examples: exact arithmetic, with code-unit order for
    [localeCompare]. The values of the examples are small integers and
    halves, on which double-precision arithmetic is exact as well. *)

(** Code-unit order, as a comparator. *)
Fixpoint compareUnits (a b : jsstring) : Z :=
  match a, b with
  | [], [] => 0
  | [], _ :: _ => -1
  | _ :: _, [] => 1
  | x :: a', y :: b' =>
      match (x ?= y)%N with
      | Lt => -1
      | Gt => 1
      | Eq => compareUnits a' b'
      end
  end.

Module RealRuntime.
Import Reals.
Local Open Scope R_scope.

Definition hypotR (x y : R) : R := sqrt (x * x + y * y).
Definition ltbR (x y : R) : bool := if Rlt_dec x y then true else false.
Definition falsyR (x : R) : bool := if Req_dec_T x 0 then true else false.

#[export] Instance real_runtime : JsRuntime R :=
  Build_JsRuntime R IZR Rplus Rminus Rmult Rdiv Ropp Rabs hypotR cos sin PI ltbR falsyR compareUnits.

Import Cy.

(** The root on the centre and the nodes [a] and [b] of depth 1 merged just
    now, [a] at [(5, 5)]. *)
Definition ringBefore : core R :=
  mkCore [mkNode (lit "root") 0 (mkPos 0 0);
          mkNode (lit "a") 1 (mkPos 5 5);
          mkNode (lit "b") 1 (mkPos 0 0)]
         [mkEdge (lit "root") (lit "a"); mkEdge (lit "root") (lit "b")].

(** The root, its child [f] on the first ring, and two children [a] and [b]
    of [f] merged just now. *)
Definition fanBefore : core R :=
  mkCore [mkNode (lit "root") 0 (mkPos 0 0);
          mkNode (lit "f") 1 (mkPos 170 0);
          mkNode (lit "a") 2 (mkPos 0 0);
          mkNode (lit "b") 2 (mkPos 0 0)]
         [mkEdge (lit "root") (lit "f"); mkEdge (lit "f") (lit "a"); mkEdge (lit "f") (lit "b")].
End RealRuntime.

(** ** More vocabulary for the sanitiser: where the output comes from *)

Section sanitizer_provenance.
Import Expand.

(** The id a payload entry stands for: [String(n.id).trim()] of an entry
    that passes [n && typeof n.id === "string"]. *)
Definition entryId (j : json) : option jsstring :=
  if hasStringId j
  then match get j "id" with Some (JStr s) => Some (trim s) | _ => None end
  else None.

(** The ids of the candidates of a payload, in payload order: the entries
    with a string id that is not blank. *)
Definition payloadIds (arr : list json) : list jsstring :=
  filter (λ id, id ≠ []) (omap entryId arr).

(** [derivedFrom j n]: the node [n] is the payload entry [j] after
    normalisation, with one of the ids [makeUniqueId] tries for its id. *)
Definition derivedFrom (focusDepth : float) (allowedKinds : list jsstring) (j : json) (n : Node)
    : Prop :=
  hasStringId j = true ∧
  ∃ m, normalizeNode focusDepth allowedKinds j = Return m ∧ n_id m ≠ [] ∧
       n_label n = n_label m ∧ n_kind n = n_kind m ∧ n_depth n = n_depth m ∧
       ∃ k, n_id n = candidate (n_id m) k.

(** [acceptedFrom focusId j e]: the edge [e] is the payload entry [j], which
    names both endpoints, leaves the focus and enters [e]'s target. *)
Definition acceptedFrom (focusId : jsstring) (j : json) (e : Edge) : Prop :=
  hasEndpoints j = true ∧
  String_ (get j "source") = Return focusId ∧
  String_ (get j "target") = Return (e_target e) ∧
  e_source e = focusId.

(** A label that reads as Japanese text to the sanitiser. *)
Definition japaneseText (l : jslabel) : Prop :=
  ∃ s, l = Text s ∧ hasJapaneseChar s = true.
End sanitizer_provenance.

(** The result for [mixedPayload] in the perfume domain, with the focus
    [perfume_root] at depth 2, and the entries of its [nodes] array. *)
Section more_examples.
Import Expand.
Local Open Scope string_scope.

Definition mixedOutput : ExpandResponse :=
  mkResponse
    [mkNode (lit "dior") (lit "Dior") (lit "brand") 3;
     mkNode (lit "x") kaori (lit "category") 3]
    [mkEdge (lit "perfume_root--dior--0") (lit "perfume_root") (lit "dior")
       (Text [12502; 12521; 12531; 12489]);
     mkEdge (lit "perfume_root__1") (lit "perfume_root") (lit "x") (Text kanren);
     mkEdge (lit "perfume_root--x--2") (lit "perfume_root") (lit "x") (Text kanren)].

Definition mixedEntries : list json :=
  [obj [("id", str " dior "); ("label", str "Dior"); ("kind", str "brand")];
   obj [("id", str "citrus"); ("label", str "Citrus"); ("kind", str "note")];
   obj [("id", str "x"); ("kind", str "weird"); ("label", JStr kaori)];
   JNum (lit "5"); JNull; obj [("id", JNum (lit "7"))]; obj [("id", str "   ")]].
End more_examples.

(** [mergeUniqueElements] as the variant of [GraphView.tsx] with the pending
    placeholders has it: one set [seen] holds the ids of nodes and edges
    alike, and an element without an id is not taken. *)
Module MergePending.
Import Merge.
Section merge.
Context {D : Type}.

(** The loop over [incoming]: the elements pushed on [merged]. *)
Fixpoint pushed (seen : gset jsstring) (incoming : list (element D)) : list (element D) :=
  match incoming with
  | [] => []
  | el :: rest =>
      if decide (el_id el = []) then pushed seen rest
      else if decide (el_id el ∈ seen) then pushed seen rest
      else el :: pushed ({[el_id el]} ∪ seen) rest
  end.

Definition mergeUniqueElements (prev incoming : list (element D)) : list (element D) :=
  prev ++ pushed (list_to_set (el_id <$> prev)) incoming.
End merge.
End MergePending.

(** [incoming] of [expand] in [GraphView.tsx]: the nodes of the payload,
    then its edges, each wrapped as the [data] of an element. The data of a
    node is the node with its label run through [labelWithIcon], the data of
    an edge is the edge; only an edge's data has a [source]. *)
Section client.
Import Expand Merge.
Context {D : Type}.

Definition incomingOf (nodeData : Node → D) (edgeData : Edge → D) (payload : ExpandResponse)
    : list (element D) :=
  ((λ n, mkElement (n_id n) false (nodeData n)) <$> nodes payload)
  ++ ((λ e, mkElement (e_id e) true (edgeData e)) <$> edges payload).

(** The ids of the elements of one sort, in order. *)
Definition idsIn (edge : bool) (els : list (element D)) : list jsstring :=
  el_id <$> filter (λ el, el_hasSource el = edge) els.
End client.

(** The elements of a graph after the root's expansion, and a batch that
    repeats a node of it; the data of the elements plays no part. *)
Section merge_examples.
Import Merge.

Definition shownElements : list (element unit) :=
  [mkElement (lit "root") false (); mkElement (lit "a") false ();
   mkElement (lit "root--a--auto") true ()].

Definition repeatedBatch : list (element unit) :=
  [mkElement (lit "a") false (); mkElement (lit "b") false ();
   mkElement (lit "a--b--auto") true (); mkElement (lit "b") true ()].
End merge_examples.

(** ** More vocabulary for the layout *)

Section push_vocabulary.
Import Cy.
Context {num : Type} `{JsRuntime num}.
Local Open Scope js_scope.

(** The candidate position of the collision loop after [j] pushes of 40
    along the direction [(dx, dy)]. *)
Fixpoint pushedTo (j : nat) (dx dy x y : num) : position num :=
  match j with
  | O => mkPos x y
  | S j' => pushedTo j' dx dy (x + dx * #40) (y + dy * #40)
  end.

(** No node other than [id] is closer than [minSep] to the position [p]. *)
Definition clearOf (cy : core num) (id : jsstring) (p : position num) : Prop :=
  ∀ n, n ∈ nodes cy → node_id n ≠ id →
       ltb (hypot (pos_x (node_pos n) - pos_x p) (pos_y (node_pos n) - pos_y p)) #62 = false.

(** The position the last of the assignments [ops] gives the id [id]. *)
Fixpoint lastSlot (ops : list (jsstring * position num)) (id : jsstring) : option (position num) :=
  match ops with
  | [] => None
  | op :: rest =>
      match lastSlot rest id with
      | Some p => Some p
      | None => if decide (op.1 = id) then Some op.2 else None
      end
  end.
End push_vocabulary.

Section ring_vocabulary.
Import Cy.
Context {num : Type} `{JsRuntime num}.
Local Open Scope js_scope.

(** The graph that the expansion of the root hands to ring placement: the
    batch merged just now around nodes of depth 0, the root. *)
Definition rootAndBatch (batch : list jsstring) (cy : core num) : Prop :=
  ∀ n, n ∈ nodes cy → node_id n ∉ batch → node_depth n = 0%Z.

(** [keptOrCentred ids n n']: the node [n'] is the node [n], moved at most,
    and put on the centre when its id is not in [ids], so left as it is when
    it is on the centre already. *)
Definition keptOrCentred (ids : list jsstring) (n n' : node num) : Prop :=
  node_id n' = node_id n ∧ node_depth n' = node_depth n ∧
  (node_id n ∉ ids →
     node_pos n' = mkPos #0 #0 ∧ (node_pos n = mkPos #0 #0 → n' = n)).
End ring_vocabulary.

(** The graph [ringBefore] with its nodes in another order and at other
    positions. *)
Module RealShuffled.
Import Reals Cy RealRuntime.
Local Open Scope R_scope.

Definition ringShuffled : core R :=
  mkCore [mkNode (lit "root") 0 (mkPos 3 4);
          mkNode (lit "b") 1 (mkPos 7 7);
          mkNode (lit "a") 1 (mkPos 0 0)]
         [mkEdge (lit "root") (lit "a"); mkEdge (lit "root") (lit "b")].
End RealShuffled.

(** ** [handleExpand] of [src/server/expand.ts], with [src/domains/registry.ts]

    The handler is asynchronous: it awaits the body of the request and the
    answer of the completion API. It is embedded as a tree of these
    interactions. The body is read at the type the source declares for it
    ([ExpandRequest]: ids are strings, the depth is a number), with every
    field optional as the guards of the source foresee. *)

Module Handler.
Import Expand.

(** What the server reads of a [DomainSpec]. *)
Record DomainSpec : Type := mkSpec {
  spec_key : jsstring;
  spec_allowedKinds : list jsstring;
}.

Definition wineKinds : list jsstring :=
  lit <$> ["root"; "producer"; "wine"; "region"; "appellation"; "grape"; "vintage"; "style"]%string.

Definition perfumeSpec : DomainSpec := mkSpec (lit "perfume") perfumeKinds.
Definition wineSpec : DomainSpec := mkSpec (lit "wine") wineKinds.

(** The value of [DOMAINS[domain]]: a registered specification, a member
    that the object literal inherits from [Object.prototype] (a truthy value
    without [allowedKinds]), or [undefined]. *)
Inductive looked : Type :=
| Registered (spec : DomainSpec)
| Inherited (name : jsstring)
| Absent.

Definition DOMAINS (domain : jsstring) : looked :=
  if decide (domain = lit "perfume") then Registered perfumeSpec
  else if decide (domain = lit "wine") then Registered wineSpec
  else if bool_decide (domain ∈ objectPrototypeKeys) then Inherited domain
  else Absent.

(** [type ExpandRequest], every field optional. *)
Record ExpandRequest : Type := mkRequest {
  focusNode : option Node;
  existingElementIds : option (list jsstring);
  existingNodeIds : option (list jsstring);
}.

(** What [NextResponse.json] is given. *)
Inductive payload : Type :=
| ErrorBody (error : jsstring) (detail : option jsstring)
| Graph (out : ExpandResponse).

Record response : Type := mkReply { status : Z; body : payload }.

Inductive role : Type := system | user.
Definition messages : Type := list (role * jsstring).

(** An asynchronous computation: it ends with a value, with an exception
    (the promise rejects) or, in the model only, out of fuel; or it awaits
    the body of the request, reads a variable of the environment, or awaits
    [fetch] with the completion request (the answer: [res.ok] and what
    [res.json()] resolves to, [None] where the promise rejects). *)
Inductive io (A : Type) : Type :=
| Ret (a : A)
| Throw
| Fuel
| ReqJson (k : option ExpandRequest → io A)
| Env (name : string) (k : option jsstring → io A)
| Fetch (model : jsstring) (msgs : messages) (k : option (bool * option json) → io A).
Arguments Ret {A} a.
Arguments Throw {A}.
Arguments Fuel {A}.
Arguments ReqJson {A} k.
Arguments Env {A} name k.
Arguments Fetch {A} model msgs k.

Fixpoint io_bind {A B : Type} (t : io A) (k : A → io B) : io B :=
  match t with
  | Ret a => k a
  | Throw => Throw
  | Fuel => Fuel
  | ReqJson c => ReqJson (λ x, io_bind (c x) k)
  | Env name c => Env name (λ x, io_bind (c x) k)
  | Fetch model msgs c => Fetch model msgs (λ x, io_bind (c x) k)
  end.

(** A synchronous call inside the handler: an exception leaves it. *)
Definition lift {A : Type} (o : outcome A) : io A :=
  match o with
  | Return a => Ret a
  | TypeError => Throw
  | OutOfFuel => Fuel
  end.

(** [x?.[0]]. *)
Definition index0 (v : option json) : option json :=
  match v with
  | Some (JArr (x :: _)) => Some x
  | Some (JStr (c :: _)) => Some (JStr [c])
  | Some (JObj fields) => obj_get (lit "0") fields
  | _ => None
  end.

(** [x?.k] on a possibly undefined value. *)
Definition getOpt (v : option json) (k : string) : option json :=
  match v with
  | Some v => get v k
  | None => None
  end.

(** [String(json?.choices?.[0]?.message?.content ?? "")]. *)
Definition contentOf (json : json) : outcome jsstring :=
  String_ (coalesce (getOpt (getOpt (index0 (get json "choices")) "message") "content")
                    (Some (JStr []))).

(** [callOpenAI(messages)]. *)
Definition callOpenAI (msgs : messages) : io jsstring :=
  Env "OPENAI_API_KEY" (λ apiKey,
    match apiKey with
    | None | Some [] => Throw
    | Some _ =>
        Env "OPENAI_MODEL" (λ model,
          Fetch (default (lit "gpt-4o-mini") model) msgs (λ res,
            match res with
            | Some (true, Some json) => lift (contentOf json)
            | _ => Throw
            end))
    end).

Section handleExpand.
(** The text of the two messages, and the engine's [JSON.parse] (a value,
    or [String(e)] of the exception). *)
Variable getSystemPrompt : jsstring → DomainSpec → jsstring.
Variable userPrompt : Node → list jsstring → jsstring.
Variable JSON_parse : jsstring → json + jsstring.

(** The ids the sanitiser is given: [existingElementIds] when it is a
    non-empty array, else [existingNodeIds], else none. *)
Definition idsOfRequest (request : ExpandRequest) : list jsstring :=
  match existingElementIds request with
  | Some (id :: ids) => id :: ids
  | _ => default [] (existingNodeIds request)
  end.

Definition badRequest (message : string) : response :=
  mkReply 400 (ErrorBody (lit message) None).

Definition handleExpand (domain : jsstring) : io response :=
  match DOMAINS domain with
  | Absent => Ret (badRequest "unknown domain")
  | spec =>
      ReqJson (λ request,
        match request with
        | None => Throw
        | Some request =>
            match focusNode request with
            | Some focus =>
                if decide (n_id focus = []) then Ret (badRequest "focusNode is required")
                else
                  let ids := idsOfRequest request in
                  match spec with
                  | Registered spec =>
                      io_bind
                        (callOpenAI [(system, getSystemPrompt domain spec);
                                     (user, userPrompt focus ids)])
                        (λ content,
                           match JSON_parse content with
                           | inr detail =>
                               Ret (mkReply 500
                                      (ErrorBody (lit "invalid json from model") (Some detail)))
                           | inl raw =>
                               io_bind
                                 (lift (sanitizeExpandResult (n_id focus) (n_depth focus) ids
                                          (spec_allowedKinds spec) raw))
                                 (λ sanitized, Ret (mkReply 200 (Graph sanitized)))
                           end)
                  | _ => Throw   (* [spec.allowedKinds.join] in [getSystemPrompt] *)
                  end
            | None => Ret (badRequest "focusNode is required")
            end
        end)
  end.
End handleExpand.

(** The environment of a run: what the awaited promises resolve to. *)
Record world : Type := mkWorld {
  w_request : option ExpandRequest;
  w_env : string → option jsstring;
  w_fetch : jsstring → messages → option (bool * option json);
}.

Inductive event : Type :=
| ReadBody
| ReadEnv (name : string)
| Fetched (model : jsstring) (msgs : messages).

(** How a run ends. *)
Inductive ending (A : Type) : Type :=
| Resolves (a : A)
| Rejects
| Unsettled.
Arguments Resolves {A} a.
Arguments Rejects {A}.
Arguments Unsettled {A}.

(** A run in a world: the interactions in order, and the end. *)
Fixpoint run {A : Type} (w : world) (t : io A) : list event * ending A :=
  match t with
  | Ret a => ([], Resolves a)
  | Throw => ([], Rejects)
  | Fuel => ([], Unsettled)
  | ReqJson k => let r := run w (k (w_request w)) in (ReadBody :: r.1, r.2)
  | Env name k => let r := run w (k (w_env w name)) in (ReadEnv name :: r.1, r.2)
  | Fetch model msgs k =>
      let r := run w (k (w_fetch w model msgs)) in (Fetched model msgs :: r.1, r.2)
  end.

Definition isFetch (e : event) : bool :=
  match e with Fetched _ _ => true | _ => false end.

(** The name of a domain the sanitiser infers. *)
Definition domainName (d : domain) : option jsstring :=
  match d with
  | perfume => Some (lit "perfume")
  | wine => Some (lit "wine")
  | unknown => None
  end.

(** A world for the examples: the perfume root is expanded, the key is set,
    and the completion carries the text [content]. *)
Definition rootFocus : Node := mkNode (lit "perfume_root") [39321; 27700] (lit "root") 0.
Definition rootRequest : ExpandRequest :=
  mkRequest (Some rootFocus) (Some [lit "perfume_root"]) None.

Definition completion (content : jsstring) : json :=
  obj [("choices", JArr [obj [("message", obj [("content", JStr content)])]])]%string.

Definition answering (content : jsstring) : world :=
  mkWorld (Some rootRequest)
          (λ name, if decide (name = "OPENAI_API_KEY"%string) then Some (lit "sk-test") else None)
          (λ _ _, Some (true, Some (completion content))).

(** Stand-ins for the text of the prompts and for [JSON.parse]: a parser
    that reads every content as the payload [raw], and one that rejects
    every content. *)
Definition somePrompt : jsstring → DomainSpec → jsstring := λ _ _, lit "system".
Definition someUserPrompt : Node → list jsstring → jsstring := λ _ _, lit "user".
Definition parsesTo (raw : json) : jsstring → json + jsstring := λ _, inl raw.
Definition parseFails : jsstring → json + jsstring := λ _, inr (lit "SyntaxError").

Definition somePrompts : messages := [(system, lit "system"); (user, lit "user")].

(** The answer to [rootRequest] when the completion is [mixedPayload]. *)
Definition rootReply : response :=
  mkReply 200 (Graph (mkResponse
    [mkNode (lit "dior") (lit "Dior") (lit "brand") 1;
     mkNode (lit "x") kaori (lit "category") 1]
    [mkEdge (lit "perfume_root--dior--0") (lit "perfume_root") (lit "dior")
       (Text [12502; 12521; 12531; 12489]);
     mkEdge (lit "perfume_root__1") (lit "perfume_root") (lit "x") (Text kanren);
     mkEdge (lit "perfume_root--x--2") (lit "perfume_root") (lit "x") (Text kanren)])).

Definition parseErrorReply : response :=
  mkReply 500 (ErrorBody (lit "invalid json from model") (Some (lit "SyntaxError"))).
End Handler.

(** ** The earlier form of [makeUniqueId]

    An earlier revision of [src/server/expand.ts] tests the base first and
    then counts up: [if (!used.has(base)) ...; let i = 1;
    while (used.has(`${base}__${i}`)) i++]. *)

Module ExpandEarlier.
Import Expand.

(** [while (used.has(`${base}__${i}`)) i++], one test of the loop condition
    per unit of fuel. *)
Fixpoint makeUniqueId_loop (fuel : nat) (base : jsstring) (used : gset jsstring) (i : N)
    : outcome N :=
  match fuel with
  | O => OutOfFuel
  | S fuel' =>
      if decide (suffixed base i ∈ used)
      then makeUniqueId_loop fuel' base used (N.succ i)
      else Return i
  end.

Definition makeUniqueId (base : jsstring) (used : gset jsstring)
    : outcome (jsstring * gset jsstring) :=
  if decide (base ∈ used)
  then
    i ← makeUniqueId_loop (size used) base used 1;
    Return (suffixed base i, {[suffixed base i]} ∪ used)
  else Return (base, {[base]} ∪ used).
End ExpandEarlier.

(** ** [computeRingPositions] of the variant with the pending placeholders

    This variant looks for the node of kind [root], and puts the nodes of
    depth 1 on a ring of radius 170 around it and all deeper nodes on a ring
    of radius 320, both in collection order. [kindOf] gives the [kind] datum
    of a node by its id. *)

Module RingPending.
Import Cy.
Section ring.
Context {num : Type} `{JsRuntime num}.
Variable kindOf : jsstring → jsstring.
Local Open Scope js_scope.

(** [cy.nodes("[kind = 'root']").first()]. *)
Definition root (cy : core num) : option (node num) :=
  find (λ n, bool_decide (kindOf (node_id n) = lit "root")) (nodes cy).

(** [nodes.forEach((node, i) => node.position(...))], from index [i] on.
    [rootPos] is the position object of the root: it is read as the graph
    stands. *)
Fixpoint placeOnRing (rootId : jsstring) (radius : num) (n : nat) (ids : list jsstring)
    (i : nat) (cy : core num) : core num :=
  match ids with
  | [] => cy
  | id :: rest =>
      match getElementById cy rootId with
      | Some r =>
          let rootPos := node_pos r in
          let theta := (#2 * PI * #(Z.of_nat i)) / #(Z.of_nat n) in
          placeOnRing rootId radius n rest (S i)
            (setPosition id (mkPos (pos_x rootPos + radius * cos theta)
                                   (pos_y rootPos + radius * sin theta)) cy)
      | None => placeOnRing rootId radius n rest (S i) cy
      end
  end.

Definition computeRingPositions (cy : core num) : core num :=
  match root cy with
  | None => cy
  | Some r =>
      let depth1 := node_id <$> filter (λ n, node_depth n = 1%Z) (nodes cy) in
      let depth2 := node_id <$> filter (λ n, (2 ≤ node_depth n)%Z) (nodes cy) in
      let cy1 := placeOnRing (node_id r) #170 (length depth1) depth1 0 cy in
      placeOnRing (node_id r) #320 (length depth2) depth2 0 cy1
  end.
End ring.
End RingPending.

(** The position of the fan of the variant with the pending placeholders
    for the child at index [i] of [count]: 190 along the direction [v] from
    the position [p] of the parent, and 120 times [i - (count - 1) / 2]
    across it. *)
Section fan_vocabulary.
Import Cy.
Context {num : Type} `{JsRuntime num}.
Local Open Scope js_scope.

Definition fanSlot (p : position num) (v : num * num) (count i : nat) : position num :=
  let t := #(Z.of_nat i) - (#(Z.of_nat count) - #1) / #2 in
  mkPos (pos_x p + v.1 * #190 + (- v.2) * #120 * t)
        (pos_y p + v.2 * #190 + v.1 * #120 * t).
End fan_vocabulary.

(** * Properties *)

(** ** Strings *)

Global Instance N_of_ascii_inj : Inj (=) (=) N_of_ascii.
Proof.
  intros a b Hab. rewrite <- (ascii_N_embedding a), <- (ascii_N_embedding b). by f_equal.
Qed.

Global Instance lit_inj : Inj (=) (=) lit.
Proof.
  intros s1 s2 H. unfold lit in H. apply (inj (fmap N_of_ascii)) in H.
  rewrite <- (string_of_list_ascii_of_string s1), <- (string_of_list_ascii_of_string s2).
  by f_equal.
Qed.

Global Instance dec_inj : Inj (=) (=) dec.
Proof. intros i j H. unfold dec in H. by apply (inj lit), (inj pretty) in H. Qed.

Lemma Forall_sublist {A} (P : A → Prop) (l1 l2 : list A) :
  sublist l1 l2 → Forall P l2 → Forall P l1.
Proof. rewrite !Forall_forall. eauto using elem_of_sublist. Qed.

(** ** The outcome monad *)

Lemma bind_Return {A B} (m : outcome A) (k : A → outcome B) (b : B) :
  m ≫= k = Return b → ∃ a, m = Return a ∧ k a = Return b.
Proof. destruct m; simpl; intros H; try discriminate. eauto. Qed.

(** Inverts a hypothesis [m ≫= k = Return b] (and the equations it yields). *)
Ltac inv_bind H :=
  repeat match type of H with
  | _ ≫= _ = Return _ =>
      let a := fresh "r" in let Ha := fresh "H" a in let H' := fresh in
      apply bind_Return in H; destruct H as (a & Ha & H'); rename H' into H
  | Return _ = Return _ => injection H as H
  end.

Lemma mapM_Return_Forall2 {A B} (f : A → outcome B) xs ys :
  mapM f xs = Return ys → Forall2 (λ x y, f x = Return y) xs ys.
Proof.
  revert ys. induction xs as [|x xs IH]; simpl; intros ys H.
  - injection H as <-. constructor.
  - inv_bind H. subst ys. constructor; auto.
Qed.

Lemma filterM_Return_sublist {A} (p : A → outcome bool) xs ys :
  filterM p xs = Return ys → sublist ys xs ∧ Forall (λ y, p y = Return true) ys.
Proof.
  revert ys. induction xs as [|x xs IH]; simpl; intros ys H.
  - injection H as <-. split; constructor.
  - inv_bind H. destruct (IH _ Hr0) as [Hs Hall]. subst ys. destruct r.
    + split; [by constructor | by constructor].
    + split; [by constructor | done].
Qed.

(** ** [makeUniqueId] *)

Section makeUniqueId_facts.
Import Expand.

Lemma suffixed_inj base : Inj (=) (=) (suffixed base).
Proof.
  intros i j H. unfold suffixed in H.
  by apply (inj (app base)), (inj (app (lit "__"))), (inj dec) in H.
Qed.

Lemma suffixed_ne_base base i : suffixed base i ≠ base.
Proof.
  intros H. apply (f_equal length) in H. unfold suffixed in H.
  rewrite !length_app in H. simpl in H. lia.
Qed.

Lemma candidate_inj base : Inj (=) (=) (candidate base).
Proof.
  intros i j. unfold candidate. repeat case_decide; subst; intros Heq; try done.
  - by apply symmetry, suffixed_ne_base in Heq.
  - by apply suffixed_ne_base in Heq.
  - by apply suffixed_inj in Heq.
Qed.

Lemma candidate_succ base j : suffixed base (N.succ j) = candidate base (N.succ j).
Proof. unfold candidate. case_decide; [lia | done]. Qed.

(** What a run of the loop that ends returns. *)
Lemma makeUniqueId_loop_Return fuel base used j r :
  makeUniqueId_loop fuel base used (candidate base j) (N.succ j) = Return r →
  (r ∉ used) ∧ ∃ k, j ≤ k ∧ r = candidate base k ∧
                   ∀ k', j ≤ k' → k' < k → candidate base k' ∈ used.
Proof.
  revert j. induction fuel as [|fuel IH]; simpl; intros j H; [discriminate|].
  case_decide as Hin.
  - rewrite candidate_succ in H. apply IH in H as (Hr & k & Hk & -> & Hmin).
    split; [done|]. exists k. split; [lia|]. split; [done|].
    intros k' H1 H2. destruct (decide (k' = j)) as [->|]; [done|]. apply Hmin; lia.
  - injection H as <-. split; [done|]. exists j. split; [lia|]. split; [done|]. lia.
Qed.

(** What a run of the loop that exhausts its fuel has seen. *)
Lemma makeUniqueId_loop_OutOfFuel fuel base used j :
  makeUniqueId_loop fuel base used (candidate base j) (N.succ j) = OutOfFuel →
  ∀ k : nat, (k < fuel)%nat → candidate base (j + N.of_nat k) ∈ used.
Proof.
  revert j. induction fuel as [|fuel IH]; simpl; intros j H k Hk; [lia|].
  case_decide as Hin; [|discriminate].
  rewrite candidate_succ in H.
  destruct k as [|k].
  - by rewrite N.add_0_r.
  - replace (j + N.of_nat (S k)) with (N.succ j + N.of_nat k) by lia.
    apply IH; [done | lia].
Qed.

(** The loop ends within [size used + 1] tests: the candidates are pairwise
    distinct, so they cannot all be members of [used]. *)
Lemma makeUniqueId_loop_fuel base used :
  makeUniqueId_loop (S (size used)) base used base 1 ≠ OutOfFuel.
Proof.
  intros H.
  change base with (candidate base 0) in H at 2. change 1 with (N.succ 0) in H.
  pose proof (makeUniqueId_loop_OutOfFuel _ _ _ _ H) as Hall.
  set (l := (λ k : nat, candidate base (0 + N.of_nat k)) <$> seq 0 (S (size used))).
  assert (NoDup l) as Hnd.
  { apply NoDup_fmap_2_strong; [|apply NoDup_seq].
    intros a b _ _ Hab. apply candidate_inj in Hab. lia. }
  assert (list_to_set l ⊆ used) as Hsub.
  { intros x Hx. apply elem_of_list_to_set, list_elem_of_fmap in Hx as (k & -> & Hk).
    apply elem_of_seq in Hk. apply Hall. lia. }
  apply subseteq_size in Hsub. rewrite size_list_to_set in Hsub by done.
  unfold l in Hsub. rewrite length_fmap, length_seq in Hsub. lia.
Qed.

Lemma makeUniqueId_total base used : ∃ r, makeUniqueId base used = Return r.
Proof.
  unfold makeUniqueId.
  destruct (makeUniqueId_loop (S (size used)) base used base 1) as [id| |] eqn:H.
  - eexists. reflexivity.
  - exfalso. revert H. generalize (S (size used)), base at 2, 1.
    intros fuel. induction fuel as [|fuel IH]; simpl; intros id i H; [discriminate|].
    case_decide; [eauto | discriminate].
  - by apply makeUniqueId_loop_fuel in H.
Qed.

Lemma makeUniqueId_Return base used r :
  makeUniqueId base used = Return r →
  (r.1 ∉ used) ∧ r.2 = {[r.1]} ∪ used ∧ ∃ k, r.1 = candidate base k.
Proof.
  unfold makeUniqueId. intros H. inv_bind H. subst r. simpl.
  change base with (candidate base 0) in Hr0 at 2. change 1 with (N.succ 0) in Hr0.
  apply makeUniqueId_loop_Return in Hr0 as (Hr & k & _ & -> & _). eauto.
Qed.

(** A base that is not taken is returned as it is. *)
Lemma makeUniqueId_fresh base used :
  base ∉ used → makeUniqueId base used = Return (base, {[base]} ∪ used).
Proof. intros H. unfold makeUniqueId. simpl. by rewrite decide_False. Qed.


Lemma fresh_ids_nil used : fresh_ids used [] used.
Proof. split; [constructor|]. split; [by intros x ?%elem_of_nil|]. set_solver. Qed.

Lemma fresh_ids_cons base used r ids used' :
  makeUniqueId base used = Return r →
  fresh_ids r.2 ids used' →
  fresh_ids used (r.1 :: ids) used'.
Proof.
  intros (Hr & Hr2 & _)%makeUniqueId_Return (Hnd & Hnew & ->). rewrite Hr2 in *.
  split; [|split].
  - constructor; [|done]. intros Hin. apply Hnew in Hin. set_solver.
  - intros x [->|Hx]%elem_of_cons; [done|]. apply Hnew in Hx. set_solver.
  - set_solver.
Qed.

Lemma fresh_ids_app used ids1 used1 ids2 used2 :
  fresh_ids used ids1 used1 → fresh_ids used1 ids2 used2 →
  fresh_ids used (ids1 ++ ids2) used2.
Proof.
  intros (Hnd1 & Hnew1 & ->) (Hnd2 & Hnew2 & ->). split; [|split].
  - apply NoDup_app. split; [done|]. split; [|done].
    intros x Hx1 Hx2. apply Hnew2 in Hx2. set_solver.
  - intros x [Hx|Hx]%elem_of_app; [by apply Hnew1|]. apply Hnew2 in Hx. set_solver.
  - set_solver.
Qed.

(** ** The node pipeline *)

Section node_pipeline.
Variables (focusId : jsstring) (focusDepth : float).
Variables (existingElementIds allowedKinds : list jsstring).

Lemma normalizeNode_depth j n :
  normalizeNode focusDepth allowedKinds j = Return n → n_depth n = (focusDepth + 1)%float.
Proof. unfold normalizeNode. intros H. inv_bind H. by subst n. Qed.

(** Id resolution renames: it keeps every candidate, in order, with its
    label, kind and depth, and gives it one of the ids [makeUniqueId] tries. *)
Lemma uniquifyNodes_Return ns used r :
  uniquifyNodes ns used = Return r →
  fresh_ids used (n_id <$> r.1) r.2 ∧
  Forall2 (λ n n', n_label n' = n_label n ∧ n_kind n' = n_kind n ∧ n_depth n' = n_depth n
                   ∧ ∃ k, n_id n' = candidate (n_id n) k) ns r.1.
Proof.
  revert used r. induction ns as [|n ns IH]; simpl; intros used r H.
  - injection H as <-. split; [apply fresh_ids_nil | constructor].
  - inv_bind H. subst r. simpl. destruct (IH _ _ Hr1) as [Hfresh Hall]. split.
    + by eapply fresh_ids_cons.
    + constructor; [|done]. simpl. apply makeUniqueId_Return in Hr0 as (_ & _ & Hk). done.
Qed.

Lemma uniquifyNodes_total ns used : ∃ r, uniquifyNodes ns used = Return r.
Proof.
  revert used. induction ns as [|n ns IH]; intros used; [by eexists|].
  cbn [uniquifyNodes]. destruct (makeUniqueId_total (n_id n) used) as [r ->].
  destruct (IH r.2) as [rs Hrs]. cbn [mbind outcome_bind bind]. rewrite Hrs. by eexists.
Qed.

Lemma capNodes_take ns : capNodes ns = take 3 ns.
Proof.
  unfold capNodes. case_match eqn:Hlen; [done|].
  apply Nat.ltb_ge in Hlen. by rewrite take_ge.
Qed.

Lemma candidate_nonempty base k : base ≠ [] → candidate base k ≠ [].
Proof.
  intros Hbase. unfold candidate, suffixed. case_decide; [done|].
  intros Hnil. by apply app_eq_nil in Hnil as [? _].
Qed.

(** What [resolvedNodes] returns: distinct non-empty ids outside the
    existing ones, every node at depth [focusDepth + 1]. *)
Lemma resolvedNodes_Return raw resolved :
  resolvedNodes focusDepth existingElementIds allowedKinds raw = Return resolved →
  NoDup (n_id <$> resolved) ∧
  (∀ x, x ∈ n_id <$> resolved → x ∉ existingElementIds) ∧
  Forall (λ n, n_depth n = (focusDepth + 1)%float) resolved ∧
  Forall (λ n, n_id n ≠ []) resolved.
Proof.
  unfold resolvedNodes. intros H. inv_bind H. subst resolved.
  apply uniquifyNodes_Return in Hr1 as [(Hnd & Hnew & _) Hall].
  split; [done|]. split; [|split].
  - intros x Hx Hex. apply (Hnew x Hx). by apply elem_of_list_to_set.
  - apply mapM_Return_Forall2 in Hr0.
    assert (Forall (λ n, n_depth n = (focusDepth + 1)%float) r0) as Hd.
    { clear -Hr0. induction Hr0; constructor; eauto using normalizeNode_depth. }
    eapply Forall_sublist in Hd; [|apply (sublist_filter (λ n, n_id n ≠ []))]. revert Hd Hall.
    generalize (filter (λ n : Node, n_id n ≠ []) r0), (r1.1). clear.
    intros l l' Hd Hall. induction Hall as [|n n' l l' (_ & _ & Hdep & _) _ IH]; [constructor|].
    inv Hd. constructor; [congruence | auto].
  - assert (Forall (λ n, n_id n ≠ []) (filter (λ n : Node, n_id n ≠ []) r0)) as Hne.
    { apply Forall_forall. by intros n [Hn _]%list_elem_of_filter. }
    revert Hne Hall. generalize (filter (λ n : Node, n_id n ≠ []) r0), (r1.1). clear.
    intros l l' Hne Hall. induction Hall as [|n n' l l' (_ & _ & _ & k & Hk) _ IH]; [constructor|].
    inv Hne. constructor; [|auto]. rewrite Hk. by apply candidate_nonempty.
Qed.

Lemma sanitizedNodes_Return raw ns :
  sanitizedNodes focusDepth existingElementIds allowedKinds raw = Return ns →
  ∃ resolved,
    resolvedNodes focusDepth existingElementIds allowedKinds raw = Return resolved ∧
    ns = take 3 (filter (λ n, passesLanguagePolicy allowedKinds n = true) resolved).
Proof.
  unfold sanitizedNodes. intros H. inv_bind H. subst ns. rewrite capNodes_take. eauto.
Qed.
End node_pipeline.

(** ** The edge pipeline *)

Section edge_pipeline.
Variables (focusId : jsstring) (focusDepth : float).
Variables (existingElementIds allowedKinds : list jsstring).

Lemma mapEdges_Return ns es i used r :
  mapEdges focusId allowedKinds ns es i used = Return r →
  fresh_ids used (e_id <$> r.1) r.2 ∧
  Forall (λ e, e_source e = focusId) r.1 ∧
  Forall2 (λ j e, String_ (get j "target") = Return (e_target e)) es r.1.
Proof.
  revert i used r. induction es as [|j es IH]; simpl; intros i used r H.
  - injection H as <-. split; [apply fresh_ids_nil|]. split; constructor.
  - inv_bind H. subst r. simpl. destruct (IH _ _ _ Hr4) as (Hfresh & Hsrc & Htgt).
    split; [by eapply fresh_ids_cons|]. split; by constructor.
Qed.

Lemma targets_among (S : gset jsstring) js es :
  Forall2 (λ j e, String_ (get j "target") = Return (e_target e)) js es →
  Forall (λ j, (t ← String_ (get j "target"); Return (bool_decide (t ∈ S))) = Return true) js →
  Forall (λ e, e_target e ∈ S) es.
Proof.
  induction 1 as [|j e js es Hj _ IH]; intros Hin; [constructor|].
  inv Hin. constructor; [|auto].
  match goal with H : _ ≫= _ = Return true |- _ => rewrite Hj in H; injection H as Hb end.
  by apply bool_decide_eq_true in Hb.
Qed.

Lemma edgesFromModel_Return ns raw r :
  edgesFromModel focusId existingElementIds allowedKinds ns raw = Return r →
  fresh_ids (list_to_set existingElementIds) (e_id <$> r.1) r.2 ∧
  Forall (λ e, e_source e = focusId ∧ e_target e ∈ n_id <$> ns) r.1.
Proof.
  unfold edgesFromModel. intros H. inv_bind H.
  apply mapEdges_Return in H as (Hfresh & Hsrc & Htgt). split; [done|].
  apply filterM_Return_sublist in Hr2 as [_ Hin].
  pose proof (targets_among _ _ _ Htgt Hin) as Hall.
  rewrite Forall_forall in *. intros e He. split; [auto|].
  specialize (Hall e He). by apply elem_of_list_to_set in Hall.
Qed.

Lemma supplement_Return edgeTargets ns used r :
  supplement focusId allowedKinds edgeTargets ns used = Return r →
  fresh_ids used (e_id <$> r.1) r.2 ∧
  Forall (λ e, ∃ n, n ∈ ns ∧ synthesized focusId allowedKinds n e) r.1 ∧
  ∀ n, n ∈ ns → n_id n ∉ edgeTargets → ∃ e, e ∈ r.1 ∧ synthesized focusId allowedKinds n e.
Proof.
  revert used r. induction ns as [|n ns IH]; simpl; intros used r H.
  - injection H as <-. split; [apply fresh_ids_nil|]. split; [constructor|].
    by intros n ?%elem_of_nil.
  - case_decide as Hin.
    + destruct (IH _ _ H) as (Hfresh & Hall & Hex). split; [done|]. split.
      * eapply Forall_impl; [done|]. intros e (m & Hm & He). exists m. split; [by right | done].
      * intros m [->|Hm]%elem_of_cons Hnot; [done | auto].
    + inv_bind H. subst r. simpl. destruct (IH _ _ Hr1) as (Hfresh & Hall & Hex).
      assert (synthesized focusId allowedKinds n (mkEdge r0.1 focusId (n_id n)
                (edgeLabelJa (domainGuess allowedKinds) (n_kind n)))) as Hsyn.
      { repeat split. simpl. by apply makeUniqueId_Return in Hr0 as (_ & _ & Hk). }
      split; [by eapply fresh_ids_cons|]. split.
      * constructor; [exists n; split; [by left | done]|].
        eapply Forall_impl; [done|]. intros e (m & Hm & He). exists m. split; [by right | done].
      * intros m [->|Hm]%elem_of_cons Hnot.
        -- eexists. split; [by left | done].
        -- destruct (Hex m Hm Hnot) as (e & He & Hs). exists e. split; [by right | done].
Qed.

Lemma supplement_total edgeTargets ns used :
  ∃ r, supplement focusId allowedKinds edgeTargets ns used = Return r.
Proof.
  revert used. induction ns as [|n ns IH]; intros used; [by eexists|].
  cbn [supplement]. case_decide; [done|].
  destruct (makeUniqueId_total (autoBase focusId (n_id n)) used) as [r Hr].
  unfold autoBase in Hr. rewrite Hr. destruct (IH r.2) as [rs Hrs].
  cbn [mbind outcome_bind bind]. rewrite Hrs. by eexists.
Qed.

(** The final guard adds nothing when there is an edge or no node. *)
Lemma forceEdge_id ns es used : (ns = [] ∨ es ≠ []) → forceEdge focusId allowedKinds ns es used = Return es.
Proof. unfold forceEdge. intros [->|Hes]; [done|]. by destruct ns, es. Qed.

(** The stages of a call of [sanitizeExpandResult] that returns. *)
Lemma sanitizeExpandResult_Return raw out :
  sanitizeExpandResult focusId focusDepth existingElementIds allowedKinds raw = Return out →
  ∃ resolved model suppl,
    resolvedNodes focusDepth existingElementIds allowedKinds raw = Return resolved ∧
    nodes out = take 3 (filter (λ n, passesLanguagePolicy allowedKinds n = true) resolved) ∧
    edgesFromModel focusId existingElementIds allowedKinds (nodes out) raw = Return model ∧
    supplement focusId allowedKinds (list_to_set (e_target <$> model.1)) (nodes out) model.2
      = Return suppl ∧
    edges out = model.1 ++ suppl.1.
Proof.
  unfold sanitizeExpandResult. intros H. inv_bind H. subst out. simpl.
  apply sanitizedNodes_Return in Hr as (resolved & Hres & ->).
  exists resolved, r0, r1. repeat split; [done..|].
  rewrite forceEdge_id in Hr2; [by injection Hr2|].
  destruct (take 3 _) as [|n ns] eqn:Hns; [by left | right].
  apply supplement_Return in Hr1 as (_ & _ & Hex).
  destruct (decide (n_id n ∈ (list_to_set (e_target <$> r0.1) : gset jsstring))) as [Hin|Hnot].
  - apply elem_of_list_to_set in Hin. destruct (r0.1); [by apply elem_of_nil in Hin | done].
  - destruct (Hex n) as (e & He & _); [by left | done |].
    intros Heq. apply app_eq_nil in Heq as [_ Heq]. rewrite Heq in He. by apply elem_of_nil in He.
Qed.
End edge_pipeline.

End makeUniqueId_facts.

(** ** The sanitiser returns or throws, and returns on plain payloads *)

Section totality.
Import Expand.

Lemma settled_bind {A B} (m : outcome A) (k : A → outcome B) :
  settled m → (∀ a, m = Return a → settled (k a)) → settled (m ≫= k).
Proof. destruct m; simpl; unfold settled; intros Hm Hk; [by apply Hk | done | done]. Qed.

Lemma settled_mapM {A B} (f : A → outcome B) xs :
  (∀ x, settled (f x)) → settled (mapM f xs).
Proof.
  intros Hf. induction xs as [|x xs IH]; simpl; [done|].
  apply settled_bind; [done|]. intros y _. apply settled_bind; [done|]. done.
Qed.

Lemma settled_filterM {A} (p : A → outcome bool) xs :
  (∀ x, settled (p x)) → settled (filterM p xs).
Proof.
  intros Hp. induction xs as [|x xs IH]; simpl; [done|].
  apply settled_bind; [done|]. intros b _. apply settled_bind; [done|]. done.
Qed.

Lemma toStr_settled v : settled (toStr v).
Proof.
  induction v as [| [] | | |xs IH|fields _] using json_nested_ind; simpl; try done.
  - apply settled_bind; [|done].
    induction IH as [|x rest Hx _ IHrest]; [done|].
    apply settled_bind; [by destruct x|]. intros p _. apply settled_bind; [done|]. done.
  - by destruct (obj_get _ _).
Qed.

Lemma String_settled v : settled (String_ v).
Proof. destruct v; [apply toStr_settled | done]. Qed.

Lemma makeUniqueId_settled base used : settled (makeUniqueId base used).
Proof. destruct (makeUniqueId_total base used) as [r ->]. done. Qed.

Lemma arrayOrEmpty_settled v : settled (arrayOrEmpty v).
Proof. unfold arrayOrEmpty. by repeat case_match. Qed.

Create HintDb settled.
Hint Resolve String_settled makeUniqueId_settled arrayOrEmpty_settled : settled.

Ltac settle :=
  repeat first
    [ solve [auto with settled]
    | done
    | apply settled_mapM; intros ?
    | apply settled_filterM; intros ?
    | apply settled_bind; [|intros ? _] ].

Lemma uniquifyNodes_settled ns used : settled (uniquifyNodes ns used).
Proof. destruct (uniquifyNodes_total ns used) as [r ->]. done. Qed.

Lemma mapEdges_settled focusId allowedKinds ns es i used :
  settled (mapEdges focusId allowedKinds ns es i used).
Proof.
  revert i used. induction es as [|e es IH]; intros i used; cbn [mapEdges]; [done|]. settle.
Qed.

Lemma supplement_settled focusId allowedKinds targets ns used :
  settled (supplement focusId allowedKinds targets ns used).
Proof. destruct (supplement_total focusId allowedKinds targets ns used) as [r ->]. done. Qed.

Hint Resolve uniquifyNodes_settled mapEdges_settled supplement_settled : settled.

(** The fuel of the model is never what ends a call of the sanitiser: it
    returns a result or throws a [TypeError]. *)
Lemma sanitizeExpandResult_settled focusId focusDepth existingElementIds allowedKinds raw :
  settled (sanitizeExpandResult focusId focusDepth existingElementIds allowedKinds raw).
Proof.
  unfold sanitizeExpandResult, sanitizedNodes, resolvedNodes, edgesFromModel, normalizeNode,
    forceEdge.
  settle. repeat case_match; settle.
Qed.
End totality.

Section returns_on_plain.
Import Expand.

Lemma returns_bind {A B} (m : outcome A) (k : A → outcome B) :
  returns m → (∀ a, m = Return a → returns (k a)) → returns (m ≫= k).
Proof. intros [a ->] Hk. simpl. by apply Hk. Qed.

Lemma returns_mapM {A B} (f : A → outcome B) xs :
  Forall (λ x, returns (f x)) xs → returns (mapM f xs).
Proof.
  induction 1 as [|x xs Hx _ IH]; simpl; [by eexists|].
  apply returns_bind; [done|]. intros y _. apply returns_bind; [done|]. intros ys _. by eexists.
Qed.

Lemma returns_filterM {A} (p : A → outcome bool) xs :
  Forall (λ x, returns (p x)) xs → returns (filterM p xs).
Proof.
  induction 1 as [|x xs Hx _ IH]; simpl; [by eexists|].
  apply returns_bind; [done|]. intros b _. apply returns_bind; [done|]. intros ys _. by eexists.
Qed.

Lemma plain_elements xs : plain (JArr xs) = true → Forall (λ x, plain x = true) xs.
Proof.
  simpl. induction xs as [|x xs IH]; simpl; [constructor|].
  intros [Hx Hxs]%andb_true_iff. constructor; auto.
Qed.

Lemma toStr_plain v : plain v = true → returns (toStr v).
Proof.
  induction v as [| [] | | |xs IH|fields _] using json_nested_ind; intros Hv;
    try (by eexists).
  - cbn [toStr]. apply returns_bind; [|intros parts _; by eexists].
    apply plain_elements in Hv.
    induction IH as [|x rest Hx _ IHrest]; [by eexists|]. inv Hv.
    apply returns_bind; [destruct x; auto; by eexists|]. intros p _.
    apply returns_bind; [auto|]. intros ps _. by eexists.
  - simpl in *. apply andb_true_iff in Hv as [Hkey _].
    destruct (obj_get _ _); [done | by eexists].
Qed.

Lemma obj_get_plain k fields x :
  forallb (λ kv, plain kv.2) fields = true → obj_get k fields = Some x → plain x = true.
Proof.
  induction fields as [|[k' v] fields IH]; simpl; [done|].
  intros [Hv Hrest]%andb_true_iff. destruct (obj_get k fields) as [x'|].
  - intros [= ->]. auto.
  - case_decide; [|done]. by intros [= ->].
Qed.

Lemma get_plain v k x : plain v = true → get v k = Some x → plain x = true.
Proof.
  destruct v; simpl; try done. intros [_ Hfields]%andb_true_iff. by apply obj_get_plain.
Qed.

Lemma String_get_plain v k : plain v = true → returns (String_ (get v k)).
Proof.
  intros Hv. destruct (get v k) as [x|] eqn:Hx; simpl; [|by eexists].
  eapply toStr_plain, get_plain; done.
Qed.

Lemma String_coalesce_plain v k d :
  plain v = true → returns (String_ d) → returns (String_ (coalesce (get v k) d)).
Proof.
  intros Hv Hd. unfold coalesce. case_match; [done|]. by apply String_get_plain.
Qed.

Lemma normalizeNode_plain focusDepth allowedKinds n :
  plain n = true → returns (normalizeNode focusDepth allowedKinds n).
Proof.
  intros Hn. unfold normalizeNode.
  apply returns_bind; [by apply String_get_plain|]. intros id _.
  apply returns_bind; [apply String_coalesce_plain; [done | by apply String_get_plain]|].
  intros label _. apply returns_bind; [by apply String_get_plain|]. intros k _. by eexists.
Qed.

Lemma mapEdges_plain focusId allowedKinds ns es i used :
  Forall (λ e, plain e = true) es → returns (mapEdges focusId allowedKinds ns es i used).
Proof.
  intros Hes. revert i used. induction Hes as [|e es He _ IH]; intros i used; cbn [mapEdges].
  { by eexists. }
  apply returns_bind; [by apply String_get_plain|]. intros target _.
  apply returns_bind; [apply String_coalesce_plain; [done | by eexists]|]. intros base _.
  apply returns_bind; [apply makeUniqueId_total|]. intros r _.
  apply returns_bind; [apply String_coalesce_plain; [done | by eexists]|]. intros label _.
  apply returns_bind; [apply IH|]. intros rs _. by eexists.
Qed.

Lemma arrayOrEmpty_plain raw k :
  plain raw = true → arrayish (get raw k) = true →
  ∃ xs, arrayOrEmpty (get raw k) = Return xs ∧ Forall (λ x, plain x = true) xs.
Proof.
  unfold arrayish, arrayOrEmpty, coalesce. intros Hraw Harr.
  destruct (get raw k) as [v|] eqn:Hget; simpl in *.
  - destruct v; try done; simpl in *.
    + eexists. split; [done | constructor].
    + eexists. split; [done|]. eapply plain_elements, get_plain; done.
  - eexists. split; [done | constructor].
Qed.

Lemma sanitizeExpandResult_returns focusId focusDepth existingElementIds allowedKinds raw :
  wellShaped raw = true →
  returns (sanitizeExpandResult focusId focusDepth existingElementIds allowedKinds raw).
Proof.
  unfold wellShaped. intros [[Hraw Hnodes]%andb_true_iff Hedges]%andb_true_iff.
  destruct (arrayOrEmpty_plain raw "nodes" Hraw Hnodes) as (ns & Hns & Hplain_ns).
  destruct (arrayOrEmpty_plain raw "edges" Hraw Hedges) as (es & Hes & Hplain_es).
  unfold sanitizeExpandResult, sanitizedNodes, resolvedNodes, edgesFromModel.
  rewrite Hns, Hes. cbn [mbind outcome_bind bind].
  repeat (apply returns_bind; [|intros ? ?]); try (by eexists).
  - apply returns_mapM. eapply Forall_sublist; [apply sublist_filter|].
    eapply Forall_impl; [done|]. apply normalizeNode_plain.
  - apply uniquifyNodes_total.
  - apply returns_filterM. eapply Forall_sublist; [apply sublist_filter|].
    eapply Forall_impl; [done|]. intros e He.
    apply returns_bind; [by apply String_get_plain|]. intros s _. by eexists.
  - apply returns_filterM.
    match goal with Hr : filterM _ _ = Return ?l |- Forall _ ?l =>
      apply filterM_Return_sublist in Hr as [Hsub _] end.
    eapply Forall_sublist; [exact Hsub|]. eapply Forall_sublist; [apply sublist_filter|].
    eapply Forall_impl; [done|]. intros e He.
    apply returns_bind; [by apply String_get_plain|]. intros s _. by eexists.
  - apply mapEdges_plain.
    repeat match goal with Hr : filterM _ _ = Return _ |- _ =>
      apply filterM_Return_sublist in Hr as [? _] end.
    eapply Forall_sublist; [done|]. eapply Forall_sublist; [done|].
    eapply Forall_sublist; [apply sublist_filter | done].
  - apply supplement_total.
  - unfold forceEdge. repeat case_match; try (by eexists).
    apply returns_bind; [apply makeUniqueId_total|]. intros r _. by eexists.
Qed.
End returns_on_plain.

(** * The sanitiser's contract *)

Section sanitizer_contract.
Import Expand.

Lemma NoDup_fmap_eq {A B} (f : A → B) (l : list A) (x y : A) :
  NoDup (f <$> l) → x ∈ l → y ∈ l → f x = f y → x = y.
Proof.
  induction l as [|a l IH]; simpl; intros Hnd Hx Hy Heq; [by apply elem_of_nil in Hx|].
  apply NoDup_cons in Hnd as [Ha Hnd].
  apply elem_of_cons in Hx as [->|Hx]; apply elem_of_cons in Hy as [->|Hy]; auto.
  - exfalso. apply Ha. rewrite Heq. by apply list_elem_of_fmap_2.
  - exfalso. apply Ha. rewrite <- Heq. by apply list_elem_of_fmap_2.
Qed.

Example makeUniqueId_taken :
  makeUniqueId (lit "a") {[lit "a"; lit "a__1"; lit "b"]}
  = Return (lit "a__2", {[lit "a__2"]} ∪ {[lit "a"; lit "a__1"; lit "b"]}).
Proof. vm_compute. reflexivity. Qed.

Example trim_both_ends : trim (lit "  a b  ") = lit "a b".
Proof. reflexivity. Qed.

Example String_of_array :
  toStr (JArr [JNum (lit "1"); JNull; JArr [str "a"; JBool true]; obj []])
  = Return (lit "1,,a,true,[object Object]").
Proof. reflexivity. Qed.

(** Ids are trimmed, an unknown kind becomes the last allowed kind, the
    English note is dropped; of the edges the one from elsewhere is dropped,
    an English label gives way to the label of the target's kind, a taken id
    gets a suffix, and the index of an edge counts the kept edges. *)
Example sanitize_mixed :
  sanitizeExpandResult (lit "perfume_root") 2 [lit "perfume_root"] perfumeKinds mixedPayload
  = Return (mkResponse
      [mkNode (lit "dior") (lit "Dior") (lit "brand") 3;
       mkNode (lit "x") kaori (lit "category") 3]
      [mkEdge (lit "perfume_root--dior--0") (lit "perfume_root") (lit "dior")
         (Text [12502; 12521; 12531; 12489]);
       mkEdge (lit "perfume_root__1") (lit "perfume_root") (lit "x") (Text kanren);
       mkEdge (lit "perfume_root--x--2") (lit "perfume_root") (lit "x") (Text kanren)]).
Proof. vm_compute. reflexivity. Qed.

(** The specification's scenario, evaluated. *)
Lemma scenario_run :
  sanitizeExpandResult (lit "root") 0 [lit "root"] scenarioKinds scenarioPayload
  = Return scenarioOutput.
Proof. vm_compute. reflexivity. Qed.

(** C1, at a payload the model can answer with: when [nodes] (or [edges]) is
    present but not an array, [sanitizeExpandResult] raises a [TypeError]
    instead of returning a result. *)
Theorem sanitize_throws_on_non_array :
  sanitizeExpandResult (lit "perfume_root") 0 [lit "perfume_root"] perfumeKinds nodesNotArray
    = TypeError ∧
  sanitizeExpandResult (lit "perfume_root") 0 [lit "perfume_root"] perfumeKinds edgesNotArray
    = TypeError.
Proof. split; vm_compute; reflexivity. Qed.

(** C2: when the sanitiser returns, a non-empty node list comes with a
    non-empty edge list, every node is the target of an edge, and every node
    that no model edge targets has a synthesised edge from the focus, with an
    id grown from [focus--node--auto] and the label its kind selects. *)
Theorem sanitize_connectivity focusId focusDepth existingElementIds allowedKinds raw out :
  sanitizeExpandResult focusId focusDepth existingElementIds allowedKinds raw = Return out →
  (nodes out ≠ [] → edges out ≠ []) ∧
  (∀ n, n ∈ nodes out → ∃ e, e ∈ edges out ∧ e_target e = n_id n) ∧
  ∃ model,
    edgesFromModel focusId existingElementIds allowedKinds (nodes out) raw = Return model ∧
    ∀ n, n ∈ nodes out → n_id n ∉ e_target <$> model.1 →
      ∃ e, e ∈ edges out ∧ synthesized focusId allowedKinds n e.
Proof.
  intros (resolved & model & suppl & _ & _ & Hmodel & Hsuppl & Hedges)%sanitizeExpandResult_Return.
  apply supplement_Return in Hsuppl as (_ & _ & Hex).
  assert (∀ n, n ∈ nodes out → ∃ e, e ∈ edges out ∧ e_target e = n_id n) as Hconn.
  { intros n Hn. rewrite Hedges.
    destruct (decide (n_id n ∈ e_target <$> model.1)) as [Hin|Hnot].
    - apply list_elem_of_fmap in Hin as (e & He & Hin). exists e. split; [|done].
      apply elem_of_app. by left.
    - destruct (Hex n Hn) as (e & He & _ & Ht & _); [by rewrite elem_of_list_to_set|].
      exists e. split; [|done]. apply elem_of_app. by right. }
  split; [|split; [done|]].
  - intros Hne Hnil. destruct (nodes out) as [|n ns] eqn:Hns; [done|].
    destruct (Hconn n) as (e & He & _); [by left|]. rewrite Hnil in He. by apply elem_of_nil in He.
  - exists model. split; [done|]. intros n Hn Hnot.
    destruct (Hex n Hn) as (e & He & Hsyn); [by rewrite elem_of_list_to_set|].
    exists e. split; [|done]. rewrite Hedges. apply elem_of_app. by right.
Qed.

Lemma sanitize_connectivity_witness :
  sanitizeExpandResult (lit "root") 0 [lit "root"] scenarioKinds scenarioPayload
    = Return scenarioOutput ∧
  ((nodes scenarioOutput ≠ [] → edges scenarioOutput ≠ []) ∧
  (∀ n, n ∈ nodes scenarioOutput → ∃ e, e ∈ edges scenarioOutput ∧ e_target e = n_id n) ∧
  ∃ model,
    edgesFromModel (lit "root") [lit "root"] scenarioKinds (nodes scenarioOutput) scenarioPayload
      = Return model ∧
    ∀ n, n ∈ nodes scenarioOutput → n_id n ∉ e_target <$> model.1 →
      ∃ e, e ∈ edges scenarioOutput ∧ synthesized (lit "root") scenarioKinds n e).
Proof.
  split; [exact scenario_run|].
  exact (sanitize_connectivity (lit "root") 0 [lit "root"] scenarioKinds scenarioPayload
           scenarioOutput scenario_run).
Defined.

(** C3, at a payload the model can answer with: the node ids are resolved
    against [usedNodeIds] and the edge ids against [usedEdgeIds], two sets
    seeded alike, so an output edge can carry the id of an output node. *)
Theorem sanitize_node_edge_id_collision :
  ∃ out n e,
    sanitizeExpandResult (lit "perfume_root") 0 [lit "perfume_root"] perfumeKinds sameIdPayload
      = Return out ∧
    n ∈ nodes out ∧ e ∈ edges out ∧ n_id n = e_id e.
Proof.
  eexists _, _, _. split; [vm_compute; reflexivity|]. simpl.
  split; [by left|]. split; [by left | reflexivity].
Qed.

(** C4: when the sanitiser returns, every edge leaves the focus and enters a
    node of the same output; its target is no existing element id, not the
    empty id, and no id of a candidate that the language filter or the cap
    dropped. *)
Theorem sanitize_edges_star focusId focusDepth existingElementIds allowedKinds raw out :
  sanitizeExpandResult focusId focusDepth existingElementIds allowedKinds raw = Return out →
  ∀ e, e ∈ edges out →
    e_source e = focusId ∧
    e_target e ∈ n_id <$> nodes out ∧
    (e_target e ∉ existingElementIds) ∧
    e_target e ≠ [] ∧
    ∀ resolved c,
      resolvedNodes focusDepth existingElementIds allowedKinds raw = Return resolved →
      c ∈ resolved → c ∉ nodes out → e_target e ≠ n_id c.
Proof.
  intros (resolved & model & suppl & Hres & Hnodes & Hmodel & Hsuppl & Hedges)%sanitizeExpandResult_Return.
  apply edgesFromModel_Return in Hmodel as (_ & Hm).
  apply supplement_Return in Hsuppl as (_ & Hs & _).
  apply resolvedNodes_Return in Hres as Hfacts. destruct Hfacts as (Hnd & Hnew & _ & Hne).
  assert (sublist (nodes out) resolved) as Hsub.
  { rewrite Hnodes. etrans; [apply sublist_take | apply sublist_filter]. }
  intros e He. rewrite Hedges in He.
  assert (e_source e = focusId ∧ e_target e ∈ n_id <$> nodes out) as [Hsrc Htgt].
  { apply elem_of_app in He as [He|He].
    - rewrite Forall_forall in Hm. by apply Hm.
    - rewrite Forall_forall in Hs. destruct (Hs e He) as (n & Hn & Hsrc & Ht & _).
      split; [done|]. rewrite Ht. by apply list_elem_of_fmap_2. }
  split; [done|]. split; [done|].
  apply list_elem_of_fmap in Htgt as (n & Hn & Hin).
  assert (n ∈ resolved) as Hnr by (by eapply elem_of_sublist).
  split; [|split].
  - apply Hnew. rewrite Hn. by apply list_elem_of_fmap_2.
  - rewrite Hn. rewrite Forall_forall in Hne. by apply Hne.
  - intros resolved' c Hres' Hc Hout Heq. rewrite Hres in Hres'. injection Hres' as <-.
    assert (n = c) as -> by (eapply NoDup_fmap_eq; [exact Hnd|done..|congruence]). done.
Qed.

Lemma sanitize_edges_star_witness :
  sanitizeExpandResult (lit "root") 0 [lit "root"] scenarioKinds scenarioPayload
    = Return scenarioOutput ∧
  (∀ e, e ∈ edges scenarioOutput →
    e_source e = lit "root" ∧
    e_target e ∈ n_id <$> nodes scenarioOutput ∧
    (e_target e ∉ [lit "root"]) ∧
    e_target e ≠ [] ∧
    ∀ resolved c,
      resolvedNodes 0 [lit "root"] scenarioKinds scenarioPayload = Return resolved →
      c ∈ resolved → c ∉ nodes scenarioOutput → e_target e ≠ n_id c).
Proof.
  split; [exact scenario_run|].
  exact (sanitize_edges_star (lit "root") 0 [lit "root"] scenarioKinds scenarioPayload
           scenarioOutput scenario_run).
Defined.

(** C5: when the sanitiser returns, every node of the output has depth
    [focusDepth + 1], whatever depth the payload carries. The depths are
    JavaScript numbers and [+] is the addition of the runtime, on doubles:
    the sum is the double nearest to [focusDepth + 1]. *)
Theorem sanitize_depth focusId focusDepth existingElementIds allowedKinds raw out :
  sanitizeExpandResult focusId focusDepth existingElementIds allowedKinds raw = Return out →
  Forall (λ n, n_depth n = (focusDepth + 1)%float) (nodes out).
Proof.
  intros (resolved & _ & _ & Hres & Hnodes & _)%sanitizeExpandResult_Return.
  apply resolvedNodes_Return in Hres as (_ & _ & Hdepth & _). rewrite Hnodes.
  eapply Forall_sublist; [|done]. etrans; [apply sublist_take | apply sublist_filter].
Qed.

Lemma sanitize_depth_witness :
  sanitizeExpandResult (lit "root") 0 [lit "root"] scenarioKinds scenarioPayload
    = Return scenarioOutput ∧
  (Forall (λ n, n_depth n = (0 + 1)%float) (nodes scenarioOutput)).
Proof.
  split; [exact scenario_run|].
  exact (sanitize_depth (lit "root") 0 [lit "root"] scenarioKinds scenarioPayload
           scenarioOutput scenario_run).
Defined.

(** The addition rounds: for a focus at depth [2^53] the output nodes are at
    depth [2^53] as well, and for a focus whose depth is not a number so are
    they. *)
Example sanitize_depth_rounds :
  sanitizeExpandResult (lit "root") 9007199254740992 [lit "root"] scenarioKinds scenarioPayload
  = Return (mkResponse
      ((λ n, mkNode (n_id n) (n_label n) (n_kind n) 9007199254740992) <$> nodes scenarioOutput)
      (edges scenarioOutput)) ∧
  sanitizeExpandResult (lit "root") nan [lit "root"] scenarioKinds scenarioPayload
  = Return (mkResponse
      ((λ n, mkNode (n_id n) (n_label n) (n_kind n) nan) <$> nodes scenarioOutput)
      (edges scenarioOutput)).
Proof. split; vm_compute; reflexivity. Qed.

(** C6, as the code runs it: the kinds [root] and [concept] select no domain,
    so the language filter keeps the node [a] with its English label; the
    output has the two nodes [a] and [a__1], both of kind [concept] and depth
    1, and one synthesised edge to each. *)
Theorem scenario_output :
  sanitizeExpandResult (lit "root") 0 [lit "root"] [lit "root"; lit "concept"] scenarioPayload
  = Return (mkResponse
      [mkNode (lit "a") (lit "Example") (lit "concept") 1;
       mkNode (lit "a__1") betsuNoRei (lit "concept") 1]
      [mkEdge (lit "root--a--auto") (lit "root") (lit "a") (Text kanren);
       mkEdge (lit "root--a__1--auto") (lit "root") (lit "a__1") (Text kanren)]).
Proof. vm_compute. reflexivity. Qed.

(** C6 as stated fails: the node [a] is in the output, and there are two
    edges, not one. *)
Lemma scenario_keeps_ascii_node :
  ∃ out,
    sanitizeExpandResult (lit "root") 0 [lit "root"] [lit "root"; lit "concept"] scenarioPayload
      = Return out ∧
    lit "a" ∈ n_id <$> nodes out ∧ length (edges out) = 2%nat.
Proof.
  exists scenarioOutput. split; [vm_compute; reflexivity|]. split; [|reflexivity].
  simpl. by left.
Qed.

(** C7, as the code orders the stages: the language filter runs on every
    resolved candidate and the cap of three comes after it, so the output
    holds the first three candidates that pass the filter, at most three. *)
Theorem sanitize_filter_then_cap focusId focusDepth existingElementIds allowedKinds raw out :
  sanitizeExpandResult focusId focusDepth existingElementIds allowedKinds raw = Return out →
  (∃ resolved,
     resolvedNodes focusDepth existingElementIds allowedKinds raw = Return resolved ∧
     nodes out = take 3 (filter (λ n, passesLanguagePolicy allowedKinds n = true) resolved)) ∧
  (length (nodes out) ≤ 3)%nat.
Proof.
  intros (resolved & _ & _ & Hres & Hnodes & _)%sanitizeExpandResult_Return. split; [eauto|].
  rewrite Hnodes, length_take. lia.
Qed.

Lemma sanitize_filter_then_cap_witness :
  sanitizeExpandResult (lit "root") 0 [lit "root"] scenarioKinds scenarioPayload
    = Return scenarioOutput ∧
  ((∃ resolved,
     resolvedNodes 0 [lit "root"] scenarioKinds scenarioPayload = Return resolved ∧
     nodes scenarioOutput
     = take 3 (filter (λ n, passesLanguagePolicy scenarioKinds n = true) resolved)) ∧
  (length (nodes scenarioOutput) ≤ 3)%nat).
Proof.
  split; [exact scenario_run|].
  exact (sanitize_filter_then_cap (lit "root") 0 [lit "root"] scenarioKinds scenarioPayload
           scenarioOutput scenario_run).
Defined.

(** C7 as stated fails: of four note candidates the first of which has an
    English label, the code returns three (the second to the fourth); with
    the cap before the filter it would return two. *)
Lemma cap_before_filter_differs :
  ∃ ns ns',
    sanitizedNodes 0 [lit "perfume_root"] perfumeKinds fourNotes = Return ns ∧
    sanitizedNodes_capFirst 0 [lit "perfume_root"] perfumeKinds fourNotes = Return ns' ∧
    n_id <$> ns = [lit "n2"; lit "n3"; lit "n4"] ∧
    n_id <$> ns' = [lit "n2"; lit "n3"].
Proof. eexists _, _. repeat split; vm_compute; reflexivity. Qed.

(** C10: with none of the marker kinds among [allowedKinds] the domain is
    [unknown], no kind requires a Japanese label, and the language filter
    passes every node: the output nodes are the first three resolved
    candidates, whatever their labels. *)
Theorem no_marker_no_filter allowedKinds :
  Forall (λ m, m ∉ allowedKinds) markerKinds →
  inferDomainFromAllowedKinds allowedKinds = unknown ∧
  (∀ kind, shouldRequireJapaneseLabel (inferDomainFromAllowedKinds allowedKinds) kind = false) ∧
  (∀ n, passesLanguagePolicy allowedKinds n = true) ∧
  ∀ focusDepth existingElementIds raw resolved,
    resolvedNodes focusDepth existingElementIds allowedKinds raw = Return resolved →
    filter (λ n, passesLanguagePolicy allowedKinds n = true) resolved = resolved ∧
    sanitizedNodes focusDepth existingElementIds allowedKinds raw = Return (take 3 resolved).
Proof.
  intros Hmarkers.
  assert (inferDomainFromAllowedKinds allowedKinds = unknown) as Hdom.
  { unfold inferDomainFromAllowedKinds, has.
    rewrite !bool_decide_eq_false_2; [done|..];
      rewrite elem_of_list_to_set; rewrite Forall_forall in Hmarkers;
      apply Hmarkers; unfold markerKinds; rewrite list_elem_of_fmap; eexists;
      (split; [reflexivity|]); set_solver. }
  assert (∀ n, passesLanguagePolicy allowedKinds n = true) as Hpass.
  { intros n. unfold passesLanguagePolicy, domainGuess. by rewrite Hdom. }
  split; [done|]. split; [by rewrite Hdom|]. split; [done|].
  intros focusDepth existingElementIds raw resolved Hres.
  assert (filter (λ n, passesLanguagePolicy allowedKinds n = true) resolved = resolved) as Hid.
  { clear Hres. induction resolved as [|n ns IH]; [done|].
    rewrite filter_cons_True by done. by rewrite IH. }
  split; [done|]. unfold sanitizedNodes. rewrite Hres. simpl.
  by rewrite capNodes_take, Hid.
Qed.

Lemma no_marker_no_filter_witness :
  Forall (λ m, m ∉ scenarioKinds) markerKinds ∧
  (inferDomainFromAllowedKinds scenarioKinds = unknown ∧
  (∀ kind, shouldRequireJapaneseLabel (inferDomainFromAllowedKinds scenarioKinds) kind = false) ∧
  (∀ n, passesLanguagePolicy scenarioKinds n = true) ∧
  ∀ focusDepth existingElementIds raw resolved,
    resolvedNodes focusDepth existingElementIds scenarioKinds raw = Return resolved →
    filter (λ n, passesLanguagePolicy scenarioKinds n = true) resolved = resolved ∧
    sanitizedNodes focusDepth existingElementIds scenarioKinds raw = Return (take 3 resolved)).
Proof.
  assert (Forall (λ m, m ∉ scenarioKinds) markerKinds) as Hmarkers.
  { refine (bool_decide_unpack _ _). vm_compute. exact I. }
  split; [exact Hmarkers|].
  exact (no_marker_no_filter scenarioKinds Hmarkers).
Defined.

(** X2: when the sanitiser returns, the node ids of the output are pairwise
    distinct, so are the edge ids, and none of them is an existing element id. *)
Theorem sanitize_ids_fresh focusId focusDepth existingElementIds allowedKinds raw out :
  sanitizeExpandResult focusId focusDepth existingElementIds allowedKinds raw = Return out →
  NoDup (n_id <$> nodes out) ∧
  NoDup (e_id <$> edges out) ∧
  ∀ id, id ∈ (n_id <$> nodes out) ++ (e_id <$> edges out) → id ∉ existingElementIds.
Proof.
  intros (resolved & model & suppl & Hres & Hnodes & Hmodel & Hsuppl & Hedges)%sanitizeExpandResult_Return.
  apply resolvedNodes_Return in Hres as (Hnd & Hnew & _).
  apply edgesFromModel_Return in Hmodel as (Hfresh1 & _).
  apply supplement_Return in Hsuppl as (Hfresh2 & _).
  destruct (fresh_ids_app _ _ _ _ _ Hfresh1 Hfresh2) as (Hnd_e & Hnew_e & _).
  assert (sublist (n_id <$> nodes out) (n_id <$> resolved)) as Hsub.
  { rewrite Hnodes. apply fmap_sublist. etrans; [apply sublist_take | apply sublist_filter]. }
  rewrite Hedges, fmap_app. split; [exact (sublist_NoDup _ _ Hnd Hsub)|]. split; [done|].
  intros id [Hid|Hid]%elem_of_app.
  - apply Hnew. by eapply elem_of_sublist.
  - intros Hex. apply (Hnew_e id Hid). by apply elem_of_list_to_set.
Qed.

Lemma sanitize_ids_fresh_witness :
  sanitizeExpandResult (lit "root") 0 [lit "root"] scenarioKinds scenarioPayload
    = Return scenarioOutput ∧
  (NoDup (n_id <$> nodes scenarioOutput) ∧
   NoDup (e_id <$> edges scenarioOutput) ∧
   ∀ id, id ∈ (n_id <$> nodes scenarioOutput) ++ (e_id <$> edges scenarioOutput) →
         id ∉ [lit "root"]).
Proof.
  split; [exact scenario_run|].
  exact (sanitize_ids_fresh (lit "root") 0 [lit "root"] scenarioKinds scenarioPayload
           scenarioOutput scenario_run).
Defined.

(** X1: on a payload whose [nodes] and [edges] are absent, [null] or arrays
    and in which no object owns a [toString] key, the sanitiser returns a
    result. *)
Theorem sanitize_returns_on_well_shaped focusId focusDepth existingElementIds allowedKinds raw :
  wellShaped raw = true →
  ∃ out, sanitizeExpandResult focusId focusDepth existingElementIds allowedKinds raw = Return out.
Proof. apply sanitizeExpandResult_returns. Qed.

Lemma sanitize_returns_on_well_shaped_witness :
  wellShaped scenarioPayload = true ∧
  ∃ out, sanitizeExpandResult (lit "root") 0 [lit "root"] scenarioKinds scenarioPayload
         = Return out.
Proof.
  split; [reflexivity|].
  exact (sanitize_returns_on_well_shaped (lit "root") 0 [lit "root"] scenarioKinds
           scenarioPayload eq_refl).
Defined.

(** An object that owns a [toString] key cannot be converted by [String]:
    as the [kind] of a candidate it makes the sanitiser throw. *)
Lemma sanitize_throws_on_toString_key :
  sanitizeExpandResult (lit "perfume_root") 0 [lit "perfume_root"] perfumeKinds
    (obj [("nodes", JArr [obj [("id", str "a"); ("kind", obj [("toString", JNull)])]])])
  = TypeError.
Proof. vm_compute. reflexivity. Qed.

(** X3: [makeUniqueId] returns; the id is the first of [base], [base__1],
    [base__2], ... that is not in [used], and it is added to the set. *)
Theorem makeUniqueId_first_free base used :
  ∃ k, makeUniqueId base used = Return (candidate base k, {[candidate base k]} ∪ used) ∧
       (candidate base k ∉ used) ∧
       ∀ k', k' < k → candidate base k' ∈ used.
Proof.
  unfold makeUniqueId.
  destruct (makeUniqueId_loop (S (size used)) base used base 1) as [id| |] eqn:Hloop.
  - change base with (candidate base 0) in Hloop at 2. change 1 with (N.succ 0) in Hloop.
    apply makeUniqueId_loop_Return in Hloop as (Hid & k & _ & -> & Hmin).
    exists k. split; [done|]. split; [done|]. intros k' Hk'. apply Hmin; lia.
  - destruct (makeUniqueId_total base used) as [r Hr]. unfold makeUniqueId in Hr.
    by rewrite Hloop in Hr.
  - by apply makeUniqueId_loop_fuel in Hloop.
Qed.

End sanitizer_contract.

(** * The layout *)

(** ** Sorting with a comparator *)

Section sorting.
Context {A : Type} (cmp : A → A → Z).

Lemma sortInsert_Permutation x l : sortInsert cmp x l ≡ₚ x :: l.
Proof.
  induction l as [|y l IH]; simpl; [done|].
  case_match; [done|]. rewrite IH. apply Permutation_swap.
Qed.

Lemma sortBy_Permutation l : sortBy cmp l ≡ₚ l.
Proof.
  induction l as [|x l IH]; simpl; [done|].
  rewrite sortInsert_Permutation. by f_equiv.
Qed.

Context (Hcmp : consistentComparator cmp).

Let notAfter (a b : A) : Prop := (cmp a b ≤ 0)%Z.

Lemma sortInsert_sorted x l :
  StronglySorted notAfter l → StronglySorted notAfter (sortInsert cmp x l).
Proof.
  induction 1 as [|y l Hl IH Hy]; simpl; [by repeat constructor|].
  case_match eqn:Hxy.
  - apply Z.leb_le in Hxy. constructor; [by constructor|].
    constructor; [done|]. eapply Forall_impl; [done|].
    intros z Hz. by eapply (cmp_trans _ Hcmp).
  - apply Z.leb_gt in Hxy. constructor; [done|].
    rewrite sortInsert_Permutation. constructor; [|done].
    unfold notAfter. apply (cmp_flip _ Hcmp) in Hxy. lia.
Qed.

Lemma sortBy_sorted l : StronglySorted notAfter (sortBy cmp l).
Proof. induction l; simpl; [constructor | by apply sortInsert_sorted]. Qed.

(** Two orders of the same elements sort to the same list, when the
    comparator ties no two distinct elements. *)
Lemma sortBy_order_independent l1 l2 :
  (∀ a b, a ∈ l1 → b ∈ l1 → cmp a b = 0%Z → a = b) →
  l1 ≡ₚ l2 → sortBy cmp l1 = sortBy cmp l2.
Proof.
  intros Hties Hperm.
  apply (StronglySorted_unique_strong notAfter); [|apply sortBy_sorted..|].
  - intros a b Ha Hb Hab Hba. rewrite sortBy_Permutation in Ha, Hb.
    rewrite <- Hperm in Hb. apply Hties; [done..|].
    unfold notAfter in *. destruct (decide (cmp a b = 0%Z)) as [|Hne]; [done|].
    assert (cmp a b < 0)%Z as Hlt by lia. apply (cmp_flip _ Hcmp) in Hlt. lia.
  - by rewrite !sortBy_Permutation.
Qed.
End sorting.

(** ** Assigning positions *)

Section positions.
Import Cy.
Context {num : Type}.
Implicit Types (cy : core num) (n : node num) (p : position num).

Lemma moved_id id p n : node_id (moved id p n) = node_id n.
Proof. unfold moved. by case_decide. Qed.

Lemma moved_depth id p n : node_depth (moved id p n) = node_depth n.
Proof. unfold moved. by case_decide. Qed.

Lemma movedBy_id ops n : node_id (movedBy ops n) = node_id n.
Proof.
  revert n. induction ops as [|op ops IH]; intros n; simpl; [done|].
  by rewrite IH, moved_id.
Qed.

Lemma movedBy_depth ops n : node_depth (movedBy ops n) = node_depth n.
Proof.
  revert n. induction ops as [|op ops IH]; intros n; simpl; [done|].
  by rewrite IH, moved_depth.
Qed.

Lemma assign_nodes ops cy :
  assign ops cy = mkCore (movedBy ops <$> nodes cy) (edges cy).
Proof.
  revert cy. induction ops as [|op ops IH]; intros cy; simpl.
  - destruct cy as [ns es]. simpl. by rewrite list_fmap_id.
  - rewrite IH. unfold setPosition. simpl. f_equal. rewrite <- list_fmap_compose.
    by apply list_fmap_ext.
Qed.

Lemma assign_app ops1 ops2 cy : assign (ops1 ++ ops2) cy = assign ops2 (assign ops1 cy).
Proof. unfold assign. by rewrite foldl_app. Qed.

Lemma assign_skeleton ops cy : skeleton (assign ops cy) = skeleton cy.
Proof.
  rewrite assign_nodes. unfold skeleton. simpl. rewrite <- list_fmap_compose.
  apply list_fmap_ext. intros i n _. simpl. by rewrite movedBy_id, movedBy_depth.
Qed.

Lemma assign_edges ops cy : edges (assign ops cy) = edges cy.
Proof. by rewrite assign_nodes. Qed.

(** A node that no assignment names stays as it is. *)
Lemma movedBy_other ops n : node_id n ∉ ops.*1 → movedBy ops n = n.
Proof.
  revert n. induction ops as [|op ops IH]; intros n Hn; simpl; [done|].
  rewrite fmap_cons, not_elem_of_cons in Hn. destruct Hn as [Hne Hn].
  unfold moved at 1. rewrite decide_False by done. by apply IH.
Qed.

(** A node that an assignment names ends at the position of the last one
    that does, wherever it was. *)
Lemma movedBy_position ops n n' :
  node_id n = node_id n' → node_depth n = node_depth n' → node_id n ∈ ops.*1 →
  movedBy ops n = movedBy ops n'.
Proof.
  revert n n'. induction ops as [|op ops IH]; intros n n' Hid Hd Hin; simpl.
  { by apply elem_of_nil in Hin. }
  destruct (decide (node_id n ∈ ops.*1)) as [Hops|Hops].
  - apply IH; [by rewrite !moved_id | by rewrite !moved_depth | by rewrite moved_id].
  - rewrite fmap_cons in Hin. apply elem_of_cons in Hin as [Hop|]; [|done].
    unfold moved. rewrite <- Hid, !decide_True by done. by rewrite <- Hd.
Qed.

(** The same assignments a second time change nothing. *)
Lemma assign_idempotent ops cy : assign ops (assign ops cy) = assign ops cy.
Proof.
  rewrite !assign_nodes. simpl. f_equal. rewrite <- list_fmap_compose.
  apply list_fmap_ext. intros i n _. simpl.
  destruct (decide (node_id n ∈ ops.*1)) as [Hin|Hout].
  - apply movedBy_position; [by rewrite movedBy_id | by rewrite movedBy_depth|].
    by rewrite movedBy_id.
  - by rewrite !movedBy_other by (by rewrite ?movedBy_id).
Qed.
End positions.

(** ** [computeRingPositions] and [placeChildrenForward] as assignments *)

Section layout_facts.
Import Cy Layout.
Context {num : Type} `{JsRuntime num}.
Implicit Types (cy : core num) (n : node num) (p : position num).
Local Open Scope js_scope.

Lemma placeRing_assign radius count ids i cy :
  placeRing radius count ids i cy = assign (ringSlots radius count ids i) cy.
Proof. revert i cy. induction ids as [|id ids IH]; intros i cy; simpl; [done|]. by rewrite IH. Qed.

Lemma members_skeleton cy depth :
  node_id <$> filter (λ n, node_depth n = depth) (nodes cy)
  = fst <$> filter (λ m, m.2 = depth) (skeleton cy).
Proof.
  unfold skeleton. induction (nodes cy) as [|n ns IH]; [done|].
  rewrite fmap_cons, !filter_cons. cbn [snd]. case_decide; [|done].
  rewrite !fmap_cons. by rewrite IH.
Qed.

Lemma placeLevel_assign cy0 cy depth :
  placeLevel cy0 cy depth = assign (levelSlots (skeleton cy0) depth) cy.
Proof.
  unfold placeLevel, levelSlots. rewrite members_skeleton. case_decide.
  - generalize (fst <$> filter (λ m, m.2 = depth) (skeleton cy0)). intros ids.
    revert cy. induction ids as [|id ids IH]; intros cy; simpl; [done|]. by rewrite IH.
  - apply placeRing_assign.
Qed.

Lemma foldl_placeLevel cy0 depths cy :
  foldl (placeLevel cy0) cy depths = assign (mjoin (levelSlots (skeleton cy0) <$> depths)) cy.
Proof.
  revert cy. induction depths as [|d depths IH]; intros cy; simpl; [done|].
  by rewrite IH, placeLevel_assign, assign_app.
Qed.

Lemma computeRingPositions_assign cy :
  computeRingPositions cy = assign (allSlots (skeleton cy)) cy.
Proof.
  unfold computeRingPositions, allSlots. rewrite foldl_placeLevel.
  assert (snd <$> skeleton cy = node_depth <$> nodes cy) as ->; [|done].
  unfold skeleton. by rewrite <- list_fmap_compose.
Qed.

(** Ring placement changes positions only, and a second run changes nothing. *)
Lemma computeRingPositions_skeleton cy : skeleton (computeRingPositions cy) = skeleton cy.
Proof. by rewrite computeRingPositions_assign, assign_skeleton. Qed.

Lemma computeRingPositions_idempotent cy :
  computeRingPositions (computeRingPositions cy) = computeRingPositions cy.
Proof.
  rewrite (computeRingPositions_assign (computeRingPositions cy)).
  rewrite computeRingPositions_skeleton, computeRingPositions_assign.
  apply assign_idempotent.
Qed.

(** The fan assigns positions to ids of its list only. *)
Lemma placeChildren_assign focusId dx dy mid ids i cy :
  ∃ ops, Layout.placeChildren focusId dx dy mid ids i cy = assign ops cy ∧ ops.*1 ⊆ ids.
Proof.
  revert i cy. induction ids as [|id ids IH]; intros i cy; simpl.
  { by exists []. }
  destruct (getElementById cy id), (getElementById cy focusId);
    try (destruct (IH (S i) cy) as (ops & -> & Hops); exists ops; split; [done | set_solver]).
  match goal with |- context [setPosition id ?p cy] =>
    destruct (IH (S i) (setPosition id p cy)) as (ops & -> & Hops); exists ((id, p) :: ops) end.
  split; [done | set_solver].
Qed.

Lemma placeChildrenForward_assign cy focusId childIds :
  ∃ ops, Layout.placeChildrenForward cy focusId childIds = assign ops cy ∧ ops.*1 ⊆ childIds.
Proof.
  unfold Layout.placeChildrenForward.
  destruct (getElementById cy focusId); [|exists nil; split; [done | set_solver]].
  match goal with |- context [Layout.placeChildren ?f ?dx ?dy ?mid ?ids ?i cy] =>
    destruct (placeChildren_assign f dx dy mid ids i cy) as (ops & -> & Hops) end.
  exists ops. split; [done|]. intros x Hx. apply Hops in Hx. by rewrite sortBy_Permutation in Hx.
Qed.

Lemma assign_frame ops ids cy :
  ops.*1 ⊆ ids → Forall2 (keptOutside ids) (nodes cy) (nodes (assign ops cy)).
Proof.
  intros Hops. rewrite assign_nodes. simpl. apply Forall2_fmap_r, Forall_Forall2_diag.
  apply Forall_forall. intros n _. unfold keptOutside. simpl.
  split; [apply movedBy_id|]. split; [apply movedBy_depth|].
  intros Hn. apply movedBy_other. intros Hin. by apply Hn, Hops.
Qed.

Lemma keptOutside_trans ids n1 n2 n3 :
  keptOutside ids n1 n2 → keptOutside ids n2 n3 → keptOutside ids n1 n3.
Proof.
  intros (Hid1 & Hd1 & Hk1) (Hid2 & Hd2 & Hk2). split; [congruence|]. split; [congruence|].
  intros Hn. rewrite <- (Hk1 Hn). apply Hk2. by rewrite Hid1.
Qed.
End layout_facts.

(** ** [mergeUniqueElements] *)

Section merge_facts.
Import Merge.
Context {D : Type}.
Implicit Types (els prev incoming : list (element D)).

Lemma idsOf_app edge els1 els2 : idsOf edge (els1 ++ els2) = idsOf edge els1 ∪ idsOf edge els2.
Proof. unfold idsOf. rewrite filter_app, fmap_app. set_solver. Qed.

(** What the loop pushes, and the two sets when it ends. *)
Lemma pushed_ids nodeIds edgeIds incoming :
  ∀ el, el ∈ incoming →
    el_id el ∈ (if el_hasSource el then edgeIds ∪ idsOf true (pushed nodeIds edgeIds incoming)
                else nodeIds ∪ idsOf false (pushed nodeIds edgeIds incoming)).
Proof.
  revert nodeIds edgeIds. induction incoming as [|el' incoming IH]; intros nodeIds edgeIds el Hel.
  { by apply elem_of_nil in Hel. }
  assert (∀ edge (x : element D) l, idsOf edge (x :: l)
            = (if decide (el_hasSource x = edge) then {[el_id x]} else ∅) ∪ idsOf edge l) as Hcons.
  { intros edge x l. unfold idsOf. rewrite filter_cons. case_decide; set_solver. }
  apply elem_of_cons in Hel as [->|Hel]; simpl.
  - destruct (el_hasSource el') eqn:Hsort; case_decide; try set_solver;
      rewrite Hcons, Hsort, decide_True by done; set_solver.
  - destruct (el_hasSource el') eqn:Hsort'; case_decide;
      try (specialize (IH nodeIds edgeIds el Hel); destruct (el_hasSource el); set_solver).
    + specialize (IH nodeIds ({[el_id el']} ∪ edgeIds) el Hel).
      destruct (el_hasSource el) eqn:Hsort; rewrite Hcons, Hsort'; case_decide; set_solver.
    + specialize (IH ({[el_id el']} ∪ nodeIds) edgeIds el Hel).
      destruct (el_hasSource el) eqn:Hsort; rewrite Hcons, Hsort'; case_decide; set_solver.
Qed.

(** Nothing is pushed when every incoming id is known for its sort. *)
Lemma pushed_known nodeIds edgeIds incoming :
  (∀ el, el ∈ incoming → el_id el ∈ (if el_hasSource el then edgeIds else nodeIds)) →
  pushed nodeIds edgeIds incoming = [].
Proof.
  induction incoming as [|el incoming IH]; intros Hknown; simpl; [done|].
  pose proof (Hknown el (list_elem_of_here _ _)) as Hel.
  destruct (el_hasSource el); rewrite decide_True by done; apply IH;
    intros el' Hel'; apply Hknown; by right.
Qed.

(** Merging the same batch a second time adds nothing. *)
Lemma mergeUniqueElements_idempotent prev incoming :
  mergeUniqueElements (mergeUniqueElements prev incoming) incoming
  = mergeUniqueElements prev incoming.
Proof.
  unfold mergeUniqueElements at 1. rewrite pushed_known; [by rewrite app_nil_r|].
  intros el Hel. unfold mergeUniqueElements. rewrite !idsOf_app.
  pose proof (pushed_ids (idsOf false prev) (idsOf true prev) incoming el Hel) as Hin.
  by destruct (el_hasSource el).
Qed.
End merge_facts.

(** ** The comparator of the examples *)

Lemma compareUnits_flip a b : (compareUnits a b < 0 ↔ 0 < compareUnits b a)%Z.
Proof.
  revert b. induction a as [|x a IH]; intros [|y b]; simpl; [lia..|].
  rewrite (N.compare_antisym x y). destruct (x ?= y)%N; simpl; [apply IH | lia..].
Qed.

Lemma compareUnits_trans a b c :
  (compareUnits a b ≤ 0 → compareUnits b c ≤ 0 → compareUnits a c ≤ 0)%Z.
Proof.
  revert b c. induction a as [|x a IH]; intros [|y b] [|z c]; simpl; try lia.
  destruct (N.compare_spec x y), (N.compare_spec y z), (N.compare_spec x z);
    try lia; intros; eauto.
Qed.

Lemma compareUnits_consistent : consistentComparator compareUnits.
Proof. split; [apply compareUnits_flip | apply compareUnits_trans]. Qed.

Lemma compareUnits_tie a b : compareUnits a b = 0%Z → a = b.
Proof.
  revert b. induction a as [|x a IH]; intros [|y b]; simpl; try done.
  destruct (N.compare_spec x y); try done. intros ?%IH. by subst.
Qed.

(** * The layout's contract *)

Section layout_contract.
Import Cy RealRuntime.

(** C8, for the fan that sorts its children: two orders of the same child
    ids give the same graph, positions included, when [localeCompare] is a
    consistent comparator that ties no two distinct child ids. *)
Theorem placeChildrenForward_order_independent {num} `{JsRuntime num}
    (cy : core num) (focusId : jsstring) (ids1 ids2 : list jsstring) :
  consistentComparator localeCompare →
  (∀ a b, a ∈ ids1 → b ∈ ids1 → localeCompare a b = 0%Z → a = b) →
  ids1 ≡ₚ ids2 →
  Layout.placeChildrenForward cy focusId ids1 = Layout.placeChildrenForward cy focusId ids2.
Proof.
  intros Hcmp Hties Hperm. unfold Layout.placeChildrenForward.
  by rewrite (sortBy_order_independent localeCompare Hcmp ids1 ids2).
Qed.

Lemma placeChildrenForward_order_independent_witness :
  consistentComparator (@localeCompare _ real_runtime) ∧
  (∀ a b, a ∈ [lit "a"; lit "b"] → b ∈ [lit "a"; lit "b"] →
          @localeCompare _ real_runtime a b = 0%Z → a = b) ∧
  [lit "a"; lit "b"] ≡ₚ [lit "b"; lit "a"] ∧
  Layout.placeChildrenForward fanBefore (lit "f") [lit "a"; lit "b"]
  = Layout.placeChildrenForward fanBefore (lit "f") [lit "b"; lit "a"].
Proof.
  assert (∀ a b, a ∈ [lit "a"; lit "b"] → b ∈ [lit "a"; lit "b"] →
                 @localeCompare _ real_runtime a b = 0%Z → a = b) as Hties.
  { intros a b _ _. apply compareUnits_tie. }
  split; [exact compareUnits_consistent|]. split; [exact Hties|].
  split; [apply Permutation_swap|].
  exact (placeChildrenForward_order_independent fanBefore (lit "f")
           [lit "a"; lit "b"] [lit "b"; lit "a"]
           compareUnits_consistent Hties (Permutation_swap _ _ _)).
Defined.
End layout_contract.

Section real_examples.
Import Reals Lra Cy RealRuntime.
Local Open Scope R_scope.

Ltac layout_eval :=
  cbv -[IZR Rplus Rminus Rmult Rdiv Ropp Rabs Rinv sqrt cos sin PI Rlt_dec Req_dec_T].

(** C8 as stated fails for the fan of the variant with pending placeholders,
    which takes the children in list order: with the children [a] and [b] of
    [f], the node [a] lands at [(360, -60)] when it is listed first and at
    [(360, 60)] when it is listed second. *)
Lemma fan_follows_list_order :
  getElementById (LayoutPending.placeChildrenForward fanBefore (lit "f") [lit "a"; lit "b"])
    (lit "a") = Some (mkNode (lit "a") 2 (mkPos 360 (-60))) ∧
  getElementById (LayoutPending.placeChildrenForward fanBefore (lit "f") [lit "b"; lit "a"])
    (lit "a") = Some (mkNode (lit "a") 2 (mkPos 360 60)).
Proof.
  assert (sqrt ((170 - 0) * (170 - 0) + (0 - 0) * (0 - 0)) = 170) as Hlen.
  { replace ((170 - 0) * (170 - 0) + (0 - 0) * (0 - 0)) with (170 * 170) by ring.
    apply sqrt_square. lra. }
  split; layout_eval; rewrite !Hlen; destruct (Req_dec_T 170 0) as [?|_]; try lra;
    do 3 f_equal; field.
Qed.

(** Ring placement recomputes every ring: on a graph with a node [a] of
    depth 1 at [(5, 5)], [a] is moved to [(170, 0)]. The expansion of the
    root, the one caller, runs it on the root and the batch merged just now,
    where [a] is of the batch. *)
Example ring_places_every_ring :
  getElementById ringBefore (lit "a") = Some (mkNode (lit "a") 1 (mkPos 5 5)) ∧
  getElementById (Layout.computeRingPositions ringBefore) (lit "a")
    = Some (mkNode (lit "a") 1 (mkPos 170 0)).
Proof.
  split; [reflexivity|]. layout_eval.
  replace (2 * PI * 0 / 2) with 0 by (unfold Rdiv; ring). rewrite cos_0, sin_0.
  do 3 f_equal; ring.
Qed.
End real_examples.

(** * More of the sanitiser *)

(** ** [trim], [looksAsciiOnly] and [hasJapaneseChar] *)

Lemma trimStart_head s c rest : trimStart s = c :: rest → is_space c = false.
Proof.
  induction s as [|a s IH]; simpl; [done|].
  destruct (is_space a) eqn:Ha; [done|]. by intros [= <- _].
Qed.

Lemma trimStart_suffix s : ∃ l, s = l ++ trimStart s.
Proof.
  induction s as [|a s [l IH]]; simpl; [by exists []|].
  destruct (is_space a); [|by exists []]. exists (a :: l). simpl. by f_equal.
Qed.

(** What [trim] leaves neither starts nor ends with white space. *)
Lemma trim_first s c rest : trim s = c :: rest → is_space c = false.
Proof.
  unfold trim. intros H.
  destruct (trimStart_suffix (rev (trimStart s))) as [l Hl].
  apply (f_equal (@rev N)) in Hl. rewrite rev_involutive, rev_app_distr, H in Hl.
  simpl in Hl. by eapply trimStart_head.
Qed.

Lemma trim_last s c front : trim s = front ++ [c] → is_space c = false.
Proof.
  unfold trim. intros H. apply (f_equal (@rev N)) in H.
  rewrite rev_involutive, rev_app_distr in H. simpl in H. by eapply trimStart_head.
Qed.

Lemma hasJapaneseChar_not_ascii s : hasJapaneseChar s = true → looksAsciiOnly s = false.
Proof.
  unfold hasJapaneseChar, looksAsciiOnly. intros H. destruct s as [|c s]; [done|].
  apply not_true_is_false. intros Hall.
  apply existsb_exists in H as (x & Hx & Hj). rewrite forallb_forall in Hall.
  specialize (Hall x Hx). apply N.leb_le in Hall.
  apply orb_true_iff in Hj as [[H1 _]%andb_true_iff|[H1 _]%andb_true_iff];
    apply N.leb_le in H1; lia.
Qed.

(** ** Where the output nodes come from *)

Lemma Forall2_sublist_r {A B} (R : A → B → Prop) xs ys ys' :
  Forall2 R xs ys → sublist ys' ys → ∃ xs', sublist xs' xs ∧ Forall2 R xs' ys'.
Proof.
  intros HR. revert ys'. induction HR as [|x y xs ys Hxy _ IH]; intros ys' Hsub.
  - apply sublist_nil_r in Hsub as ->. exists []. split; constructor.
  - apply sublist_cons_r in Hsub as [Hsub|(ys'' & -> & Hsub)].
    + destruct (IH _ Hsub) as (xs' & Hs & HF). exists xs'. split; [by constructor | done].
    + destruct (IH _ Hsub) as (xs' & Hs & HF). exists (x :: xs').
      split; [by constructor | by constructor].
Qed.

Section provenance.
Import Expand.
Variables (focusId : jsstring) (focusDepth : float).
Variables (existingElementIds allowedKinds : list jsstring).

Lemma normalizeNode_Return j m :
  normalizeNode focusDepth allowedKinds j = Return m →
  (∃ id, String_ (get j "id") = Return id ∧ n_id m = trim id) ∧
  (∃ label, n_label m = trim label) ∧
  (n_kind m ∈ allowedKinds ∨ (allowedKinds = [] ∧ n_kind m = lit "node")) ∧
  n_depth m = (focusDepth + 1)%float.
Proof.
  unfold normalizeNode. intros H. inv_bind H. subst m. simpl.
  split; [eauto|]. split; [eauto|]. split; [|done].
  case_bool_decide as Hk.
  - left. by apply elem_of_list_to_set in Hk.
  - destruct (last allowedKinds) as [x|] eqn:Hlast; simpl.
    + left. by apply last_Some_elem_of.
    + right. split; [by apply last_None | done].
Qed.

(** The resolved candidates are, in payload order, entries of the [nodes]
    array. *)
Lemma resolvedNodes_derived raw resolved :
  resolvedNodes focusDepth existingElementIds allowedKinds raw = Return resolved →
  ∃ arr entries,
    arrayOrEmpty (get raw "nodes") = Return arr ∧ sublist entries arr ∧
    Forall2 (derivedFrom focusDepth allowedKinds) entries resolved.
Proof.
  unfold resolvedNodes. intros H. inv_bind H. subst resolved. rename r into arr.
  apply mapM_Return_Forall2 in Hr0.
  assert (Forall2 (λ j m, hasStringId j = true ∧ normalizeNode focusDepth allowedKinds j = Return m)
            (filter (λ n, hasStringId n = true) arr) r0) as Hnorm.
  { assert (Forall (λ j, hasStringId j = true) (filter (λ n, hasStringId n = true) arr)) as Hall.
    { apply Forall_forall. by intros j [Hj _]%list_elem_of_filter. }
    revert Hall Hr0. generalize (filter (λ n, hasStringId n = true) arr). clear.
    intros js Hall HF. induction HF as [|j m js ms Hjm _ IH]; [constructor|].
    inv Hall. constructor; auto. }
  destruct (Forall2_sublist_r _ _ _ (filter (λ n : Node, n_id n ≠ []) r0) Hnorm)
    as (entries & Hsub & Hkept); [apply sublist_filter|].
  assert (Forall (λ n : Node, n_id n ≠ []) (filter (λ n : Node, n_id n ≠ []) r0)) as Hne.
  { apply Forall_forall. by intros n [Hn _]%list_elem_of_filter. }
  apply uniquifyNodes_Return in Hr1 as [_ Hren].
  exists arr, entries. split; [done|]. split; [etrans; [done | apply sublist_filter]|].
  revert Hkept Hne Hren. generalize (filter (λ n : Node, n_id n ≠ []) r0), (r1.1). clear.
  intros ms ns Hkept. revert ns.
  induction Hkept as [|j m js ms [Hj Hm] _ IH]; intros ns Hne Hren; inv Hren; inv Hne.
  - constructor.
  - constructor; [|auto].
    match goal with H : _ ∧ _ ∧ _ ∧ _ |- _ => destruct H as (Hl & Hk & Hd & Hid) end.
    split; [done|]. exists m. done.
Qed.

Lemma sanitize_nodes_sublist raw out resolved :
  resolvedNodes focusDepth existingElementIds allowedKinds raw = Return resolved →
  nodes out = take 3 (filter (λ n, passesLanguagePolicy allowedKinds n = true) resolved) →
  sublist (nodes out) resolved.
Proof. intros _ ->. etrans; [apply sublist_take | apply sublist_filter]. Qed.

(** The output nodes with the entries they come from. *)
Lemma sanitize_derived raw out :
  sanitizeExpandResult focusId focusDepth existingElementIds allowedKinds raw = Return out →
  ∃ arr entries,
    arrayOrEmpty (get raw "nodes") = Return arr ∧ sublist entries arr ∧
    Forall2 (derivedFrom focusDepth allowedKinds) entries (nodes out).
Proof.
  intros (resolved & _ & _ & Hres & Hnodes & _)%sanitizeExpandResult_Return.
  pose proof (sanitize_nodes_sublist _ _ _ Hres Hnodes) as Hsub.
  apply resolvedNodes_derived in Hres as (arr & entries & Harr & Hent & Hall).
  destruct (Forall2_sublist_r _ _ _ _ Hall Hsub) as (entries' & Hsub' & Hall').
  exists arr, entries'. split; [done|]. split; [by etrans | done].
Qed.

Lemma derivedFrom_facts j n :
  derivedFrom focusDepth allowedKinds j n →
  (n_kind n ∈ allowedKinds ∨ (allowedKinds = [] ∧ n_kind n = lit "node")) ∧
  ∃ label, n_label n = trim label.
Proof.
  intros (_ & m & Hm & _ & Hl & Hk & _). apply normalizeNode_Return in Hm as (_ & Hlab & Hkind & _).
  rewrite Hl, Hk. done.
Qed.

Lemma sanitize_kinds raw out :
  sanitizeExpandResult focusId focusDepth existingElementIds allowedKinds raw = Return out →
  Forall (λ n, n_kind n ∈ allowedKinds ∨ (allowedKinds = [] ∧ n_kind n = lit "node"))
         (nodes out).
Proof.
  intros (arr & entries & _ & _ & Hall)%sanitize_derived.
  induction Hall as [|j n js ns Hjn _ IH]; constructor; [|done].
  by apply derivedFrom_facts in Hjn as [Hk _].
Qed.
End provenance.

(** ** The labels of the edges *)

Section edge_labels.
Import Expand.

Lemma record_get_cases m k :
  (∃ k' v, (k', v) ∈ m ∧ record_get m k = Some (Text v)) ∨
  (k ∈ objectPrototypeKeys ∧ record_get m k = Some (ProtoMember k)) ∨
  record_get m k = None.
Proof.
  induction m as [|[k' v] m IH]; simpl.
  - case_bool_decide; auto.
  - case_decide; [left; exists k', v; split; [by left | done]|].
    destruct IH as [(k'' & v' & Hin & ->)|[[Hk ->]| ->]]; auto.
    left. exists k'', v'. split; [by right | done].
Qed.

(** For a kind that names no member of [Object.prototype], [edgeLabelJa]
    returns one of its Japanese labels. *)
Lemma edgeLabelJa_text d k : k ∉ objectPrototypeKeys → japaneseText (edgeLabelJa d k).
Proof.
  intros Hk.
  assert (∀ m, Forall (λ kv : string * jsstring, hasJapaneseChar kv.2 = true) m →
               japaneseText (default (Text kanren) (record_get m k))) as Htable.
  { intros m Hm. destruct (record_get_cases m k) as [(k' & v & Hin & ->)|[[Hin _]| ->]].
    - exists v. split; [done|]. rewrite Forall_forall in Hm. exact (Hm _ Hin).
    - done.
    - by exists kanren. }
  destruct d; unfold edgeLabelJa.
  - apply Htable. by repeat constructor.
  - apply Htable. by repeat constructor.
  - by exists kanren.
Qed.

Lemma japaneseText_not_ascii l : japaneseText l → ∃ s, l = Text s ∧ looksAsciiOnly s = false.
Proof. intros (s & -> & Hs). exists s. split; [done | by apply hasJapaneseChar_not_ascii]. Qed.

Variables (focusId : jsstring) (allowedKinds : list jsstring).

Lemma mapEdges_labels ns es i used r :
  (∀ n, n ∈ ns → n_kind n ∉ objectPrototypeKeys) →
  mapEdges focusId allowedKinds ns es i used = Return r →
  Forall (λ e, ∃ s, e_label e = Text s ∧ looksAsciiOnly s = false) r.1.
Proof.
  intros Hns. revert i used r. induction es as [|j es IH]; simpl; intros i used r H.
  - injection H as <-. constructor.
  - inv_bind H. subst r. simpl. constructor; [|by eapply IH]. simpl.
    destruct (negb (hasJapaneseChar r3) && looksAsciiOnly r3) eqn:Hascii.
    + apply japaneseText_not_ascii, edgeLabelJa_text.
      destruct (find _ ns) as [n|] eqn:Hfind.
      * apply Hns. apply find_some in Hfind as [Hin _]. by apply list_elem_of_In.
      * refine (bool_decide_unpack _ _). vm_compute. exact I.
    + exists r3. split; [done|]. destruct (looksAsciiOnly r3) eqn:Hl; [|done].
      rewrite andb_true_r in Hascii. apply negb_false_iff in Hascii.
      apply hasJapaneseChar_not_ascii in Hascii. congruence.
Qed.
End edge_labels.

(** ** Where the output edges come from *)

Section edge_provenance.
Import Expand.
Variables (focusId : jsstring) (focusDepth : float).
Variables (existingElementIds allowedKinds : list jsstring).

(** The completion loop adds one edge for every node that is not a target
    yet, in the order of the nodes. *)
Lemma supplement_exact edgeTargets ns used r :
  supplement focusId allowedKinds edgeTargets ns used = Return r →
  Forall2 (synthesized focusId allowedKinds) (filter (λ n, n_id n ∉ edgeTargets) ns) r.1.
Proof.
  revert used r. induction ns as [|n ns IH]; simpl; intros used r H.
  - injection H as <-. constructor.
  - case_decide as Hin.
    + rewrite filter_cons_False by (by intros ?). eauto.
    + inv_bind H. subst r. simpl. rewrite filter_cons_True by done.
      constructor; [|eauto].
      repeat split. simpl. by apply makeUniqueId_Return in Hr0 as (_ & _ & Hk).
Qed.

Lemma Forall2_with_Forall {A B} (P : A → Prop) (R : A → B → Prop) xs ys :
  Forall P xs → Forall2 R xs ys → Forall2 (λ x y, P x ∧ R x y) xs ys.
Proof. intros HP HR. induction HR; inv HP; constructor; auto. Qed.

(** The edges taken from the model are, in payload order, entries of the
    [edges] array that leave the focus. *)
Lemma edgesFromModel_accepted ns raw model :
  edgesFromModel focusId existingElementIds allowedKinds ns raw = Return model →
  ∃ arr entries,
    arrayOrEmpty (get raw "edges") = Return arr ∧ sublist entries arr ∧
    Forall2 (acceptedFrom focusId) entries model.1.
Proof.
  unfold edgesFromModel. intros H. inv_bind H. rename r into arr.
  apply filterM_Return_sublist in Hr0 as [Hsub0 Hsrc].
  apply filterM_Return_sublist in Hr1 as [Hsub1 _].
  apply mapEdges_Return in H as (_ & Hfocus & Htgt).
  exists arr, r1. split; [done|]. split.
  { etrans; [done|]. etrans; [done | apply sublist_filter]. }
  assert (Forall (λ j, hasEndpoints j = true ∧ String_ (get j "source") = Return focusId) r1)
    as Hent.
  { eapply Forall_sublist; [exact Hsub1|]. rewrite Forall_forall in *. intros j Hj. split.
    - eapply elem_of_sublist in Hj; [|exact Hsub0]. by apply list_elem_of_filter in Hj as [? _].
    - specialize (Hsrc j Hj). simpl in Hsrc. destruct (String_ (get j "source")); try done.
      simpl in Hsrc. injection Hsrc as Hb. apply bool_decide_eq_true in Hb. by subst. }
  pose proof (Forall2_with_Forall _ _ _ _ Hent Htgt) as Hboth.
  revert Hfocus. clear -Hboth. induction Hboth as [|j e js es [[H1 H2] H3] _ IH]; intros Hfocus.
  - constructor.
  - inv Hfocus. constructor; [done | auto].
Qed.
End edge_provenance.

(** ** Ids that need no renaming *)

Section fresh_payload.
Import Expand.
Variables (focusDepth : float) (existingElementIds allowedKinds : list jsstring).

Lemma uniquifyNodes_fresh ns used :
  NoDup (n_id <$> ns) → (∀ x, x ∈ n_id <$> ns → x ∉ used) →
  ∃ used', uniquifyNodes ns used = Return (ns, used').
Proof.
  revert used. induction ns as [|n ns IH]; intros used Hnd Hnew; [by eexists|].
  rewrite fmap_cons in Hnd. apply NoDup_cons in Hnd as [Hn Hnd].
  cbn [uniquifyNodes]. rewrite makeUniqueId_fresh by (apply Hnew; by left).
  cbn [mbind outcome_bind bind fst snd].
  destruct (IH ({[n_id n]} ∪ used) Hnd) as [used' ->].
  { intros x Hx. specialize (Hnew x). rewrite fmap_cons in Hnew.
    assert (x ≠ n_id n) by (by intros ->). set_solver. }
  exists used'. cbn [mbind outcome_bind bind fst snd]. by destruct n.
Qed.

Lemma normalized_ids arr ms :
  mapM (normalizeNode focusDepth allowedKinds) (filter (λ n, hasStringId n = true) arr) = Return ms →
  n_id <$> ms = omap entryId arr.
Proof.
  revert ms. induction arr as [|j arr IH]; intros ms H.
  - injection H as <-. done.
  - destruct (hasStringId j) eqn:Hj.
    + rewrite filter_cons_True in H by done. cbn [mapM] in H. inv_bind H. subst ms.
      rewrite fmap_cons. cbn [omap list_omap]. unfold entryId at 1. rewrite Hj.
      apply normalizeNode_Return in Hr as ((id & Hid & Hm) & _).
      unfold hasStringId in Hj. apply andb_true_iff in Hj as [_ Hj].
      destruct (get j "id") as [[]|]; try done. simpl in Hid. injection Hid as ->.
      rewrite Hm. f_equal. by apply IH.
    + rewrite filter_cons_False in H by (by rewrite Hj). cbn [omap list_omap].
      unfold entryId at 1. rewrite Hj. by apply IH.
Qed.

Lemma filter_fmap_ids (ms : list Node) :
  n_id <$> filter (λ n, n_id n ≠ []) ms = filter (λ id, id ≠ []) (n_id <$> ms).
Proof.
  induction ms as [|m ms IH]; [done|]. rewrite fmap_cons.
  destruct (decide (n_id m = [])) as [Hm|Hm].
  - rewrite !filter_cons_False by (by intros ?). done.
  - rewrite !filter_cons_True by done. rewrite fmap_cons. by f_equal.
Qed.

(** When the ids of the payload's candidates are pairwise distinct and new,
    id resolution renames nothing. *)
Lemma resolvedNodes_fresh raw arr resolved :
  arrayOrEmpty (get raw "nodes") = Return arr →
  NoDup (payloadIds arr) → (∀ x, x ∈ payloadIds arr → x ∉ existingElementIds) →
  resolvedNodes focusDepth existingElementIds allowedKinds raw = Return resolved →
  n_id <$> resolved = payloadIds arr.
Proof.
  intros Harr Hnd Hnew. unfold resolvedNodes. rewrite Harr. cbn [mbind outcome_bind bind].
  intros H. inv_bind H. subst resolved.
  apply normalized_ids in Hr. unfold payloadIds in *. rewrite <- Hr, <- filter_fmap_ids in *.
  destruct (uniquifyNodes_fresh (filter (λ n : Node, n_id n ≠ []) r)
              (list_to_set existingElementIds) Hnd) as [used' Huniq].
  { intros x Hx. rewrite elem_of_list_to_set. by apply Hnew. }
  rewrite Huniq in Hr0. by injection Hr0 as <-.
Qed.
End fresh_payload.

(** ** More of the sanitiser's contract *)

Section sanitizer_more.
Import Expand.

Lemma mixed_run :
  sanitizeExpandResult (lit "perfume_root") 2 [lit "perfume_root"] perfumeKinds mixedPayload
  = Return mixedOutput.
Proof. vm_compute. reflexivity. Qed.

(** X4: the output nodes are, in payload order, entries of the payload's
    [nodes] array that carry a string id: each node has the label, kind and
    depth that normalisation gives its entry, and one of the ids
    [makeUniqueId] tries for the entry's trimmed, non-empty id. The sanitiser
    invents no node and reorders none. *)
Theorem sanitize_nodes_from_payload focusId focusDepth existingElementIds allowedKinds raw out :
  sanitizeExpandResult focusId focusDepth existingElementIds allowedKinds raw = Return out →
  ∃ arr entries,
    arrayOrEmpty (get raw "nodes") = Return arr ∧ sublist entries arr ∧
    Forall2 (derivedFrom focusDepth allowedKinds) entries (nodes out).
Proof. apply sanitize_derived. Qed.

Lemma sanitize_nodes_from_payload_witness :
  sanitizeExpandResult (lit "perfume_root") 2 [lit "perfume_root"] perfumeKinds mixedPayload
    = Return mixedOutput ∧
  (∃ arr entries,
    arrayOrEmpty (get mixedPayload "nodes") = Return arr ∧ sublist entries arr ∧
    Forall2 (derivedFrom 2 perfumeKinds) entries (nodes mixedOutput)).
Proof.
  split; [exact mixed_run|].
  exact (sanitize_nodes_from_payload (lit "perfume_root") 2 [lit "perfume_root"] perfumeKinds
           mixedPayload mixedOutput mixed_run).
Defined.

(** X5: every output node has a kind of [allowedKinds]; only when
    [allowedKinds] is empty is the kind the fallback [node]. *)
Theorem sanitize_kinds_allowed focusId focusDepth existingElementIds allowedKinds raw out :
  sanitizeExpandResult focusId focusDepth existingElementIds allowedKinds raw = Return out →
  Forall (λ n, n_kind n ∈ allowedKinds ∨ (allowedKinds = [] ∧ n_kind n = lit "node"))
         (nodes out).
Proof. apply sanitize_kinds. Qed.

Lemma sanitize_kinds_allowed_witness :
  sanitizeExpandResult (lit "perfume_root") 2 [lit "perfume_root"] perfumeKinds mixedPayload
    = Return mixedOutput ∧
  (Forall (λ n, n_kind n ∈ perfumeKinds ∨ (perfumeKinds = [] ∧ n_kind n = lit "node"))
          (nodes mixedOutput)).
Proof.
  split; [exact mixed_run|].
  exact (sanitize_kinds_allowed (lit "perfume_root") 2 [lit "perfume_root"] perfumeKinds
           mixedPayload mixedOutput mixed_run).
Defined.

(** X6: no output node of a kind that requires a Japanese label has a label
    that [looksAsciiOnly] accepts, and no output label starts or ends with
    white space. *)
Theorem sanitize_labels_policy focusId focusDepth existingElementIds allowedKinds raw out :
  sanitizeExpandResult focusId focusDepth existingElementIds allowedKinds raw = Return out →
  Forall (λ n,
    (shouldRequireJapaneseLabel (inferDomainFromAllowedKinds allowedKinds) (n_kind n) = true →
     looksAsciiOnly (n_label n) = false) ∧
    (∀ c rest, n_label n = c :: rest → is_space c = false) ∧
    (∀ c front, n_label n = front ++ [c] → is_space c = false)) (nodes out).
Proof.
  intros Hrun.
  pose proof Hrun as (resolved & _ & _ & _ & Hnodes & _)%sanitizeExpandResult_Return.
  apply sanitize_derived in Hrun as (arr & entries & _ & _ & Hall).
  assert (Forall (λ n, passesLanguagePolicy allowedKinds n = true) (nodes out)) as Hpass.
  { rewrite Hnodes. eapply Forall_sublist; [apply sublist_take|].
    apply Forall_forall. by intros n [Hn _]%list_elem_of_filter. }
  clear Hnodes. induction Hall as [|j n js ns Hjn _ IH]; [constructor|].
  inv Hpass. constructor; [|auto].
  apply derivedFrom_facts in Hjn as [_ [label Hlabel]]. split; [|split].
  - intros Hreq.
    match goal with H : passesLanguagePolicy _ _ = true |- _ => revert H end.
    unfold passesLanguagePolicy, domainGuess. rewrite Hreq. simpl.
    destruct (hasJapaneseChar (n_label n)) eqn:Hj; [intros _; by apply hasJapaneseChar_not_ascii|].
    by destruct (looksAsciiOnly (n_label n)).
  - rewrite Hlabel. apply trim_first.
  - rewrite Hlabel. apply trim_last.
Qed.

Lemma sanitize_labels_policy_witness :
  sanitizeExpandResult (lit "perfume_root") 2 [lit "perfume_root"] perfumeKinds mixedPayload
    = Return mixedOutput ∧
  (Forall (λ n,
    (shouldRequireJapaneseLabel (inferDomainFromAllowedKinds perfumeKinds) (n_kind n) = true →
     looksAsciiOnly (n_label n) = false) ∧
    (∀ c rest, n_label n = c :: rest → is_space c = false) ∧
    (∀ c front, n_label n = front ++ [c] → is_space c = false)) (nodes mixedOutput)).
Proof.
  split; [exact mixed_run|].
  exact (sanitize_labels_policy (lit "perfume_root") 2 [lit "perfume_root"] perfumeKinds
           mixedPayload mixedOutput mixed_run).
Defined.

(** X7: when no allowed kind names a member of [Object.prototype], every
    output edge is labelled with a string that is not made of ASCII
    characters only: an English label of the model has given way to the
    Japanese label of the target's kind. *)
Theorem sanitize_edge_labels focusId focusDepth existingElementIds allowedKinds raw out :
  Forall (λ k, k ∉ objectPrototypeKeys) allowedKinds →
  sanitizeExpandResult focusId focusDepth existingElementIds allowedKinds raw = Return out →
  Forall (λ e, ∃ s, e_label e = Text s ∧ looksAsciiOnly s = false) (edges out).
Proof.
  intros Hkinds Hrun.
  assert (∀ n, n ∈ nodes out → n_kind n ∉ objectPrototypeKeys) as Hns.
  { pose proof (sanitize_kinds _ _ _ _ _ _ Hrun) as Hall. intros n Hn.
    rewrite Forall_forall in Hall. destruct (Hall n Hn) as [Hk|[_ ->]].
    - rewrite Forall_forall in Hkinds. auto.
    - refine (bool_decide_unpack _ _). vm_compute. exact I. }
  apply sanitizeExpandResult_Return in Hrun
    as (resolved & model & suppl & _ & _ & Hmodel & Hsuppl & ->).
  apply Forall_app. split.
  - unfold edgesFromModel in Hmodel. inv_bind Hmodel. by eapply mapEdges_labels.
  - apply supplement_Return in Hsuppl as (_ & Hsyn & _).
    eapply Forall_impl; [exact Hsyn|]. intros e (n & Hn & _ & _ & -> & _).
    apply japaneseText_not_ascii, edgeLabelJa_text. auto.
Qed.

Lemma sanitize_edge_labels_witness :
  Forall (λ k, k ∉ objectPrototypeKeys) perfumeKinds ∧
  sanitizeExpandResult (lit "perfume_root") 2 [lit "perfume_root"] perfumeKinds mixedPayload
    = Return mixedOutput ∧
  (Forall (λ e, ∃ s, e_label e = Text s ∧ looksAsciiOnly s = false) (edges mixedOutput)).
Proof.
  assert (Forall (λ k, k ∉ objectPrototypeKeys) perfumeKinds) as Hkinds.
  { refine (bool_decide_unpack _ _). vm_compute. exact I. }
  split; [exact Hkinds|]. split; [exact mixed_run|].
  exact (sanitize_edge_labels (lit "perfume_root") 2 [lit "perfume_root"] perfumeKinds
           mixedPayload mixedOutput Hkinds mixed_run).
Defined.

(** X8: the output edges are the edges taken from the model followed by the
    synthesised ones. The former are, in payload order, entries of the
    payload's [edges] array that name both endpoints and leave the focus;
    the latter are exactly one per output node that none of the former
    enters, in the order of the nodes. No edge comes from the final guard. *)
Theorem sanitize_edges_layout focusId focusDepth existingElementIds allowedKinds raw out :
  sanitizeExpandResult focusId focusDepth existingElementIds allowedKinds raw = Return out →
  ∃ arr entries model suppl,
    arrayOrEmpty (get raw "edges") = Return arr ∧ sublist entries arr ∧
    Forall2 (acceptedFrom focusId) entries model ∧
    Forall2 (synthesized focusId allowedKinds)
            (filter (λ n, n_id n ∉ e_target <$> model) (nodes out)) suppl ∧
    edges out = model ++ suppl.
Proof.
  intros (resolved & model & suppl & _ & _ & Hmodel & Hsuppl & Hedges)%sanitizeExpandResult_Return.
  apply edgesFromModel_accepted in Hmodel as (arr & entries & Harr & Hsub & Hacc).
  apply supplement_exact in Hsuppl.
  exists arr, entries, model.1, suppl.1. repeat split; [done..| |done].
  erewrite list_filter_iff; [exact Hsuppl|]. intros n. simpl. by rewrite elem_of_list_to_set.
Qed.

Lemma sanitize_edges_layout_witness :
  sanitizeExpandResult (lit "perfume_root") 2 [lit "perfume_root"] perfumeKinds mixedPayload
    = Return mixedOutput ∧
  (∃ arr entries model suppl,
    arrayOrEmpty (get mixedPayload "edges") = Return arr ∧ sublist entries arr ∧
    Forall2 (acceptedFrom (lit "perfume_root")) entries model ∧
    Forall2 (synthesized (lit "perfume_root") perfumeKinds)
            (filter (λ n, n_id n ∉ e_target <$> model) (nodes mixedOutput)) suppl ∧
    edges mixedOutput = model ++ suppl).
Proof.
  split; [exact mixed_run|].
  exact (sanitize_edges_layout (lit "perfume_root") 2 [lit "perfume_root"] perfumeKinds
           mixedPayload mixedOutput mixed_run).
Defined.

(** X9: when the ids of the payload's candidates (the trimmed, non-empty
    string ids, in payload order) are pairwise distinct and none of them is
    an existing element id, id resolution renames nothing: the resolved
    candidates carry exactly those ids, and the output node ids are among
    them, in the same order. *)
Theorem sanitize_keeps_fresh_ids focusId focusDepth existingElementIds allowedKinds raw arr out :
  arrayOrEmpty (get raw "nodes") = Return arr →
  NoDup (payloadIds arr) →
  (∀ x, x ∈ payloadIds arr → x ∉ existingElementIds) →
  sanitizeExpandResult focusId focusDepth existingElementIds allowedKinds raw = Return out →
  (∃ resolved,
     resolvedNodes focusDepth existingElementIds allowedKinds raw = Return resolved ∧
     n_id <$> resolved = payloadIds arr) ∧
  sublist (n_id <$> nodes out) (payloadIds arr).
Proof.
  intros Harr Hnd Hnew (resolved & _ & _ & Hres & Hnodes & _)%sanitizeExpandResult_Return.
  pose proof (resolvedNodes_fresh _ _ _ _ _ _ Harr Hnd Hnew Hres) as Hids.
  split; [eauto|]. rewrite <- Hids. apply fmap_sublist. by eapply sanitize_nodes_sublist.
Qed.

Lemma sanitize_keeps_fresh_ids_witness :
  arrayOrEmpty (get mixedPayload "nodes") = Return mixedEntries ∧
  NoDup (payloadIds mixedEntries) ∧
  (∀ x, x ∈ payloadIds mixedEntries → x ∉ [lit "perfume_root"]) ∧
  sanitizeExpandResult (lit "perfume_root") 2 [lit "perfume_root"] perfumeKinds mixedPayload
    = Return mixedOutput ∧
  ((∃ resolved,
     resolvedNodes 2 [lit "perfume_root"] perfumeKinds mixedPayload = Return resolved ∧
     n_id <$> resolved = payloadIds mixedEntries) ∧
  sublist (n_id <$> nodes mixedOutput) (payloadIds mixedEntries)).
Proof.
  assert (NoDup (payloadIds mixedEntries)) as Hnd.
  { refine (bool_decide_unpack _ _). vm_compute. exact I. }
  assert (∀ x, x ∈ payloadIds mixedEntries → x ∉ [lit "perfume_root"]) as Hnew.
  { apply Forall_forall. refine (bool_decide_unpack _ _). vm_compute. exact I. }
  split; [reflexivity|]. split; [exact Hnd|]. split; [exact Hnew|]. split; [exact mixed_run|].
  exact (sanitize_keeps_fresh_ids (lit "perfume_root") 2 [lit "perfume_root"] perfumeKinds
           mixedPayload mixedEntries mixedOutput eq_refl Hnd Hnew mixed_run).
Defined.
End sanitizer_more.

(** * More of [mergeUniqueElements] *)

Section merge_more.
Import Merge.
Context {D : Type}.
Implicit Types (els prev incoming : list (element D)).

Lemma idsIn_cons edge (el : element D) els :
  idsIn edge (el :: els)
  = if decide (el_hasSource el = edge) then el_id el :: idsIn edge els else idsIn edge els.
Proof. unfold idsIn. rewrite filter_cons. by case_decide. Qed.

Lemma pushed_sublist nodeIds edgeIds incoming : sublist (pushed nodeIds edgeIds incoming) incoming.
Proof.
  revert nodeIds edgeIds. induction incoming as [|el incoming IH]; intros nodeIds edgeIds; simpl.
  { constructor. }
  destruct (el_hasSource el); case_decide; by constructor.
Qed.

(** The ids the loop pushes are new for their sort, and pairwise distinct. *)
Lemma pushed_NoDup edge nodeIds edgeIds incoming :
  NoDup (idsIn edge (pushed nodeIds edgeIds incoming)) ∧
  ∀ x, x ∈ idsIn edge (pushed nodeIds edgeIds incoming) →
       x ∉ (if edge then edgeIds else nodeIds).
Proof.
  revert nodeIds edgeIds. induction incoming as [|el incoming IH]; intros nodeIds edgeIds; simpl.
  { split; [constructor | by intros x ?%elem_of_nil]. }
  destruct (el_hasSource el) eqn:Hsort; case_decide as Hknown; try apply IH.
  - destruct (IH nodeIds ({[el_id el]} ∪ edgeIds)) as [Hnd Hnew].
    rewrite idsIn_cons, Hsort. destruct edge; simpl.
    + split; [constructor; [|done]; intros Hin; apply Hnew in Hin; set_solver|].
      intros x [->|Hx]%elem_of_cons; [done|]. apply Hnew in Hx. set_solver.
    + done.
  - destruct (IH ({[el_id el]} ∪ nodeIds) edgeIds) as [Hnd Hnew].
    rewrite idsIn_cons, Hsort. destruct edge; simpl.
    + done.
    + split; [constructor; [|done]; intros Hin; apply Hnew in Hin; set_solver|].
      intros x [->|Hx]%elem_of_cons; [done|]. apply Hnew in Hx. set_solver.
Qed.

(** Every element is pushed when the ids of each sort are new and pairwise
    distinct. *)
Lemma pushed_all nodeIds edgeIds incoming :
  NoDup (idsIn false incoming) → NoDup (idsIn true incoming) →
  (∀ x, x ∈ idsIn false incoming → x ∉ nodeIds) →
  (∀ x, x ∈ idsIn true incoming → x ∉ edgeIds) →
  pushed nodeIds edgeIds incoming = incoming.
Proof.
  revert nodeIds edgeIds. induction incoming as [|el incoming IH];
    intros nodeIds edgeIds Hn He Hnew_n Hnew_e; simpl; [done|].
  rewrite !idsIn_cons in *. destruct (el_hasSource el) eqn:Hsort; simpl in *.
  - apply NoDup_cons in He as [Hel He]. rewrite decide_False by (apply Hnew_e; by left).
    f_equal. apply IH; [done..|].
    intros x Hx. assert (x ≠ el_id el) by (by intros ->).
    specialize (Hnew_e x (list_elem_of_further _ _ _ Hx)). set_solver.
  - apply NoDup_cons in Hn as [Hel Hn]. rewrite decide_False by (apply Hnew_n; by left).
    f_equal. apply IH; [done..| |done].
    intros x Hx. assert (x ≠ el_id el) by (by intros ->).
    specialize (Hnew_n x (list_elem_of_further _ _ _ Hx)). set_solver.
Qed.

(** X10: [mergeUniqueElements] keeps [prev] as it is and appends elements
    of [incoming] in their order; every incoming element has an element of
    its sort (node or edge) with its id in the result. *)
Theorem mergeUniqueElements_appends prev incoming :
  ∃ added,
    mergeUniqueElements prev incoming = prev ++ added ∧
    sublist added incoming ∧
    ∀ el, el ∈ incoming →
      ∃ el', el' ∈ mergeUniqueElements prev incoming ∧
             el_id el' = el_id el ∧ el_hasSource el' = el_hasSource el.
Proof.
  exists (pushed (idsOf false prev) (idsOf true prev) incoming).
  split; [done|]. split; [apply pushed_sublist|].
  intros el Hel.
  pose proof (pushed_ids (idsOf false prev) (idsOf true prev) incoming el Hel) as Hin.
  assert (el_id el ∈ idsOf (el_hasSource el) (mergeUniqueElements prev incoming)) as Hid.
  { unfold mergeUniqueElements. rewrite idsOf_app. by destruct (el_hasSource el). }
  unfold idsOf in Hid.
  apply elem_of_list_to_set, list_elem_of_fmap in Hid as (el' & Heq & Hel').
  apply list_elem_of_filter in Hel' as [Hsort Hel']. by exists el'.
Qed.

(** X11: when the node ids of [prev] are pairwise distinct and so are its
    edge ids, the same holds of the result of [mergeUniqueElements]. *)
Theorem mergeUniqueElements_unique_ids prev incoming :
  NoDup (idsIn false prev) → NoDup (idsIn true prev) →
  NoDup (idsIn false (mergeUniqueElements prev incoming)) ∧
  NoDup (idsIn true (mergeUniqueElements prev incoming)).
Proof.
  intros Hn He. unfold mergeUniqueElements, idsIn. rewrite !filter_app, !fmap_app.
  split; apply NoDup_app; (split; [done|]); (split; [|eapply pushed_NoDup]).
  - intros x Hx Hin. apply (proj2 (pushed_NoDup false _ _ incoming)) in Hin.
    apply Hin. by apply elem_of_list_to_set.
  - intros x Hx Hin. apply (proj2 (pushed_NoDup true _ _ incoming)) in Hin.
    apply Hin. by apply elem_of_list_to_set.
Qed.
End merge_more.

Lemma mergeUniqueElements_unique_ids_witness :
  NoDup (idsIn false shownElements) ∧ NoDup (idsIn true shownElements) ∧
  (NoDup (idsIn false (Merge.mergeUniqueElements shownElements repeatedBatch)) ∧
   NoDup (idsIn true (Merge.mergeUniqueElements shownElements repeatedBatch))).
Proof.
  assert (NoDup (idsIn false shownElements)) as Hn.
  { refine (bool_decide_unpack _ _). vm_compute. exact I. }
  assert (NoDup (idsIn true shownElements)) as He.
  { refine (bool_decide_unpack _ _). vm_compute. exact I. }
  split; [exact Hn|]. split; [exact He|].
  exact (mergeUniqueElements_unique_ids shownElements repeatedBatch Hn He).
Defined.

(** ** The variant with one set of ids *)

Section merge_pending.
Import Merge.
Context {D : Type}.
Implicit Types (els prev incoming : list (element D)).

Lemma pendingPushed_sublist seen incoming : sublist (MergePending.pushed seen incoming) incoming.
Proof.
  revert seen. induction incoming as [|el incoming IH]; intros seen; simpl; [constructor|].
  repeat case_decide; by constructor.
Qed.

Lemma pendingPushed_NoDup seen incoming :
  NoDup (el_id <$> MergePending.pushed seen incoming) ∧
  ∀ el, el ∈ MergePending.pushed seen incoming → (el_id el ∉ seen) ∧ el_id el ≠ [].
Proof.
  revert seen. induction incoming as [|el incoming IH]; intros seen; simpl.
  { split; [constructor | by intros el ?%elem_of_nil]. }
  repeat case_decide; try apply IH.
  destruct (IH ({[el_id el]} ∪ seen)) as [Hnd Hnew]. split.
  - rewrite fmap_cons. constructor; [|done].
    intros (el' & Heq & Hel')%list_elem_of_fmap. apply Hnew in Hel' as [Hel' _]. set_solver.
  - intros el' [->|Hel']%elem_of_cons; [done|]. apply Hnew in Hel' as [Hel' ?]. set_solver.
Qed.

(** X12: the variant with one set of ids keeps [prev] as it is, appends
    elements of [incoming] in their order, none of them with an empty id,
    and keeps the ids of all elements, nodes and edges together, pairwise
    distinct when they are so in [prev]. *)
Theorem mergePending_unique_ids prev incoming :
  NoDup (el_id <$> prev) →
  ∃ added,
    MergePending.mergeUniqueElements prev incoming = prev ++ added ∧
    sublist added incoming ∧
    Forall (λ el, el_id el ≠ []) added ∧
    NoDup (el_id <$> MergePending.mergeUniqueElements prev incoming).
Proof.
  intros Hprev. exists (MergePending.pushed (list_to_set (el_id <$> prev)) incoming).
  destruct (pendingPushed_NoDup (list_to_set (el_id <$> prev)) incoming) as [Hnd Hnew].
  split; [done|]. split; [apply pendingPushed_sublist|]. split.
  - apply Forall_forall. intros el Hel. by apply Hnew in Hel as [_ ?].
  - unfold MergePending.mergeUniqueElements. rewrite fmap_app. apply NoDup_app.
    split; [done|]. split; [|done].
    intros x Hx (el & -> & Hel)%list_elem_of_fmap. apply Hnew in Hel as [Hel _].
    apply Hel. by apply elem_of_list_to_set.
Qed.

(** The invariant that relates the two loops: an id known to the loop with
    two sets is empty or known to the loop with one. *)
Lemma pendingPushed_sublist_pushed seen nodeIds edgeIds incoming :
  (∀ x, x ∈ nodeIds ∪ edgeIds → x = [] ∨ x ∈ seen) →
  sublist (MergePending.pushed seen incoming) (pushed nodeIds edgeIds incoming).
Proof.
  revert seen nodeIds edgeIds.
  induction incoming as [|el incoming IH]; intros seen nodeIds edgeIds Hinv; simpl; [constructor|].
  destruct (decide (el_id el = [])) as [Hempty|Hid].
  { destruct (el_hasSource el); case_decide; try (by apply IH);
      apply sublist_cons, IH; intros x Hx; set_solver. }
  destruct (decide (el_id el ∈ seen)) as [Hseen|Hnew].
  { destruct (el_hasSource el); case_decide; try (by apply IH);
      apply sublist_cons, IH; intros x Hx; set_solver. }
  assert (el_id el ∉ nodeIds ∪ edgeIds) as Hfresh.
  { intros Hin. by destruct (Hinv _ Hin). }
  destruct (el_hasSource el); rewrite decide_False by set_solver;
    apply sublist_skip, IH; intros x Hx; set_solver.
Qed.

(** X13: whatever the variant with one set of ids appends, the variant with
    a set for the nodes and a set for the edges appends as well, in the same
    order. *)
Theorem mergePending_appends_less prev incoming :
  ∃ added added',
    MergePending.mergeUniqueElements prev incoming = prev ++ added ∧
    mergeUniqueElements prev incoming = prev ++ added' ∧
    sublist added added'.
Proof.
  eexists _, _. split; [done|]. split; [done|].
  apply pendingPushed_sublist_pushed. intros x Hx. right.
  rewrite elem_of_list_to_set. unfold idsOf in Hx.
  apply elem_of_union in Hx as [Hx|Hx];
    apply elem_of_list_to_set, list_elem_of_fmap in Hx as (el & -> & Hel);
    apply list_elem_of_filter in Hel as [_ Hel]; by apply list_elem_of_fmap_2.
Qed.

Lemma pendingPushed_all seen incoming :
  NoDup (el_id <$> incoming) →
  (∀ el, el ∈ incoming → (el_id el ∉ seen) ∧ el_id el ≠ []) →
  MergePending.pushed seen incoming = incoming.
Proof.
  revert seen. induction incoming as [|el incoming IH]; intros seen Hnd Hnew; simpl; [done|].
  rewrite fmap_cons in Hnd. apply NoDup_cons in Hnd as [Hel Hnd].
  destruct (Hnew el) as [Hseen Hid]; [by left|].
  rewrite !decide_False by done. f_equal. apply IH; [done|].
  intros el' Hel'. destruct (Hnew el') as [? ?]; [by right|]. split; [|done].
  assert (el_id el' ≠ el_id el).
  { intros Heq. apply Hel. rewrite <- Heq. by apply list_elem_of_fmap_2. }
  set_solver.
Qed.
End merge_pending.

Lemma mergePending_unique_ids_witness :
  NoDup (Merge.el_id <$> shownElements) ∧
  (∃ added,
    MergePending.mergeUniqueElements shownElements repeatedBatch = shownElements ++ added ∧
    sublist added repeatedBatch ∧
    Forall (λ el, Merge.el_id el ≠ []) added ∧
    NoDup (Merge.el_id <$> MergePending.mergeUniqueElements shownElements repeatedBatch)).
Proof.
  assert (NoDup (Merge.el_id <$> shownElements)) as Hprev.
  { refine (bool_decide_unpack _ _). vm_compute. exact I. }
  split; [exact Hprev|].
  exact (mergePending_unique_ids shownElements repeatedBatch Hprev).
Defined.

(** The two variants on a batch in which an edge has the id of a node: the
    variant with one set drops the edge. *)
Example merge_variants_differ :
  Merge.mergeUniqueElements shownElements repeatedBatch
  = shownElements ++ [Merge.mkElement (lit "b") false (); Merge.mkElement (lit "a--b--auto") true ();
                      Merge.mkElement (lit "b") true ()] ∧
  MergePending.mergeUniqueElements shownElements repeatedBatch
  = shownElements ++ [Merge.mkElement (lit "b") false (); Merge.mkElement (lit "a--b--auto") true ()].
Proof. split; vm_compute; reflexivity. Qed.

(** * The sanitiser's answer in the client's merge *)

Section sanitized_batch.
Import Expand Merge.
Context {D : Type}.
Variables (nodeData : Node → D) (edgeData : Edge → D).

Lemma sanitizeExpandResult_ids focusId focusDepth existingElementIds allowedKinds raw out :
  sanitizeExpandResult focusId focusDepth existingElementIds allowedKinds raw = Return out →
  NoDup (n_id <$> nodes out) ∧ NoDup (e_id <$> edges out) ∧
  Forall (λ n, n_id n ≠ []) (nodes out) ∧
  ∀ id, id ∈ (n_id <$> nodes out) ++ (e_id <$> edges out) → id ∉ existingElementIds.
Proof.
  intros (resolved & model & suppl & Hres & Hnodes & Hmodel & Hsuppl & Hedges)%sanitizeExpandResult_Return.
  pose proof (sanitize_nodes_sublist _ _ _ _ _ _ Hres Hnodes) as Hsub.
  apply resolvedNodes_Return in Hres as (Hnd & Hnew & _ & Hne).
  apply edgesFromModel_Return in Hmodel as (Hfresh1 & _).
  apply supplement_Return in Hsuppl as (Hfresh2 & _).
  destruct (fresh_ids_app _ _ _ _ _ Hfresh1 Hfresh2) as (Hnd_e & Hnew_e & _).
  rewrite Hedges, fmap_app.
  split; [exact (sublist_NoDup _ _ Hnd (fmap_sublist _ _ _ Hsub))|]. split; [done|].
  split; [by eapply Forall_sublist|].
  intros id [Hid|Hid]%elem_of_app.
  - apply Hnew. eapply elem_of_sublist; [exact Hid | by apply fmap_sublist].
  - intros Hex. apply (Hnew_e id Hid). by apply elem_of_list_to_set.
Qed.

Lemma idsIn_incomingOf out :
  idsIn false (incomingOf nodeData edgeData out) = n_id <$> nodes out ∧
  idsIn true (incomingOf nodeData edgeData out) = e_id <$> edges out.
Proof.
  unfold idsIn, incomingOf. rewrite !filter_app, !fmap_app.
  assert (∀ ns : list Node,
    filter (λ el : element D, el_hasSource el = false)
      ((λ n, mkElement (n_id n) false (nodeData n)) <$> ns)
    = (λ n, mkElement (n_id n) false (nodeData n)) <$> ns) as Hn1.
  { intros ns. induction ns as [|n ns IH]; [done|]. rewrite fmap_cons, filter_cons_True by done.
    by rewrite IH. }
  assert (∀ ns : list Node,
    filter (λ el : element D, el_hasSource el = true)
      ((λ n, mkElement (n_id n) false (nodeData n)) <$> ns) = []) as Hn2.
  { intros ns. induction ns as [|n ns IH]; [done|]. by rewrite fmap_cons, filter_cons_False. }
  assert (∀ es : list Edge,
    filter (λ el : element D, el_hasSource el = true)
      ((λ e, mkElement (e_id e) true (edgeData e)) <$> es)
    = (λ e, mkElement (e_id e) true (edgeData e)) <$> es) as He1.
  { intros es. induction es as [|e es IH]; [done|]. rewrite fmap_cons, filter_cons_True by done.
    by rewrite IH. }
  assert (∀ es : list Edge,
    filter (λ el : element D, el_hasSource el = false)
      ((λ e, mkElement (e_id e) true (edgeData e)) <$> es) = []) as He2.
  { intros es. induction es as [|e es IH]; [done|]. by rewrite fmap_cons, filter_cons_False. }
  rewrite Hn1, Hn2, He1, He2, app_nil_r. simpl. by rewrite <- !list_fmap_compose.
Qed.

Lemma ids_incomingOf out :
  el_id <$> incomingOf nodeData edgeData out = (n_id <$> nodes out) ++ (e_id <$> edges out).
Proof. unfold incomingOf. by rewrite fmap_app, <- !list_fmap_compose. Qed.

(** X14: when the ids handed to the sanitiser as [existingElementIds]
    include the id of every element the client holds, [mergeUniqueElements]
    (with a set for the nodes and a set for the edges) appends every node
    and every edge of the sanitiser's answer. *)
Theorem merge_takes_sanitized focusId focusDepth existingElementIds allowedKinds raw out
    (prev : list (element D)) :
  sanitizeExpandResult focusId focusDepth existingElementIds allowedKinds raw = Return out →
  (∀ el, el ∈ prev → el_id el ∈ existingElementIds) →
  mergeUniqueElements prev (incomingOf nodeData edgeData out)
  = prev ++ incomingOf nodeData edgeData out.
Proof.
  intros (Hn & He & _ & Hnew)%sanitizeExpandResult_ids Hprev.
  unfold mergeUniqueElements. f_equal.
  destruct (idsIn_incomingOf out) as [Hids_n Hids_e].
  assert (∀ edge x, x ∈ idsOf edge prev → x ∈ existingElementIds) as Hknown.
  { intros edge x Hx. unfold idsOf in Hx.
    apply elem_of_list_to_set, list_elem_of_fmap in Hx as (el & -> & Hel).
    apply list_elem_of_filter in Hel as [_ Hel]. auto. }
  apply pushed_all; rewrite ?Hids_n, ?Hids_e; [done..| |].
  - intros x Hx Hin. apply (Hnew x); [|by eapply Hknown]. apply elem_of_app. by left.
  - intros x Hx Hin. apply (Hnew x); [|by eapply Hknown]. apply elem_of_app. by right.
Qed.

(** X15: the variant with one set of ids appends every node and every edge
    of the sanitiser's answer when, besides, no edge of the answer has the
    id of one of its nodes and no edge has an empty id. *)
Theorem mergePending_takes_sanitized focusId focusDepth existingElementIds allowedKinds raw out
    (prev : list (element D)) :
  sanitizeExpandResult focusId focusDepth existingElementIds allowedKinds raw = Return out →
  (∀ el, el ∈ prev → el_id el ∈ existingElementIds) →
  (∀ n e, n ∈ nodes out → e ∈ edges out → n_id n ≠ e_id e) →
  Forall (λ e, e_id e ≠ []) (edges out) →
  MergePending.mergeUniqueElements prev (incomingOf nodeData edgeData out)
  = prev ++ incomingOf nodeData edgeData out.
Proof.
  intros (Hn & He & Hne & Hnew)%sanitizeExpandResult_ids Hprev Hapart Hids.
  unfold MergePending.mergeUniqueElements. f_equal. apply pendingPushed_all.
  - rewrite ids_incomingOf. apply NoDup_app. split; [done|]. split; [|done].
    intros x (n & -> & Hin_n)%list_elem_of_fmap (e & Heq & Hin_e)%list_elem_of_fmap.
    by apply (Hapart n e).
  - intros el Hel. split.
    + rewrite elem_of_list_to_set. intros (el' & Heq & Hel')%list_elem_of_fmap.
      apply (Hnew (el_id el)); [|rewrite Heq; auto].
      rewrite <- ids_incomingOf. by apply list_elem_of_fmap_2.
    + unfold incomingOf in Hel. rewrite Forall_forall in Hne. rewrite Forall_forall in Hids.
      apply elem_of_app in Hel as [(n & -> & Hin)%list_elem_of_fmap|(e & -> & Hin)%list_elem_of_fmap];
        simpl; auto.
Qed.
End sanitized_batch.

Section sanitized_batch_examples.
Import Expand Merge.

Lemma merge_takes_sanitized_witness :
  sanitizeExpandResult (lit "root") 0 [lit "root"] scenarioKinds scenarioPayload
    = Return scenarioOutput ∧
  (∀ el, el ∈ [mkElement (lit "root") false ()] → el_id el ∈ [lit "root"]) ∧
  Merge.mergeUniqueElements [mkElement (lit "root") false ()]
    (incomingOf (λ _, ()) (λ _, ()) scenarioOutput)
  = [mkElement (lit "root") false ()] ++ incomingOf (λ _, ()) (λ _, ()) scenarioOutput.
Proof.
  assert (∀ el, el ∈ [mkElement (lit "root") false ()] → el_id el ∈ [lit "root"])
    as Hprev.
  { intros el ->%list_elem_of_singleton. by left. }
  split; [exact scenario_run|]. split; [exact Hprev|].
  exact (merge_takes_sanitized (λ _, ()) (λ _, ()) (lit "root") 0 [lit "root"] scenarioKinds
           scenarioPayload scenarioOutput [mkElement (lit "root") false ()]
           scenario_run Hprev).
Defined.

Lemma mergePending_takes_sanitized_witness :
  sanitizeExpandResult (lit "root") 0 [lit "root"] scenarioKinds scenarioPayload
    = Return scenarioOutput ∧
  (∀ el, el ∈ [mkElement (lit "root") false ()] → el_id el ∈ [lit "root"]) ∧
  (∀ n e, n ∈ nodes scenarioOutput → e ∈ edges scenarioOutput →
          n_id n ≠ e_id e) ∧
  Forall (λ e, e_id e ≠ []) (edges scenarioOutput) ∧
  MergePending.mergeUniqueElements [mkElement (lit "root") false ()]
    (incomingOf (λ _, ()) (λ _, ()) scenarioOutput)
  = [mkElement (lit "root") false ()] ++ incomingOf (λ _, ()) (λ _, ()) scenarioOutput.
Proof.
  assert (∀ el, el ∈ [mkElement (lit "root") false ()] → el_id el ∈ [lit "root"])
    as Hprev.
  { intros el ->%list_elem_of_singleton. by left. }
  assert (∀ n e, n ∈ nodes scenarioOutput → e ∈ edges scenarioOutput →
                 n_id n ≠ e_id e) as Hapart.
  { intros n e Hn He. revert n Hn. apply Forall_forall. revert e He. apply Forall_forall.
    refine (bool_decide_unpack _ _). vm_compute. exact I. }
  assert (Forall (λ e, e_id e ≠ []) (edges scenarioOutput)) as Hids.
  { refine (bool_decide_unpack _ _). vm_compute. exact I. }
  split; [exact scenario_run|]. split; [exact Hprev|]. split; [exact Hapart|].
  split; [exact Hids|].
  exact (mergePending_takes_sanitized (λ _, ()) (λ _, ()) (lit "root") 0 [lit "root"]
           scenarioKinds scenarioPayload scenarioOutput [mkElement (lit "root") false ()]
           scenario_run Hprev Hapart Hids).
Defined.
End sanitized_batch_examples.

(** * More of the layout *)

(** ** The collision loop of the fan *)

Section collision_loop.
Import Cy Layout.
Context {num : Type} `{JsRuntime num}.
Local Open Scope js_scope.

Lemma ok_clearOf (cy : core num) id x y : ok cy id x y = true ↔ clearOf cy id (mkPos x y).
Proof.
  unfold ok, clearOf. rewrite forallb_forall. simpl. split.
  - intros Hall n Hn Hid. apply list_elem_of_In, Hall in Hn.
    apply orb_true_iff in Hn as [Heq|Hfar]; [by apply bool_decide_eq_true in Heq|].
    by apply negb_true_iff.
  - intros Hall n Hn. apply list_elem_of_In in Hn.
    destruct (decide (node_id n = id)) as [Heq|Hne].
    + by rewrite bool_decide_eq_true_2.
    + rewrite (Hall n Hn Hne). by rewrite orb_true_r.
Qed.

Lemma pushForward_spec k (cy : core num) id dx dy x y :
  ∃ j, (j ≤ k)%nat ∧
    pushForward k cy id dx dy x y = pushedTo j dx dy x y ∧
    (∀ i, (i < j)%nat → ¬ clearOf cy id (pushedTo i dx dy x y)) ∧
    ((j < k)%nat → clearOf cy id (pushedTo j dx dy x y)).
Proof.
  revert x y. induction k as [|k IH]; intros x y; simpl.
  { exists 0%nat. split; [lia|]. split; [done|]. split; intros; lia. }
  destruct (ok cy id x y) eqn:Hok.
  - exists 0%nat. split; [lia|]. split; [done|]. split; [intros; lia|].
    intros _. by apply ok_clearOf.
  - destruct (IH (x + dx * #40) (y + dy * #40)) as (j & Hj & Heq & Hbusy & Hclear).
    exists (S j). split; [lia|]. split; [done|]. split.
    + intros [|i] Hi; simpl.
      * rewrite <- ok_clearOf. by rewrite Hok.
      * apply Hbusy. lia.
    + intros Hlt. apply Hclear. lia.
Qed.

(** X16: the collision loop of the fan puts a child on the first of the
    candidate positions (the computed one, then pushed 40 along the
    direction, up to seven times) that is at least 62 away from every other
    node; when none of the eight is, the child is pushed an eighth time and
    put there unchecked. *)
Theorem pushForward_first_clear (cy : core num) id dx dy x y :
  ∃ j, (j ≤ 8)%nat ∧
    pushForward 8 cy id dx dy x y = pushedTo j dx dy x y ∧
    (∀ i, (i < j)%nat → ¬ clearOf cy id (pushedTo i dx dy x y)) ∧
    ((j < 8)%nat → clearOf cy id (pushedTo j dx dy x y)).
Proof. apply pushForward_spec. Qed.
End collision_loop.

(** ** Ring placement reads ids and depths only *)

Section last_slot.
Import Cy.
Context {num : Type} `{JsRuntime num}.
Implicit Types (ops : list (jsstring * position num)) (n : node num).

Lemma lastSlot_app ops1 ops2 id :
  lastSlot (ops1 ++ ops2) id
  = match lastSlot ops2 id with Some p => Some p | None => lastSlot ops1 id end.
Proof.
  induction ops1 as [|op ops1 IH]; simpl; [by destruct (lastSlot ops2 id)|].
  rewrite IH. by destruct (lastSlot ops2 id).
Qed.

(** A node ends where the last assignment that names it puts it. *)
Lemma movedBy_lastSlot ops n :
  movedBy ops n = match lastSlot ops (node_id n) with
                  | Some p => mkNode (node_id n) (node_depth n) p
                  | None => n
                  end.
Proof.
  revert n. induction ops as [|op ops IH]; intros n; simpl; [done|].
  rewrite IH, moved_id, moved_depth. destruct (lastSlot ops (node_id n)); [done|].
  unfold moved. by repeat case_decide.
Qed.
End last_slot.

Section ring_reads_skeleton.
Import Cy Layout.
Context {num : Type} `{JsRuntime num}.
Implicit Types (cy : core num) (sk : list (jsstring * Z)).
Local Open Scope js_scope.

Lemma depthOrder_consistent : consistentComparator (λ a b : Z, (a - b)%Z).
Proof. split; intros; lia. Qed.

Lemma ringSlots_ids radius count ids i : (ringSlots radius count ids i).*1 = ids.
Proof. revert i. induction ids as [|id ids IH]; intros i; simpl; [done|]. by rewrite IH. Qed.

Lemma levelSlots_ids sk depth id :
  id ∈ (levelSlots sk depth).*1 ↔ (id, depth) ∈ sk.
Proof.
  assert (id ∈ fst <$> filter (λ m : jsstring * Z, m.2 = depth) sk ↔ (id, depth) ∈ sk) as Hmem.
  { rewrite list_elem_of_fmap. split.
    - intros ([id' d] & -> & [Hd Hin]%list_elem_of_filter). simpl in *. by subst.
    - intros Hin. exists (id, depth). split; [done|]. by apply list_elem_of_filter. }
  unfold levelSlots. case_decide.
  - rewrite <- list_fmap_compose, <- Hmem. clear Hmem.
    generalize (fst <$> filter (λ m : jsstring * Z, m.2 = depth) sk). intros l.
    assert ((fst ∘ (λ id0 : jsstring, (id0, mkPos #0 #0))) <$> l = l) as ->; [|done].
    induction l as [|a l IH]; [done|]. rewrite fmap_cons. simpl. by rewrite IH.
  - by rewrite ringSlots_ids, sortBy_Permutation.
Qed.

(** The slots of a level do not depend on the order of the nodes, as far as
    the last slot of an id goes. *)
Lemma levelSlots_Permutation sk1 sk2 depth id :
  consistentComparator localeCompare →
  (∀ a b, a ∈ sk1.*1 → b ∈ sk1.*1 → localeCompare a b = 0%Z → a = b) →
  sk1 ≡ₚ sk2 →
  lastSlot (levelSlots sk1 depth) id = lastSlot (levelSlots sk2 depth) id.
Proof.
  intros Hcmp Hties Hperm.
  assert (fst <$> filter (λ m : jsstring * Z, m.2 = depth) sk1
          ≡ₚ fst <$> filter (λ m : jsstring * Z, m.2 = depth) sk2) as Hmembers.
  { by rewrite Hperm. }
  unfold levelSlots. case_decide as Hdepth.
  - assert (∀ ids : list jsstring,
      lastSlot ((λ id0, (id0, mkPos #0 #0)) <$> ids) id
      = if decide (id ∈ ids) then Some (mkPos #0 #0) else None) as Hcentre.
    { induction ids as [|a ids IH]; [done|]. rewrite fmap_cons. cbn [lastSlot fst snd].
      rewrite IH. repeat case_decide; set_solver. }
    rewrite !Hcentre. repeat case_decide; try done.
    + exfalso. by rewrite <- Hmembers in *.
    + exfalso. by rewrite Hmembers in *.
  - rewrite (Permutation_length Hmembers).
    assert (sortBy localeCompare (fst <$> filter (λ m : jsstring * Z, m.2 = depth) sk1)
            = sortBy localeCompare (fst <$> filter (λ m : jsstring * Z, m.2 = depth) sk2)) as ->;
      [|done].
    apply sortBy_order_independent; [done| |done].
    intros a b Ha Hb. apply Hties.
    + apply list_elem_of_fmap in Ha as (m & -> & [_ Hm]%list_elem_of_filter).
      by apply list_elem_of_fmap_2.
    + apply list_elem_of_fmap in Hb as (m & -> & [_ Hm]%list_elem_of_filter).
      by apply list_elem_of_fmap_2.
Qed.

Lemma allSlots_Permutation sk1 sk2 id :
  consistentComparator localeCompare →
  (∀ a b, a ∈ sk1.*1 → b ∈ sk1.*1 → localeCompare a b = 0%Z → a = b) →
  sk1 ≡ₚ sk2 →
  lastSlot (allSlots sk1) id = lastSlot (allSlots sk2) id.
Proof.
  intros Hcmp Hties Hperm. unfold allSlots.
  assert (sortBy (λ a b : Z, (a - b)%Z) (remove_dups (sk1.*2))
          = sortBy (λ a b : Z, (a - b)%Z) (remove_dups (sk2.*2))) as ->.
  { apply sortBy_order_independent; [apply depthOrder_consistent | intros; lia|].
    apply NoDup_Permutation; [apply NoDup_remove_dups..|].
    intros d. rewrite !elem_of_remove_dups. by rewrite Hperm. }
  induction (sortBy _ _) as [|d ds IH]; [done|].
  rewrite !fmap_cons. simpl. rewrite !lastSlot_app, IH.
  by rewrite (levelSlots_Permutation sk1 sk2 d id Hcmp Hties Hperm).
Qed.

(** Every node is named by a slot of its level. *)
Lemma allSlots_ids sk id depth : (id, depth) ∈ sk → id ∈ (allSlots sk).*1.
Proof.
  intros Hin. unfold allSlots.
  assert (depth ∈ sortBy (λ a b : Z, (a - b)%Z) (remove_dups (sk.*2))) as Hd.
  { rewrite sortBy_Permutation, elem_of_remove_dups.
    apply list_elem_of_fmap. by exists (id, depth). }
  induction (sortBy _ _) as [|d ds IH]; [by apply elem_of_nil in Hd|].
  rewrite fmap_cons. simpl. rewrite fmap_app, elem_of_app.
  apply elem_of_cons in Hd as [<-|Hd]; [left; by apply levelSlots_ids | right; auto].
Qed.

(** The node that ring placement makes of an entry of the skeleton. *)
Lemma computeRingPositions_nodes cy :
  nodes (computeRingPositions cy)
  = (λ e, movedBy (allSlots (skeleton cy)) (mkNode e.1 e.2 (mkPos #0 #0))) <$> skeleton cy.
Proof.
  rewrite computeRingPositions_assign, assign_nodes. simpl.
  assert (∀ id depth, (id, depth) ∈ skeleton cy → id ∈ (allSlots (skeleton cy)).*1) as Hnamed.
  { intros id depth. apply allSlots_ids. }
  revert Hnamed. generalize (allSlots (skeleton cy)). intros ops Hnamed. unfold skeleton in *.
  rewrite <- list_fmap_compose. apply list_fmap_ext. intros i n Hn. simpl.
  apply movedBy_position; [done..|].
  apply (Hnamed _ (node_depth n)).
  apply list_elem_of_fmap. exists n. split; [done|]. by eapply list_elem_of_lookup_2.
Qed.

(** X17: ring placement reads the ids and depths of the nodes and nothing
    else: two graphs that hold nodes with the same ids and depths, in any
    order and at any positions, end with the same nodes at the same
    positions, when [localeCompare] is a consistent comparator that ties no
    two distinct ids. *)
Theorem computeRingPositions_reads_skeleton cy1 cy2 :
  consistentComparator localeCompare →
  (∀ a b, a ∈ node_id <$> nodes cy1 → b ∈ node_id <$> nodes cy1 →
          localeCompare a b = 0%Z → a = b) →
  skeleton cy1 ≡ₚ skeleton cy2 →
  nodes (computeRingPositions cy1) ≡ₚ nodes (computeRingPositions cy2).
Proof.
  intros Hcmp Hties Hperm. rewrite !computeRingPositions_nodes.
  assert ((skeleton cy1).*1 = node_id <$> nodes cy1) as Hids.
  { unfold skeleton. by rewrite <- list_fmap_compose. }
  rewrite <- Hids in Hties.
  etrans; [|by apply fmap_Permutation].
  apply eq_subrelation; [apply _|]. apply list_fmap_ext. intros i e _.
  rewrite !movedBy_lastSlot. simpl.
  by rewrite (allSlots_Permutation _ _ e.1 Hcmp Hties Hperm).
Qed.
End ring_reads_skeleton.

Section ring_examples.
Import Cy RealRuntime RealShuffled.

Lemma computeRingPositions_reads_skeleton_witness :
  consistentComparator (@localeCompare _ real_runtime) ∧
  (∀ a b, a ∈ node_id <$> nodes ringBefore → b ∈ node_id <$> nodes ringBefore →
          @localeCompare _ real_runtime a b = 0%Z → a = b) ∧
  skeleton ringBefore ≡ₚ skeleton ringShuffled ∧
  nodes (Layout.computeRingPositions ringBefore)
  ≡ₚ nodes (Layout.computeRingPositions ringShuffled).
Proof.
  assert (∀ a b, a ∈ node_id <$> nodes ringBefore → b ∈ node_id <$> nodes ringBefore →
                 @localeCompare _ real_runtime a b = 0%Z → a = b) as Hties.
  { intros a b _ _. apply compareUnits_tie. }
  assert (skeleton ringBefore ≡ₚ skeleton ringShuffled) as Hperm.
  { unfold skeleton, ringBefore, ringShuffled. simpl. constructor. apply Permutation_swap. }
  split; [exact compareUnits_consistent|]. split; [exact Hties|]. split; [exact Hperm|].
  exact (computeRingPositions_reads_skeleton ringBefore ringShuffled
           compareUnits_consistent Hties Hperm).
Defined.
End ring_examples.

(** ** The frame of the layout *)

Section ring_frame.
Import Cy Layout.
Context {num : Type} `{JsRuntime num}.
Implicit Types (cy : core num) (sk : list (jsstring * Z)).
Local Open Scope js_scope.

Lemma lastSlot_None (ops : list (jsstring * position num)) id :
  id ∉ ops.*1 → lastSlot ops id = None.
Proof.
  induction ops as [|op ops IH]; [done|]. rewrite fmap_cons, not_elem_of_cons.
  intros [Hne Hout]. cbn [lastSlot]. rewrite IH by done. by rewrite decide_False.
Qed.

Lemma lastSlot_centre (ids : list jsstring) id :
  id ∈ ids → lastSlot ((λ id0, (id0, mkPos #0 #0)) <$> ids) id = Some (mkPos #0 #0).
Proof.
  induction ids as [|a ids IH]; [by intros ?%elem_of_nil|].
  rewrite fmap_cons. cbn [lastSlot fst snd]. intros Hin.
  destruct (decide (id ∈ ids)) as [Hids|Hids]; [by rewrite IH|].
  apply elem_of_cons in Hin as [->|]; [|done].
  rewrite lastSlot_None, decide_True; [done..|].
  rewrite <- list_fmap_compose. 
  assert ((fst ∘ (λ id0 : jsstring, (id0, mkPos #0 #0))) <$> ids = ids) as ->; [|done].
  clear. induction ids as [|b l IH]; [done|]. rewrite fmap_cons. simpl. by rewrite IH.
Qed.

(** An id that the skeleton has at depth 0 only gets the centre. *)
Lemma allSlots_centre sk id :
  (id, 0%Z) ∈ sk → (∀ d, (id, d) ∈ sk → d = 0%Z) →
  lastSlot (allSlots sk) id = Some (mkPos #0 #0).
Proof.
  intros Hin Hzero. unfold allSlots.
  assert (0%Z ∈ sortBy (λ a b : Z, (a - b)%Z) (remove_dups (sk.*2))) as Hd.
  { rewrite sortBy_Permutation, elem_of_remove_dups.
    apply list_elem_of_fmap. by exists (id, 0%Z). }
  induction (sortBy _ _) as [|d ds IH]; [by apply elem_of_nil in Hd|].
  rewrite fmap_cons. simpl. rewrite lastSlot_app.
  destruct (decide (0%Z ∈ ds)) as [Hds|Hds]; [by rewrite IH|].
  apply elem_of_cons in Hd as [<-|]; [|done].
  assert (lastSlot (mjoin (levelSlots sk <$> ds)) id = None) as ->.
  { apply lastSlot_None. clear IH. induction ds as [|d ds IH]; [by intros ?%elem_of_nil|].
    apply not_elem_of_cons in Hds as [Hne Hds].
    rewrite fmap_cons. simpl. rewrite fmap_app, elem_of_app. intros [Hlevel|Hrest].
    - apply levelSlots_ids, Hzero in Hlevel. congruence.
    - by apply IH. }
  unfold levelSlots. rewrite decide_True by done. apply lastSlot_centre.
  apply list_elem_of_fmap. exists (id, 0%Z). split; [done|]. by apply list_elem_of_filter.
Qed.

(** Ring placement on the root and a batch: the nodes outside the batch are
    put on the centre, where the root is from the start. *)
Lemma computeRingPositions_frame cy batch :
  rootAndBatch batch cy →
  Forall2 (keptOrCentred batch) (nodes cy) (nodes (computeRingPositions cy)).
Proof.
  intros Hroot. rewrite computeRingPositions_assign, assign_nodes. simpl.
  apply Forall2_fmap_r, Forall_Forall2_diag, Forall_forall. intros n Hn.
  split; [apply movedBy_id|]. split; [apply movedBy_depth|]. intros Hout.
  rewrite movedBy_lastSlot, allSlots_centre.
  - simpl. split; [done|]. intros <-. by destruct n.
  - rewrite <- (Hroot n Hn Hout). apply list_elem_of_fmap. by exists n.
  - intros d (m & [= Hid ->] & Hm)%list_elem_of_fmap. apply Hroot; [done|]. by rewrite <- Hid.
Qed.
End ring_frame.

Section layout_frame_contract.
Import Cy.

(** C9. Ring placement runs when the root is expanded, on the root and the
    batch merged just now: every node keeps its id and depth, the edges are
    the same, and a node outside the batch -- one of depth 0, the root -- is
    put on the centre, and is left as it is when it is there already, as the
    root is since the graph was set up; the same holds after a second run.
    The fan moves the listed children only: after one run,
    and after a second run on the result, every other node is where it was
    and the edges are the same. A second run of ring placement changes
    nothing at all, on any graph: it keeps ids, depths and edges and gives
    every node the position that [allSlots] computes from the ids and depths
    alone. Merging the same batch a second time adds no element. *)
Theorem layout_frame {num} `{JsRuntime num} (cy : core num) (batch : list jsstring) :
  rootAndBatch batch cy →
  (edges (Layout.computeRingPositions cy) = edges cy ∧
   Forall2 (keptOrCentred batch) (nodes cy) (nodes (Layout.computeRingPositions cy)) ∧
   Forall2 (keptOrCentred batch) (nodes cy)
     (nodes (Layout.computeRingPositions (Layout.computeRingPositions cy)))) ∧
  (∀ (g : core num) (focusId : jsstring) (childIds : list jsstring),
     (edges (Layout.placeChildrenForward g focusId childIds) = edges g ∧
      Forall2 (keptOutside childIds) (nodes g)
        (nodes (Layout.placeChildrenForward g focusId childIds))) ∧
     Forall2 (keptOutside childIds) (nodes g)
       (nodes (Layout.placeChildrenForward (Layout.placeChildrenForward g focusId childIds)
                 focusId childIds))) ∧
  (∀ g : core num,
     skeleton (Layout.computeRingPositions g) = skeleton g ∧
     edges (Layout.computeRingPositions g) = edges g ∧
     Layout.computeRingPositions g = assign (allSlots (skeleton g)) g ∧
     Layout.computeRingPositions (Layout.computeRingPositions g) = Layout.computeRingPositions g) ∧
  (∀ D (prev incoming : list (Merge.element D)),
     Merge.mergeUniqueElements (Merge.mergeUniqueElements prev incoming) incoming
     = Merge.mergeUniqueElements prev incoming).
Proof.
  intros Hroot. split; [|split; [|split]].
  - split; [rewrite computeRingPositions_assign; apply assign_edges|].
    split; [by apply computeRingPositions_frame|].
    rewrite computeRingPositions_idempotent. by apply computeRingPositions_frame.
  - intros g focusId childIds.
    destruct (placeChildrenForward_assign g focusId childIds) as (ops1 & Hg1 & Hops1). split.
    + rewrite Hg1. split; [apply assign_edges | by apply assign_frame].
    + destruct (placeChildrenForward_assign (Layout.placeChildrenForward g focusId childIds)
                  focusId childIds) as (ops2 & -> & Hops2).
      eapply Forall2_trans; [apply keptOutside_trans| |by apply assign_frame].
      rewrite Hg1. by apply assign_frame.
  - intros g. split; [apply computeRingPositions_skeleton|].
    split; [rewrite computeRingPositions_assign; apply assign_edges|].
    split; [apply computeRingPositions_assign | apply computeRingPositions_idempotent].
  - intros D prev incoming. apply mergeUniqueElements_idempotent.
Qed.
End layout_frame_contract.

Section layout_frame_examples.
Import Reals Cy RealRuntime.

Lemma layout_frame_witness :
  rootAndBatch [lit "a"; lit "b"] ringBefore ∧
  ((edges (Layout.computeRingPositions ringBefore) = edges ringBefore ∧
    Forall2 (keptOrCentred [lit "a"; lit "b"]) (nodes ringBefore)
      (nodes (Layout.computeRingPositions ringBefore)) ∧
    Forall2 (keptOrCentred [lit "a"; lit "b"]) (nodes ringBefore)
      (nodes (Layout.computeRingPositions (Layout.computeRingPositions ringBefore)))) ∧
   (∀ (g : core R) (focusId : jsstring) (childIds : list jsstring),
      (edges (Layout.placeChildrenForward g focusId childIds) = edges g ∧
       Forall2 (keptOutside childIds) (nodes g)
         (nodes (Layout.placeChildrenForward g focusId childIds))) ∧
      Forall2 (keptOutside childIds) (nodes g)
        (nodes (Layout.placeChildrenForward (Layout.placeChildrenForward g focusId childIds)
                  focusId childIds))) ∧
   (∀ g : core R,
      skeleton (Layout.computeRingPositions g) = skeleton g ∧
      edges (Layout.computeRingPositions g) = edges g ∧
      Layout.computeRingPositions g = assign (allSlots (skeleton g)) g ∧
      Layout.computeRingPositions (Layout.computeRingPositions g)
      = Layout.computeRingPositions g) ∧
   (∀ D (prev incoming : list (Merge.element D)),
      Merge.mergeUniqueElements (Merge.mergeUniqueElements prev incoming) incoming
      = Merge.mergeUniqueElements prev incoming)).
Proof.
  assert (rootAndBatch [lit "a"; lit "b"] ringBefore) as Hroot.
  { intros n Hn Hout. unfold ringBefore in Hn. simpl in Hn.
    repeat (apply elem_of_cons in Hn as [->|Hn]); [done| | |by apply elem_of_nil in Hn];
      exfalso; apply Hout; simpl; set_solver. }
  split; [exact Hroot|].
  exact (layout_frame ringBefore [lit "a"; lit "b"] Hroot).
Defined.
End layout_frame_examples.

(** ** The fan of the variant with the pending placeholders *)

Section pending_fan.
Import Cy.
Context {num : Type} `{JsRuntime num}.
Implicit Types (cy : core num).

Lemma pendingChildren_assign parentId vx vy count ids i cy :
  ∃ ops, LayoutPending.placeChildren parentId vx vy count ids i cy = assign ops cy
         ∧ ops.*1 ⊆ ids.
Proof.
  revert i cy. induction ids as [|id ids IH]; intros i cy; simpl.
  { by exists []. }
  destruct (getElementById cy id), (getElementById cy parentId);
    try (destruct (IH (S i) cy) as (ops & -> & Hops); exists ops; split; [done | set_solver]).
  match goal with |- context [setPosition id ?p cy] =>
    destruct (IH (S i) (setPosition id p cy)) as (ops & -> & Hops); exists ((id, p) :: ops) end.
  split; [done | set_solver].
Qed.

(** X18: the fan of the variant with the pending placeholders moves the
    listed children only: every other node is where it was, every node has
    the id and depth it had, and the edges are the same. *)
Theorem pendingFan_frame cy (parentId : jsstring) (childIds : list jsstring) :
  edges (LayoutPending.placeChildrenForward cy parentId childIds) = edges cy ∧
  Forall2 (keptOutside childIds) (nodes cy)
    (nodes (LayoutPending.placeChildrenForward cy parentId childIds)).
Proof.
  assert (∃ ops, LayoutPending.placeChildrenForward cy parentId childIds = assign ops cy
                 ∧ ops.*1 ⊆ childIds) as (ops & Hcy & Hops).
  { unfold LayoutPending.placeChildrenForward.
    destruct (getElementById cy parentId); [|exists nil; split; [done | set_solver]].
    apply pendingChildren_assign. }
  rewrite Hcy. split; [apply assign_edges | by apply assign_frame].
Qed.
End pending_fan.

(** * The handler *)

Section handler_facts.
Import Expand Handler.

Lemma run_bind {A B} (w : world) (t : io A) (k : A → io B) :
  run w (io_bind t k)
  = match (run w t).2 with
    | Resolves a => ((run w t).1 ++ (run w (k a)).1, (run w (k a)).2)
    | Rejects => ((run w t).1, Rejects)
    | Unsettled => ((run w t).1, Unsettled)
    end.
Proof.
  induction t as [a| | |c IH|name c IH|model msgs c IH]; simpl; try done.
  - by destruct (run w (k a)).
  - rewrite IH. by destruct (run w (c (w_request w))).2.
  - rewrite IH. by destruct (run w (c (w_env w name))).2.
  - rewrite IH. by destruct (run w (c (w_fetch w model msgs))).2.
Qed.

Lemma run_lift {A} (w : world) (o : outcome A) :
  run w (lift o) = ([], match o with
                        | Return a => Resolves a
                        | TypeError => Rejects
                        | OutOfFuel => Unsettled
                        end).
Proof. by destruct o. Qed.

(** The runs of [callOpenAI]: it fetches at most once, after it has found a
    key, and resolves with the content of an answer that is [ok]. *)
Lemma run_callOpenAI w msgs :
  (∀ content, (run w (callOpenAI msgs)).2 = Resolves content →
     ∃ model json,
       (run w (callOpenAI msgs)).1
         = [ReadEnv "OPENAI_API_KEY"; ReadEnv "OPENAI_MODEL"; Fetched model msgs] ∧
       w_fetch w model msgs = Some (true, Some json) ∧ contentOf json = Return content) ∧
  (∀ model msgs', Fetched model msgs' ∈ (run w (callOpenAI msgs)).1 →
     msgs' = msgs ∧ ∃ key, w_env w "OPENAI_API_KEY" = Some key ∧ key ≠ []) ∧
  (length (filter (λ e, isFetch e = true) (run w (callOpenAI msgs)).1) ≤ 1)%nat.
Proof.
  unfold callOpenAI. simpl.
  assert (∀ res : option (bool * option json),
    (run w (match res with
            | Some (true, Some json) => lift (contentOf json)
            | _ => Throw
            end : io jsstring)).1 = []) as Htail.
  { intros [[[] [json|]]|]; try done. by rewrite run_lift. }
  destruct (w_env w "OPENAI_API_KEY") as [[|c key]|] eqn:Hkey; simpl.
  1,3: split; [done|]; split; [|lia]; intros model msgs' Hin; set_solver.
  rewrite Htail. split; [|split; [|rewrite filter_nil; simpl; lia]].
  - intros content Hres.
    destruct (w_fetch w (default (lit "gpt-4o-mini") (w_env w "OPENAI_MODEL")) msgs)
      as [[[] [json|]]|] eqn:Hfetch; try done.
    exists (default (lit "gpt-4o-mini") (w_env w "OPENAI_MODEL")), json.
    split; [done|]. split; [done|].
    rewrite run_lift in Hres. simpl in Hres. by destruct (contentOf json); simplify_eq.
  - intros model msgs' Hin. assert (msgs' = msgs) as -> by set_solver.
    split; [done|]. by eexists.
Qed.
End handler_facts.

Section handler_contract.
Import Expand Handler.
Variable getSystemPrompt : jsstring → DomainSpec → jsstring.
Variable userPrompt : Node → list jsstring → jsstring.
Variable JSON_parse : jsstring → json + jsstring.

Local Abbreviation handle := (handleExpand getSystemPrompt userPrompt JSON_parse).
Local Abbreviation prompts domain spec focus request :=
  [(system, getSystemPrompt domain spec); (user, userPrompt focus (idsOfRequest request))].

(** The run of the handler for a registered domain and a focus node with an
    id: the body is read, the completion is asked for, and its content is
    parsed and sanitised. *)
Lemma run_handleExpand w domain spec request focus :
  DOMAINS domain = Registered spec → w_request w = Some request →
  focusNode request = Some focus → n_id focus ≠ [] →
  run w (handle domain)
  = let call := run w (callOpenAI (prompts domain spec focus request)) in
    (ReadBody :: call.1,
     match call.2 with
     | Resolves content =>
         match JSON_parse content with
         | inr detail =>
             Resolves (mkReply 500 (ErrorBody (lit "invalid json from model") (Some detail)))
         | inl raw =>
             match sanitizeExpandResult (n_id focus) (n_depth focus) (idsOfRequest request)
                     (spec_allowedKinds spec) raw with
             | Return out => Resolves (mkReply 200 (Graph out))
             | TypeError => Rejects
             | OutOfFuel => Unsettled
             end
         end
     | Rejects => Rejects
     | Unsettled => Unsettled
     end).
Proof.
  intros Hdom Hreq Hfocus Hid. unfold handleExpand. rewrite Hdom. cbn [run].
  rewrite Hreq, Hfocus, decide_False by done. rewrite run_bind.
  destruct (run w (callOpenAI _)) as [trace [content| |]]; simpl; try done.
  destruct (JSON_parse content) as [raw|detail]; simpl; [|by rewrite app_nil_r].
  rewrite run_bind, run_lift. simpl.
  by destruct (sanitizeExpandResult _ _ _ _ _); simpl; rewrite ?app_nil_r.
Qed.

(** The other runs end before the completion is asked for. *)
Lemma run_handleExpand_refused w domain :
  (¬ ∃ spec request focus,
      DOMAINS domain = Registered spec ∧ w_request w = Some request ∧
      focusNode request = Some focus ∧ n_id focus ≠ []) →
  Forall (λ e, isFetch e = false) (run w (handle domain)).1 ∧
  ∀ r, (run w (handle domain)).2 = Resolves r →
       status r = 400%Z ∧
       (body r = ErrorBody (lit "unknown domain") None ∨
        body r = ErrorBody (lit "focusNode is required") None).
Proof.
  intros Hno. unfold handleExpand.
  destruct (DOMAINS domain) as [spec|name|] eqn:Hdom; cbn [run].
  - destruct (w_request w) as [request|] eqn:Hreq; simpl.
    2: { split; [by repeat constructor | done]. }
    destruct (focusNode request) as [focus|] eqn:Hfocus; simpl.
    2: { split; [by repeat constructor|]. intros r [= <-]. auto. }
    case_decide as Hid; simpl.
    + split; [by repeat constructor|]. intros r [= <-]. auto.
    + exfalso. apply Hno. by exists spec, request, focus.
  - destruct (w_request w) as [request|] eqn:Hreq; simpl.
    2: { split; [by repeat constructor | done]. }
    destruct (focusNode request) as [focus|] eqn:Hfocus; simpl.
    2: { split; [by repeat constructor|]. intros r [= <-]. auto. }
    case_decide as Hid; simpl.
    + split; [by repeat constructor|]. intros r [= <-]. auto.
    + split; [by repeat constructor | done].
  - simpl. split; [constructor|]. intros r [= <-]. auto.
Qed.

Lemma DOMAINS_Registered domain spec :
  DOMAINS domain = Registered spec →
  spec_key spec = domain ∧ spec_allowedKinds spec ≠ [] ∧
  Forall (λ k, k ∉ objectPrototypeKeys) (spec_allowedKinds spec) ∧
  domainName (inferDomainFromAllowedKinds (spec_allowedKinds spec)) = Some domain.
Proof.
  unfold DOMAINS. repeat case_decide; try case_bool_decide; intros [= <-]; subst;
    (split; [done|]); (split; [done|]);
    (split; [refine (bool_decide_unpack _ _); vm_compute; exact I | vm_compute; reflexivity]).
Qed.

Lemma sanitizeExpandResult_star focusId focusDepth existingElementIds allowedKinds raw out :
  sanitizeExpandResult focusId focusDepth existingElementIds allowedKinds raw = Return out →
  Forall (λ e, e_source e = focusId ∧ e_target e ∈ n_id <$> nodes out) (edges out).
Proof.
  intros (resolved & model & suppl & _ & _ & Hmodel & Hsuppl & ->)%sanitizeExpandResult_Return.
  apply edgesFromModel_Return in Hmodel as (_ & Hm).
  apply supplement_Return in Hsuppl as (_ & Hs & _).
  apply Forall_app. split; [done|]. eapply Forall_impl; [exact Hs|].
  intros e (n & Hn & Hsrc & Ht & _). split; [done|]. rewrite Ht. by apply list_elem_of_fmap_2.
Qed.

(** X19: the handler asks the completion API only for a registered domain
    and a request whose focus node has a non-empty id, with a key in the
    environment; it sends the system prompt of the domain and the user
    prompt of the focus node and the ids of the request, and it asks once. *)
Theorem handleExpand_fetches_for_valid_request w domain model msgs :
  Fetched model msgs ∈ (run w (handle domain)).1 →
  (∃ spec request focus,
     DOMAINS domain = Registered spec ∧ w_request w = Some request ∧
     focusNode request = Some focus ∧ n_id focus ≠ [] ∧
     msgs = prompts domain spec focus request) ∧
  (∃ key, w_env w "OPENAI_API_KEY" = Some key ∧ key ≠ []) ∧
  length (filter (λ e, isFetch e = true) (run w (handle domain)).1) = 1%nat.
Proof.
  intros Hin.
  assert (∃ spec request focus,
            DOMAINS domain = Registered spec ∧ w_request w = Some request ∧
            focusNode request = Some focus ∧ n_id focus ≠ []) as (spec & request & focus & Hvalid).
  { destruct (DOMAINS domain) as [spec|name|] eqn:Hdom;
      [destruct (w_request w) as [request|] eqn:Hreq;
       [destruct (focusNode request) as [focus|] eqn:Hfocus;
        [destruct (decide (n_id focus = [])) as [Hid|Hid]; [|by eauto 10]|]|]|..];
      exfalso;
      (destruct (run_handleExpand_refused w domain) as [Hnone _];
       [intros (s & q & f & H1 & H2 & H3 & H4); congruence|]);
      rewrite Forall_forall in Hnone; by apply Hnone in Hin. }
  destruct Hvalid as (Hdom & Hreq & Hfocus & Hid).
  rewrite (run_handleExpand w domain spec request focus) in * by done. cbn [fst] in *.
  destruct (run_callOpenAI w (prompts domain spec focus request)) as (_ & Hmsgs & Hcount).
  apply elem_of_cons in Hin as [?|Hin]; [done|].
  destruct (Hmsgs _ _ Hin) as [-> Hkey].
  split; [by eauto 10|]. split; [done|].
  rewrite filter_cons_False by done.
  assert (Fetched model (prompts domain spec focus request)
          ∈ filter (λ e, isFetch e = true)
              (run w (callOpenAI (prompts domain spec focus request))).1) as Hfetch.
  { by apply list_elem_of_filter. }
  destruct (filter _ _) as [|e [|e' l]]; simpl in *; [by apply elem_of_nil in Hfetch | done | lia].
Qed.

(** X20: a response with status 200 is given for a registered domain and
    carries a graph: at most three nodes, each at the depth
    [focusNode.depth + 1] (the sum of the runtime, on doubles, of the depth
    the request carries), of a kind the domain allows and with an id that is none
    of the ids of the request; edges that leave the focus node, enter a node
    of the graph and have ids that are none of the ids of the request. The
    domain that the sanitiser infers from the allowed kinds is the domain of
    the request. *)
Theorem handleExpand_ok_contract w domain r :
  (run w (handle domain)).2 = Resolves r → status r = 200%Z →
  ∃ spec request focus out,
    DOMAINS domain = Registered spec ∧ w_request w = Some request ∧
    focusNode request = Some focus ∧ body r = Graph out ∧
    domainName (inferDomainFromAllowedKinds (spec_allowedKinds spec)) = Some domain ∧
    (length (nodes out) ≤ 3)%nat ∧
    Forall (λ n, n_depth n = (n_depth focus + 1)%float ∧ n_kind n ∈ spec_allowedKinds spec ∧
                 (n_id n ∉ idsOfRequest request)) (nodes out) ∧
    Forall (λ e, e_source e = n_id focus ∧ e_target e ∈ n_id <$> nodes out ∧
                 (e_id e ∉ idsOfRequest request)) (edges out).
Proof.
  intros Hrun Hstatus.
  assert (∃ spec request focus,
            DOMAINS domain = Registered spec ∧ w_request w = Some request ∧
            focusNode request = Some focus ∧ n_id focus ≠ []) as (spec & request & focus & Hvalid).
  { destruct (DOMAINS domain) as [spec|name|] eqn:Hdom;
      [destruct (w_request w) as [request|] eqn:Hreq;
       [destruct (focusNode request) as [focus|] eqn:Hfocus;
        [destruct (decide (n_id focus = [])) as [Hid|Hid]; [|by eauto 10]|]|]|..];
      exfalso;
      (destruct (run_handleExpand_refused w domain) as [_ Hbad];
       [intros (s & q & f & H1 & H2 & H3 & H4); congruence|]);
      destruct (Hbad r Hrun) as [H400 _]; lia. }
  destruct Hvalid as (Hdom & Hreq & Hfocus & Hid).
  rewrite (run_handleExpand w domain spec request focus) in Hrun by done. cbn [snd] in Hrun.
  destruct (run w (callOpenAI _)).2 as [content| |]; try done.
  destruct (JSON_parse content) as [raw|detail]; [|injection Hrun as <-; simpl in Hstatus; lia].
  destruct (sanitizeExpandResult _ _ _ _ raw) as [out| |] eqn:Hsan; try done.
  injection Hrun as <-. exists spec, request, focus, out.
  apply DOMAINS_Registered in Hdom as Hspec. destruct Hspec as (_ & Hkinds & _ & Hname).
  repeat split; [done..| | |].
  - apply sanitizeExpandResult_Return in Hsan as (resolved & _ & _ & _ & -> & _).
    rewrite length_take. lia.
  - pose proof (sanitize_kinds _ _ _ _ _ _ Hsan) as Hk.
    pose proof Hsan as (_ & _ & _ & Hnew)%sanitizeExpandResult_ids.
    pose proof Hsan as (resolved & _ & _ & Hres & Hnodes & _)%sanitizeExpandResult_Return.
    pose proof (sanitize_nodes_sublist _ _ _ _ _ _ Hres Hnodes) as Hsub.
    apply resolvedNodes_Return in Hres as (_ & _ & Hdepth & _).
    eapply Forall_sublist in Hdepth; [|exact Hsub].
    rewrite Forall_forall in *. intros n Hn. split; [auto|]. split.
    + destruct (Hk n Hn) as [?|[? _]]; done.
    + apply Hnew, elem_of_app. left. by apply list_elem_of_fmap_2.
  - pose proof (sanitizeExpandResult_star _ _ _ _ _ _ Hsan) as Hstar.
    pose proof Hsan as (_ & _ & _ & Hnew)%sanitizeExpandResult_ids.
    rewrite Forall_forall in *. intros e He. destruct (Hstar e He) as [? ?].
    split; [done|]. split; [done|]. apply Hnew, elem_of_app. right. by apply list_elem_of_fmap_2.
Qed.

(** X21: a response with another status is an error: status 400, without
    the completion API having been asked, for a domain that is not
    registered or a request without the id of a focus node; or status 500,
    when [JSON.parse] rejects the content of the completion. *)
Theorem handleExpand_error_statuses w domain r :
  (run w (handle domain)).2 = Resolves r → status r ≠ 200%Z →
  (status r = 400%Z ∧ Forall (λ e, isFetch e = false) (run w (handle domain)).1 ∧
   (body r = ErrorBody (lit "unknown domain") None ∨
    body r = ErrorBody (lit "focusNode is required") None)) ∨
  (status r = 500%Z ∧
   ∃ content detail, JSON_parse content = inr detail ∧
     body r = ErrorBody (lit "invalid json from model") (Some detail)).
Proof.
  intros Hrun Hstatus.
  destruct (DOMAINS domain) as [spec|name|] eqn:Hdom;
    [destruct (w_request w) as [request|] eqn:Hreq;
     [destruct (focusNode request) as [focus|] eqn:Hfocus;
      [destruct (decide (n_id focus = [])) as [Hid|Hid]|]|]|..].
  2: { right. rewrite (run_handleExpand w domain spec request focus) in Hrun by done.
       cbn [snd] in Hrun. destruct (run w (callOpenAI _)).2 as [content| |]; try done.
       destruct (JSON_parse content) as [raw|detail] eqn:Hparse.
       - destruct (sanitizeExpandResult _ _ _ _ raw); try done. by injection Hrun as <-.
       - injection Hrun as <-. split; [done|]. by exists content, detail. }
  all: left; destruct (run_handleExpand_refused w domain) as [Hnone Hbad];
    [intros (s & q & f & H1 & H2 & H3 & H4); congruence|];
    destruct (Hbad r Hrun) as [H400 Hbody]; done.
Qed.

(** X22: an exception of the sanitiser is not caught: when the completion
    is parsed to a payload on which [sanitizeExpandResult] throws, the
    promise of the handler rejects. *)
Theorem handleExpand_rethrows w domain spec request focus content raw :
  DOMAINS domain = Registered spec → w_request w = Some request →
  focusNode request = Some focus → n_id focus ≠ [] →
  (run w (callOpenAI (prompts domain spec focus request))).2 = Resolves content →
  JSON_parse content = inl raw →
  sanitizeExpandResult (n_id focus) (n_depth focus) (idsOfRequest request)
    (spec_allowedKinds spec) raw = TypeError →
  (run w (handle domain)).2 = Rejects.
Proof.
  intros Hdom Hreq Hfocus Hid Hcall Hparse Hsan.
  rewrite (run_handleExpand w domain spec request focus) by done. cbn [snd].
  by rewrite Hcall, Hparse, Hsan.
Qed.
End handler_contract.

Section handler_examples.
Import Expand Handler.

Lemma answering_run :
  run (answering []) (handleExpand somePrompt someUserPrompt (parsesTo mixedPayload) (lit "perfume"))
  = ([ReadBody; ReadEnv "OPENAI_API_KEY"; ReadEnv "OPENAI_MODEL";
      Fetched (lit "gpt-4o-mini") somePrompts],
     Resolves rootReply).
Proof. vm_compute. reflexivity. Qed.

Lemma answering_run_parse_error :
  run (answering []) (handleExpand somePrompt someUserPrompt parseFails (lit "perfume"))
  = ([ReadBody; ReadEnv "OPENAI_API_KEY"; ReadEnv "OPENAI_MODEL";
      Fetched (lit "gpt-4o-mini") somePrompts],
     Resolves parseErrorReply).
Proof. vm_compute. reflexivity. Qed.

Lemma handleExpand_fetches_for_valid_request_witness :
  Fetched (lit "gpt-4o-mini") somePrompts
    ∈ (run (answering [])
         (handleExpand somePrompt someUserPrompt (parsesTo mixedPayload) (lit "perfume"))).1 ∧
  ((∃ spec request focus,
     DOMAINS (lit "perfume") = Registered spec ∧ w_request (answering []) = Some request ∧
     focusNode request = Some focus ∧ n_id focus ≠ [] ∧
     somePrompts = [(system, somePrompt (lit "perfume") spec);
                    (user, someUserPrompt focus (idsOfRequest request))]) ∧
  (∃ key, w_env (answering []) "OPENAI_API_KEY" = Some key ∧ key ≠ []) ∧
  length (filter (λ e, isFetch e = true)
            (run (answering [])
               (handleExpand somePrompt someUserPrompt (parsesTo mixedPayload) (lit "perfume"))).1)
  = 1%nat).
Proof.
  assert (Fetched (lit "gpt-4o-mini") somePrompts
    ∈ (run (answering [])
         (handleExpand somePrompt someUserPrompt (parsesTo mixedPayload) (lit "perfume"))).1)
    as Hin.
  { rewrite answering_run. simpl. do 3 right. left. }
  split; [exact Hin|].
  exact (handleExpand_fetches_for_valid_request somePrompt someUserPrompt (parsesTo mixedPayload)
           (answering []) (lit "perfume") (lit "gpt-4o-mini") somePrompts Hin).
Defined.

Lemma handleExpand_ok_contract_witness :
  (run (answering [])
     (handleExpand somePrompt someUserPrompt (parsesTo mixedPayload) (lit "perfume"))).2
    = Resolves rootReply ∧
  status rootReply = 200%Z ∧
  (∃ spec request focus out,
    DOMAINS (lit "perfume") = Registered spec ∧ w_request (answering []) = Some request ∧
    focusNode request = Some focus ∧ body rootReply = Graph out ∧
    domainName (inferDomainFromAllowedKinds (spec_allowedKinds spec)) = Some (lit "perfume") ∧
    (length (nodes out) ≤ 3)%nat ∧
    Forall (λ n, n_depth n = (n_depth focus + 1)%float ∧ n_kind n ∈ spec_allowedKinds spec ∧
                 (n_id n ∉ idsOfRequest request)) (nodes out) ∧
    Forall (λ e, e_source e = n_id focus ∧ e_target e ∈ n_id <$> nodes out ∧
                 (e_id e ∉ idsOfRequest request)) (edges out)).
Proof.
  assert ((run (answering [])
     (handleExpand somePrompt someUserPrompt (parsesTo mixedPayload) (lit "perfume"))).2
    = Resolves rootReply) as Hrun.
  { by rewrite answering_run. }
  split; [exact Hrun|]. split; [reflexivity|].
  exact (handleExpand_ok_contract somePrompt someUserPrompt (parsesTo mixedPayload)
           (answering []) (lit "perfume") rootReply Hrun eq_refl).
Defined.

Lemma handleExpand_error_statuses_witness :
  (run (answering [])
     (handleExpand somePrompt someUserPrompt parseFails (lit "perfume"))).2
    = Resolves parseErrorReply ∧
  status parseErrorReply ≠ 200%Z ∧
  ((status parseErrorReply = 400%Z ∧
    Forall (λ e, isFetch e = false)
      (run (answering []) (handleExpand somePrompt someUserPrompt parseFails (lit "perfume"))).1 ∧
    (body parseErrorReply = ErrorBody (lit "unknown domain") None ∨
     body parseErrorReply = ErrorBody (lit "focusNode is required") None)) ∨
   (status parseErrorReply = 500%Z ∧
    ∃ content detail, parseFails content = inr detail ∧
      body parseErrorReply = ErrorBody (lit "invalid json from model") (Some detail))).
Proof.
  assert ((run (answering [])
     (handleExpand somePrompt someUserPrompt parseFails (lit "perfume"))).2
    = Resolves parseErrorReply) as Hrun.
  { by rewrite answering_run_parse_error. }
  assert (status parseErrorReply ≠ 200%Z) as Hstatus by (simpl; lia).
  split; [exact Hrun|]. split; [exact Hstatus|].
  exact (handleExpand_error_statuses somePrompt someUserPrompt parseFails
           (answering []) (lit "perfume") parseErrorReply Hrun Hstatus).
Defined.

Lemma handleExpand_rethrows_witness :
  DOMAINS (lit "perfume") = Registered perfumeSpec ∧
  w_request (answering []) = Some rootRequest ∧
  focusNode rootRequest = Some rootFocus ∧
  n_id rootFocus ≠ [] ∧
  (run (answering [])
     (callOpenAI [(system, somePrompt (lit "perfume") perfumeSpec);
                  (user, someUserPrompt rootFocus (idsOfRequest rootRequest))])).2
    = Resolves [] ∧
  parsesTo nodesNotArray [] = inl nodesNotArray ∧
  sanitizeExpandResult (n_id rootFocus) (n_depth rootFocus) (idsOfRequest rootRequest)
    (spec_allowedKinds perfumeSpec) nodesNotArray = TypeError ∧
  (run (answering [])
     (handleExpand somePrompt someUserPrompt (parsesTo nodesNotArray) (lit "perfume"))).2
  = Rejects.
Proof.
  assert (n_id rootFocus ≠ []) as Hid by done.
  assert ((run (answering [])
     (callOpenAI [(system, somePrompt (lit "perfume") perfumeSpec);
                  (user, someUserPrompt rootFocus (idsOfRequest rootRequest))])).2
    = Resolves []) as Hcall.
  { vm_compute. reflexivity. }
  assert (sanitizeExpandResult (n_id rootFocus) (n_depth rootFocus) (idsOfRequest rootRequest)
            (spec_allowedKinds perfumeSpec) nodesNotArray = TypeError) as Hsan.
  { vm_compute. reflexivity. }
  split; [reflexivity|]. split; [reflexivity|]. split; [reflexivity|]. split; [exact Hid|].
  split; [exact Hcall|]. split; [reflexivity|]. split; [exact Hsan|].
  exact (handleExpand_rethrows somePrompt someUserPrompt (parsesTo nodesNotArray)
           (answering []) (lit "perfume") perfumeSpec rootRequest rootFocus [] nodesNotArray
           eq_refl eq_refl eq_refl Hid Hcall eq_refl Hsan).
Defined.
End handler_examples.

(** * The earlier form of [makeUniqueId] *)

Section earlier_makeUniqueId.
Import Expand.

Lemma earlier_loop fuel base used i :
  makeUniqueId_loop fuel base used (suffixed base i) (N.succ i)
  = (j ← ExpandEarlier.makeUniqueId_loop fuel base used i; Return (suffixed base j)).
Proof.
  revert i. induction fuel as [|fuel IH]; intros i; simpl; [done|].
  case_decide; [apply IH | done].
Qed.

(** X23: the earlier form of [makeUniqueId], which tests the base and then
    counts the suffix up, returns the same id and leaves the same set as the
    form of [src/server/expand.ts], for every base and every set. *)
Theorem makeUniqueId_forms_agree base used :
  ExpandEarlier.makeUniqueId base used = makeUniqueId base used.
Proof.
  unfold ExpandEarlier.makeUniqueId, makeUniqueId. cbn [makeUniqueId_loop].
  case_decide as Hin; [|done].
  rewrite (earlier_loop (size used) base used 1).
  by destruct (ExpandEarlier.makeUniqueId_loop (size used) base used 1).
Qed.
End earlier_makeUniqueId.

(** * Ring placement of the variant with the pending placeholders *)

Section pending_ring.
Import Cy.
Context {num : Type} `{JsRuntime num}.
Variable kindOf : jsstring → jsstring.
Implicit Types (cy : core num).

Lemma pendingRing_assign rootId radius n ids i cy :
  ∃ ops, RingPending.placeOnRing rootId radius n ids i cy = assign ops cy ∧ ops.*1 ⊆ ids.
Proof.
  revert i cy. induction ids as [|id ids IH]; intros i cy; simpl.
  { by exists []. }
  destruct (getElementById cy rootId).
  - match goal with |- context [setPosition id ?p cy] =>
      destruct (IH (S i) (setPosition id p cy)) as (ops & -> & Hops); exists ((id, p) :: ops) end.
    split; [done | set_solver].
  - destruct (IH (S i) cy) as (ops & -> & Hops). exists ops. split; [done | set_solver].
Qed.

(** X24: ring placement of the variant with the pending placeholders moves
    nodes of depth 1 and deeper only: every node keeps its id and depth, the
    edges are the same, and a node whose id is not the id of a node of depth
    1 or more is where it was. *)
Theorem pendingRing_frame cy :
  edges (RingPending.computeRingPositions kindOf cy) = edges cy ∧
  Forall2 (keptOutside (node_id <$> filter (λ n, (1 ≤ node_depth n)%Z) (nodes cy)))
    (nodes cy) (nodes (RingPending.computeRingPositions kindOf cy)).
Proof.
  unfold RingPending.computeRingPositions. destruct (RingPending.root kindOf cy) as [r|].
  2: { split; [done|]. apply Forall_Forall2_diag, Forall_forall. by intros n _. }
  set (deep := node_id <$> filter (λ n, (1 ≤ node_depth n)%Z) (nodes cy)).
  set (depth1 := node_id <$> filter (λ n, node_depth n = 1%Z) (nodes cy)).
  set (depth2 := node_id <$> filter (λ n, (2 ≤ node_depth n)%Z) (nodes cy)).
  assert (depth1 ⊆ deep ∧ depth2 ⊆ deep) as [H1 H2].
  { split; intros x (n & -> & [Hd Hn]%list_elem_of_filter)%list_elem_of_fmap;
      apply list_elem_of_fmap; exists n; (split; [done|]); apply list_elem_of_filter;
      (split; [lia | done]). }
  destruct (pendingRing_assign (node_id r) (num_of_Z 170) (length depth1) depth1 0 cy)
    as (ops1 & -> & Hops1).
  destruct (pendingRing_assign (node_id r) (num_of_Z 320) (length depth2) depth2 0 (assign ops1 cy))
    as (ops2 & -> & Hops2).
  rewrite <- assign_app. split; [apply assign_edges|].
  apply assign_frame. rewrite fmap_app. set_solver.
Qed.
End pending_ring.

(** * A payload without candidates *)

Section no_candidates.
Import Expand.

(** X25: on a well-shaped payload whose [nodes] array holds no candidate
    (it is absent, [null] or empty, or none of its entries has a string id
    that is not blank), the sanitiser returns the empty result: no node and
    no edge, whatever the [edges] array holds. *)
Theorem sanitize_without_candidates focusId focusDepth existingElementIds allowedKinds raw arr :
  wellShaped raw = true →
  arrayOrEmpty (get raw "nodes") = Return arr →
  payloadIds arr = [] →
  sanitizeExpandResult focusId focusDepth existingElementIds allowedKinds raw
  = Return (mkResponse [] []).
Proof.
  intros Hshape Harr Hnone.
  destruct (sanitizeExpandResult_returns focusId focusDepth existingElementIds allowedKinds raw
              Hshape) as [out Hout].
  rewrite Hout. f_equal.
  pose proof (sanitizeExpandResult_star _ _ _ _ _ _ Hout) as Hstar.
  apply sanitizeExpandResult_Return in Hout as (resolved & _ & _ & Hres & Hnodes & _).
  assert (n_id <$> resolved = payloadIds arr) as Hids.
  { eapply resolvedNodes_fresh; [exact Harr | | | exact Hres]; rewrite Hnone;
      [constructor | by intros x ?%elem_of_nil]. }
  rewrite Hnone in Hids. apply fmap_nil_inv in Hids. subst resolved.
  destruct out as [ns es]. simpl in *. subst ns. f_equal.
  destruct es as [|e es]; [done|]. inv Hstar.
  match goal with H : _ ∧ _ ∈ _ |- _ => destruct H as [_ Hin] end.
  by apply elem_of_nil in Hin.
Qed.

Lemma sanitize_without_candidates_witness :
  wellShaped JNull = true ∧
  arrayOrEmpty (get JNull "nodes") = Return [] ∧
  payloadIds [] = [] ∧
  sanitizeExpandResult (lit "root") 0 [lit "root"] scenarioKinds JNull = Return (mkResponse [] []).
Proof.
  split; [reflexivity|]. split; [reflexivity|]. split; [reflexivity|].
  exact (sanitize_without_candidates (lit "root") 0 [lit "root"] scenarioKinds JNull []
           eq_refl eq_refl eq_refl).
Defined.
End no_candidates.

(** * Where the fan of the variant with the pending placeholders puts a child *)

Section pending_fan_positions.
Import Cy.
Context {num : Type} `{JsRuntime num}.
Implicit Types (cy : core num) (p : position num).

Lemma getElementById_setPosition_ne cy id p x :
  id ≠ x → getElementById (setPosition id p cy) x
           = getElementById cy x.
Proof.
  intros Hne. unfold getElementById, setPosition. simpl.
  induction (nodes cy) as [|n ns IH]; [done|]. rewrite fmap_cons. simpl.
  case_decide as Hn.
  - simpl. rewrite !bool_decide_eq_false_2 by congruence. done.
  - destruct (bool_decide (node_id n = x)); [done | apply IH].
Qed.

Lemma getElementById_setPosition_eq cy id p n :
  getElementById cy id = Some n →
  getElementById (setPosition id p cy) id = Some (mkNode id (node_depth n) p).
Proof.
  unfold getElementById, setPosition. simpl.
  induction (nodes cy) as [|m ns IH]; [done|]. rewrite fmap_cons. simpl.
  case_bool_decide as Hm.
  - intros [= <-]. rewrite decide_True by done. simpl. rewrite bool_decide_eq_true_2 by done.
    by rewrite Hm.
  - intros Hfind. rewrite decide_False by done. simpl. rewrite bool_decide_eq_false_2 by done.
    auto.
Qed.

Lemma getElementById_assign_other ops cy x :
  x ∉ ops.*1 → getElementById (assign ops cy) x = getElementById cy x.
Proof.
  revert cy. induction ops as [|op ops IH]; intros cy Hx; simpl; [done|].
  rewrite fmap_cons, not_elem_of_cons in Hx. destruct Hx as [Hne Hx].
  rewrite IH by done. by apply getElementById_setPosition_ne.
Qed.

Lemma pendingChildren_positions parentId vx vy count ids i cy parent :
  getElementById cy parentId = Some parent → parentId ∉ ids → NoDup ids →
  (∀ id, id ∈ ids → is_Some (getElementById cy id)) →
  ∀ j cid, ids !! j = Some cid →
    ∃ n, getElementById (LayoutPending.placeChildren parentId vx vy count ids i cy) cid = Some n ∧
         node_pos n = fanSlot (node_pos parent) (vx, vy) count (i + j).
Proof.
  revert i cy. induction ids as [|id ids IH]; intros i cy Hparent Hnot Hnd Hin j cid Hj.
  { by rewrite lookup_nil in Hj. }
  apply NoDup_cons in Hnd as [Hid Hnd]. apply not_elem_of_cons in Hnot as [Hne Hnot].
  destruct (Hin id) as [c Hc]; [by left|].
  cbn [LayoutPending.placeChildren]. rewrite Hc, Hparent.
  set (slot := mkPos _ _).
  assert (slot = fanSlot (node_pos parent) (vx, vy) count i) as Hslot by done.
  clearbody slot.
  destruct j as [|j]; simpl in Hj.
  - injection Hj as <-.
    destruct (pendingChildren_assign parentId vx vy count ids (S i) (setPosition id slot cy))
      as (ops & -> & Hops).
    rewrite getElementById_assign_other by (intros Hx; by apply Hid, Hops).
    rewrite (getElementById_setPosition_eq _ _ _ _ Hc). eexists. split; [done|]. simpl.
    by rewrite Hslot, Nat.add_0_r.
  - replace (i + S j)%nat with (S i + j)%nat by lia.
    apply IH; [|done..| |done].
    + by rewrite getElementById_setPosition_ne.
    + intros x Hx. destruct (decide (id = x)) as [<-|Hx'].
      * rewrite (getElementById_setPosition_eq _ _ _ _ Hc). by eexists.
      * rewrite getElementById_setPosition_ne by done. apply Hin. by right.
Qed.

(** X26: when the parent is in the graph and is not one of the children,
    and the children are pairwise distinct nodes of the graph, the fan of
    the variant with the pending placeholders puts the child at index [i] of
    [childIds] on [fanSlot]: 190 along the direction from the position of
    the parent, and 120 times [i - (k - 1) / 2] across it, where [k] is the
    length of [childIds]. The position follows the index in the list and no
    other node of the graph. *)
Theorem pendingFan_positions cy parentId childIds parent :
  getElementById cy parentId = Some parent → parentId ∉ childIds → NoDup childIds →
  (∀ id, id ∈ childIds → is_Some (getElementById cy id)) →
  ∀ i cid, childIds !! i = Some cid →
    ∃ n, getElementById (LayoutPending.placeChildrenForward cy parentId childIds) cid = Some n ∧
         node_pos n = fanSlot (node_pos parent)
                        (LayoutPending.forward cy parentId (node_pos parent))
                        (length childIds) i.
Proof.
  intros Hparent Hnot Hnd Hin i cid Hi. unfold LayoutPending.placeChildrenForward.
  rewrite Hparent.
  destruct (pendingChildren_positions parentId
              (LayoutPending.forward cy parentId (node_pos parent)).1
              (LayoutPending.forward cy parentId (node_pos parent)).2
              (length childIds) childIds 0 cy parent Hparent Hnot Hnd Hin i cid Hi)
    as (n & Hn & Hpos).
  exists n. split; [done|]. rewrite Hpos. simpl.
  by destruct (LayoutPending.forward cy parentId (node_pos parent)).
Qed.
End pending_fan_positions.

Section pending_fan_examples.
Import Reals Cy RealRuntime.

Lemma pendingFan_positions_witness :
  getElementById fanBefore (lit "f") = Some (mkNode (lit "f") 1 (mkPos 170%R 0%R)) ∧
  (lit "f" ∉ [lit "a"; lit "b"]) ∧
  NoDup [lit "a"; lit "b"] ∧
  (∀ id, id ∈ [lit "a"; lit "b"] → is_Some (getElementById fanBefore id)) ∧
  (∀ i cid, [lit "a"; lit "b"] !! i = Some cid →
    ∃ n, getElementById (LayoutPending.placeChildrenForward fanBefore (lit "f")
                           [lit "a"; lit "b"]) cid = Some n ∧
         node_pos n = fanSlot (mkPos 170%R 0%R)
                        (LayoutPending.forward fanBefore (lit "f") (mkPos 170%R 0%R))
                        (length [lit "a"; lit "b"]) i).
Proof.
  assert (lit "f" ∉ [lit "a"; lit "b"]) as Hnot.
  { refine (bool_decide_unpack _ _). vm_compute. exact I. }
  assert (NoDup [lit "a"; lit "b"]) as Hnd.
  { refine (bool_decide_unpack _ _). vm_compute. exact I. }
  assert (∀ id, id ∈ [lit "a"; lit "b"] → is_Some (getElementById fanBefore id)) as Hin.
  { intros id [->|[->|[]%elem_of_nil]%elem_of_cons]%elem_of_cons; by eexists. }
  split; [reflexivity|]. split; [exact Hnot|]. split; [exact Hnd|]. split; [exact Hin|].
  exact (pendingFan_positions fanBefore (lit "f") [lit "a"; lit "b"]
           (mkNode (lit "f") 1 (mkPos 170%R 0%R)) eq_refl Hnot Hnd Hin).
Defined.
End pending_fan_examples.
